(** * RepoTokenizerClient (sdk/python/client.py): a shallow embedding

    The client builds a request path (endpoint plus URL-encoded query),
    prepends the stored base URL, performs one GET through
    [urllib.request.urlopen] and decodes the body with [json.loads].

    Layout of the development:
    - [Py]       : Python values the client manipulates ([str], [bytes],
                   [int], [None], insertion-ordered [dict]) and exceptions;
    - [Codec]    : [str.encode("utf-8")] and [bytes.decode("utf-8")];
    - [UrlParse] : [urllib.parse.quote], [quote_plus] and [urlencode], and
                   the splitting functions [Request] calls;
    - [Json]     : [json.loads];
    - [Client]   : [urllib.request.Request], the class
                   [RepoTokenizerClient] itself over the opener in use, and
                   the opener [urlopen] stands for when none was installed;
    - [Wire]     : how a path is split back into its query entries;
    - the properties of the client. *)

From Stdlib Require Import List ZArith NArith Lia Bool Ascii String.
Import ListNotations.

Set Implicit Arguments.
Local Open Scope N_scope.

(* ===================================================================== *)
(** ** Python values *)
(* ===================================================================== *)

Module Py.

(** A Python [str] is a sequence of Unicode code points; a [bytes] object is
    a sequence of octets.  Both are lists of numbers here. *)
Definition str := list N.
Definition bytes := list N.

(** ASCII literals of the source text.  (A Rocq string literal is a byte
    string, so [lit] is only used on ASCII text.) *)
Definition lit (s : string) : str := map N_of_ascii (list_ascii_of_string s).

(** What a call that reaches outside hands back: a value, or a failure of
    its own (a [URLError], a time-out, a broken connection). *)
Inductive outcome (A : Type) : Type :=
| Done (a : A)
| Fault (tag : N).
Arguments Done {A} a.
Arguments Fault {A} tag.

(** The exceptions that can leave the client.  [RuntimeError] is the one the
    client raises itself; the others come out of the library calls it makes.
    [RecursionError] is a subclass of [RuntimeError] in Python and
    [JSONDecodeError] one of [ValueError]; [HTTPError] keeps the status code
    and the response it was raised for, of which [fp] is the body as reading
    it would give it. *)
Inductive exc : Type :=
| RuntimeError (msg : str)
| UnicodeEncodeError
| UnicodeDecodeError
| JSONDecodeError
| RecursionError
| ValueError
| TypeError
| HTTPError (code : Z) (fp : outcome bytes)
| TransportError (tag : N).

(** [isinstance(e, RuntimeError)], the test of [except RuntimeError]. *)
Definition is_RuntimeError (e : exc) : bool :=
  match e with
  | RuntimeError _ | RecursionError => true
  | _ => false
  end.

Inductive result (A : Type) : Type :=
| Ok (a : A)
| Raise (e : exc).
Arguments Ok {A} a.
Arguments Raise {A} e.

Definition rbind {A B} (r : result A) (k : A -> result B) : result B :=
  match r with
  | Ok a => k a
  | Raise e => Raise e
  end.

Fixpoint rmap_list {A B} (f : A -> result B) (l : list A) : result (list B) :=
  match l with
  | [] => Ok []
  | x :: l' => rbind (f x) (fun y => rbind (rmap_list f l') (fun ys => Ok (y :: ys)))
  end.

(** Values stored in the parameter dictionaries: the optional arguments are
    [Optional[str]] or [Optional[int]].  (A [bool], which passes for an
    [int] and prints as [True] or [False], is not among them.) *)
Inductive value : Type :=
| PyNone
| PyStr (s : str)
| PyInt (n : Z).

Definition of_opt_str (o : option str) : value :=
  match o with Some s => PyStr s | None => PyNone end.

Definition of_opt_int (o : option Z) : value :=
  match o with Some n => PyInt n | None => PyNone end.

(** Truth value, as tested by [if v]. *)
Definition truthy (v : value) : bool :=
  match v with
  | PyNone => false
  | PyStr s => match s with [] => false | _ :: _ => true end
  | PyInt n => negb (n =? 0)%Z
  end.

(** [v is not None]. *)
Definition is_not_None (v : value) : bool :=
  match v with PyNone => false | _ => true end.

Definition digit_char (d : N) : N := 48 + d.

Fixpoint uint_chars (u : Decimal.uint) : str :=
  match u with
  | Decimal.Nil => []
  | Decimal.D0 u' => digit_char 0 :: uint_chars u'
  | Decimal.D1 u' => digit_char 1 :: uint_chars u'
  | Decimal.D2 u' => digit_char 2 :: uint_chars u'
  | Decimal.D3 u' => digit_char 3 :: uint_chars u'
  | Decimal.D4 u' => digit_char 4 :: uint_chars u'
  | Decimal.D5 u' => digit_char 5 :: uint_chars u'
  | Decimal.D6 u' => digit_char 6 :: uint_chars u'
  | Decimal.D7 u' => digit_char 7 :: uint_chars u'
  | Decimal.D8 u' => digit_char 8 :: uint_chars u'
  | Decimal.D9 u' => digit_char 9 :: uint_chars u'
  end.

(** [str(n)] for an [int]: decimal digits, with a leading minus sign. *)
Definition str_of_int (n : Z) : str :=
  match Z.to_int n with
  | Decimal.Pos u => uint_chars u
  | Decimal.Neg u => 45 :: uint_chars u
  end.

(** The text of a value: what [str(v)] gives when it gives something. *)
Definition to_str (v : value) : str :=
  match v with
  | PyNone => lit "None"
  | PyStr s => s
  | PyInt n => str_of_int n
  end.

(** The default of [sys.get_int_max_str_digits()]: an [int] with more
    decimal digits, the sign apart, is neither printed nor read. *)
Definition int_max_str_digits : N := 4300.

Definition digit_count (n : Z) : N :=
  match Z.to_int n with
  | Decimal.Pos u => N.of_nat (List.length (uint_chars u))
  | Decimal.Neg u => N.of_nat (List.length (uint_chars u))
  end.

(** [str(n)] for an [int], with its limit. *)
Definition str_int (n : Z) : result str :=
  if int_max_str_digits <? digit_count n then Raise ValueError
  else Ok (str_of_int n).

(** [str(v)], as [urlencode] applies it to every value. *)
Definition str_ (v : value) : result str :=
  match v with
  | PyInt n => str_int n
  | _ => Ok (to_str v)
  end.

(** Insertion-ordered dictionaries with [str] keys. *)
Definition dict (V : Type) := list (str * V).

Definition str_eqb (a b : str) : bool :=
  if list_eq_dec N.eq_dec a b then true else false.

(** [d[k] = v]: overwrite in place, or append a new key at the end. *)
Fixpoint setitem {V} (d : dict V) (k : str) (v : V) : dict V :=
  match d with
  | [] => [(k, v)]
  | (k', v') :: d' =>
      if str_eqb k' k then (k', v) :: d' else (k', v') :: setitem d' k v
  end.

(** [{k: v for k, v in d.items() if p(v)}]. *)
Definition comprehension {V} (p : V -> bool) (d : dict V) : dict V :=
  filter (fun kv => p (snd kv)) d.

(** Truth value of a dictionary: non-empty. *)
Definition nonempty {V} (d : dict V) : bool :=
  match d with [] => false | _ :: _ => true end.

(** [s.isascii()]. *)
Definition isascii (s : str) : bool := forallb (fun c => c <? 128) s.

Definition ascii_upper (c : N) : N := if (97 <=? c) && (c <=? 122) then c - 32 else c.

Definition ascii_lower (c : N) : N := if (65 <=? c) && (c <=? 90) then c + 32 else c.

(** [s.capitalize()] for ASCII text: the first character in upper case, the
    others in lower case. *)
Definition ascii_capitalize (s : str) : str :=
  match s with
  | [] => []
  | c :: r => ascii_upper c :: map ascii_lower r
  end.

(** [s.startswith(p)]. *)
Fixpoint startswith (p s : str) : bool :=
  match p, s with
  | [], _ => true
  | a :: p', b :: s' => (a =? b) && startswith p' s'
  | _ :: _, [] => false
  end.

(** [c.isspace()]: the characters [s.strip()] removes. *)
Definition isspace (c : N) : bool :=
  ((9 <=? c) && (c <=? 13)) || ((28 <=? c) && (c <=? 32))
  || (c =? 0x85) || (c =? 0xA0) || (c =? 0x1680)
  || ((0x2000 <=? c) && (c <=? 0x200A))
  || (c =? 0x2028) || (c =? 0x2029) || (c =? 0x202F) || (c =? 0x205F)
  || (c =? 0x3000).

Fixpoint lstrip (s : str) : str :=
  match s with
  | c :: r => if isspace c then lstrip r else s
  | [] => []
  end.

Fixpoint rstrip (s : str) : str :=
  match s with
  | [] => []
  | c :: r =>
      match rstrip r with
      | [] => if isspace c then [] else [c]
      | (_ :: _) as r' => c :: r'
      end
  end.

(** [s.strip()]. *)
Definition strip (s : str) : str := rstrip (lstrip s).

(** [s.rpartition(sep)] for a one-character separator: the text before the
    last separator and the text after it, when there is one. *)
Fixpoint rpartition (sep : N) (s : str) : option (str * str) :=
  match s with
  | [] => None
  | c :: r =>
      match rpartition sep r with
      | Some (a, b) => Some (c :: a, b)
      | None => if c =? sep then Some ([], r) else None
      end
  end.

(** [sep.join(l)]. *)
Fixpoint join (sep : str) (l : list str) : str :=
  match l with
  | [] => []
  | [x] => x
  | x :: l' => x ++ sep ++ join sep l'
  end.

End Py.
Import Py.

(* ===================================================================== *)
(** ** UTF-8 *)
(* ===================================================================== *)

Module Codec.

Definition is_surrogate (c : N) : bool := (0xD800 <=? c)%N && (c <=? 0xDFFF)%N.

(** One code point under [str.encode("utf-8", "strict")]: lone surrogates
    cannot be encoded. *)
Definition utf8_encode_char (c : N) : option bytes :=
  if (c <? 0x80)%N then Some [c]
  else if (c <? 0x800)%N then
    Some [N.lor 0xC0 (N.shiftr c 6); N.lor 0x80 (N.land c 0x3F)]
  else if (c <? 0x10000)%N then
    if is_surrogate c then None
    else Some [N.lor 0xE0 (N.shiftr c 12);
               N.lor 0x80 (N.land (N.shiftr c 6) 0x3F);
               N.lor 0x80 (N.land c 0x3F)]
  else if (c <? 0x110000)%N then
    Some [N.lor 0xF0 (N.shiftr c 18);
          N.lor 0x80 (N.land (N.shiftr c 12) 0x3F);
          N.lor 0x80 (N.land (N.shiftr c 6) 0x3F);
          N.lor 0x80 (N.land c 0x3F)]
  else None.

Fixpoint utf8_encode (s : str) : option bytes :=
  match s with
  | [] => Some []
  | c :: s' =>
      match utf8_encode_char c, utf8_encode s' with
      | Some b, Some bs => Some (b ++ bs)
      | _, _ => None
      end
  end.

Definition encode (s : str) : result bytes :=
  match utf8_encode s with
  | Some bs => Ok bs
  | None => Raise UnicodeEncodeError
  end.

Definition is_cont (b : N) : bool := (0x80 <=? b)%N && (b <=? 0xBF)%N.
Definition in_range (lo hi b : N) : bool := (lo <=? b)%N && (b <=? hi)%N.
Definition cont_bits (b : N) : N := N.land b 0x3F.

(** [bytes.decode("utf-8", "strict")]: shortest forms only, no surrogates,
    nothing above U+10FFFF, no truncated sequence. *)
Fixpoint utf8_decode (bs : bytes) : option str :=
  match bs with
  | [] => Some []
  | b0 :: r0 =>
      if (b0 <? 0x80)%N then option_map (cons b0) (utf8_decode r0)
      else if in_range 0xC2 0xDF b0 then
        match r0 with
        | b1 :: r1 =>
            if is_cont b1 then
              option_map (cons (N.lor (N.shiftl (N.land b0 0x1F) 6) (cont_bits b1)))
                         (utf8_decode r1)
            else None
        | _ => None
        end
      else if in_range 0xE0 0xEF b0 then
        match r0 with
        | b1 :: b2 :: r2 =>
            if in_range (if (b0 =? 0xE0)%N then 0xA0 else 0x80)
                        (if (b0 =? 0xED)%N then 0x9F else 0xBF) b1
               && is_cont b2 then
              option_map
                (cons (N.lor (N.shiftl (N.land b0 0x0F) 12)
                             (N.lor (N.shiftl (cont_bits b1) 6) (cont_bits b2))))
                (utf8_decode r2)
            else None
        | _ => None
        end
      else if in_range 0xF0 0xF4 b0 then
        match r0 with
        | b1 :: b2 :: b3 :: r3 =>
            if in_range (if (b0 =? 0xF0)%N then 0x90 else 0x80)
                        (if (b0 =? 0xF4)%N then 0x8F else 0xBF) b1
               && is_cont b2 && is_cont b3 then
              option_map
                (cons (N.lor (N.shiftl (N.land b0 0x07) 18)
                             (N.lor (N.shiftl (cont_bits b1) 12)
                                    (N.lor (N.shiftl (cont_bits b2) 6) (cont_bits b3)))))
                (utf8_decode r3)
            else None
        | _ => None
        end
      else None
  end.

Definition decode (bs : bytes) : result str :=
  match utf8_decode bs with
  | Some s => Ok s
  | None => Raise UnicodeDecodeError
  end.

End Codec.

(* ===================================================================== *)
(** ** urllib.parse *)
(* ===================================================================== *)

Module UrlParse.

(** [_ALWAYS_SAFE]: the unreserved characters. *)
Definition ALWAYS_SAFE : bytes :=
  lit "ABCDEFGHIJKLMNOPQRSTUVWXYZabcdefghijklmnopqrstuvwxyz0123456789_.-~".

Definition mem (b : N) (l : list N) : bool := existsb (N.eqb b) l.

Definition hexdigit (n : N) : N := nth (N.to_nat n) (lit "0123456789ABCDEF") 48%N.

(** [_Quoter.__missing__]: a safe byte stands for itself, any other byte
    becomes ['%{:02X}'.format(b)]. *)
Definition quoter (safe : bytes) (b : N) : str :=
  if mem b (ALWAYS_SAFE ++ safe) then [b]
  else [37%N; hexdigit (b / 16); hexdigit (b mod 16)].

(** [quote_from_bytes(bs, safe)]; non-ASCII characters of [safe] are
    ignored. *)
Definition quote_from_bytes (bs : bytes) (safe : str) : str :=
  flat_map (quoter (filter (fun c => (c <? 128)%N) safe)) bs.

(** [quote(string, safe)] on a [str]: encode to UTF-8, then quote the bytes.
    The default of [safe] is ["/"]. *)
Definition quote (s : str) (safe : str) : result str :=
  match s with
  | [] => Ok []
  | _ => rbind (Codec.encode s) (fun bs => Ok (quote_from_bytes bs safe))
  end.

Definition replace_char (old new : N) (s : str) : str :=
  map (fun c => if (c =? old)%N then new else c) s.

(** [quote_plus(string, safe)]: like [quote], with spaces turned into [+].
    The default of [safe] is the empty string. *)
Definition quote_plus (s : str) (safe : str) : result str :=
  if mem 32%N s then
    rbind (quote s (safe ++ [32%N])) (fun q => Ok (replace_char 32 43 q))
  else quote s safe.

(** [urlencode(query)] on a dictionary, with the defaults [doseq=False],
    [safe=''] and [quote_via=quote_plus]. *)
Definition urlencode_item (kv : str * value) : result str :=
  rbind (quote_plus (fst kv) []) (fun k =>
  rbind (str_ (snd kv)) (fun text =>
  rbind (quote_plus text []) (fun v =>
  Ok (k ++ lit "=" ++ v)))).

Definition urlencode (query : dict value) : result str :=
  rbind (rmap_list urlencode_item query) (fun l => Ok (join (lit "&") l)).

(** [unwrap(url)]: the text without the white space around it, without a
    pair of angle brackets around it, without [URL:] before it. *)
Definition unwrap (url : str) : str :=
  let url := strip url in
  let url := if startswith (lit "<") url && (last url 0 =? 62)
             then strip (removelast (tl url)) else url in
  if startswith (lit "URL:") url then strip (skipn 4 url) else url.

(** [_splittag(url)]: the text before the last [#], and what follows it. *)
Definition _splittag (url : str) : str * option str :=
  match rpartition 35 url with
  | Some (path, tag) => (path, Some tag)
  | None => (url, None)
  end.

(** The longest beginning of [s] without [/] and [:], and the rest. *)
Fixpoint span_scheme (s : str) : str * str :=
  match s with
  | c :: r =>
      if (c =? 47) || (c =? 58) then ([], s)
      else let (a, b) := span_scheme r in (c :: a, b)
  | [] => ([], [])
  end.

(** What [_typeprog] matches in [_splittype(url)]: a scheme, of one
    character at least and without [/], then a colon, then anything.  (The
    scheme is given as it is written; [_splittype] returns it in lower
    case.) *)
Definition typeprog_match (url : str) : option (str * str) :=
  match span_scheme url with
  | ((_ :: _) as scheme, c :: data) =>
      if c =? 58 then Some (scheme, data) else None
  | _ => None
  end.

(** The longest beginning of [s] without [/], [#] and [?], and the rest. *)
Fixpoint span_host (s : str) : str * str :=
  match s with
  | c :: r =>
      if (c =? 47) || (c =? 35) || (c =? 63) then ([], s)
      else let (a, b) := span_host r in (c :: a, b)
  | [] => ([], [])
  end.

(** [_splithost(url)]: after two slashes, the host with its port, and the
    rest with a slash in front when it is not empty and has none. *)
Definition _splithost (url : str) : option str * str :=
  if startswith (lit "//") url then
    let (host_port, path) := span_host (skipn 2 url) in
    (Some host_port,
     match path with
     | c :: _ => if c =? 47 then path else 47 :: path
     | [] => []
     end)
  else (None, url).

End UrlParse.

(* ===================================================================== *)
(** ** json.loads *)
(* ===================================================================== *)

Module Json.

(** What [json.loads] returns: [dict], [list], [str], [int], [float],
    [True]/[False] and [None].  A [float] is kept as the text of its literal
    ([NaN], [Infinity] and [-Infinity] included), so that no floating-point
    arithmetic is involved: two literals of one number are kept apart.  A
    [dict] keeps its insertion order. *)
#[warnings="-register-all"]
Inductive json : Type :=
| JNone
| JBool (b : bool)
| JInt (n : Z)
| JFloat (literal : str)
| JStr (s : str)
| JList (l : list json)
| JDict (d : list (str * json)).

Definition is_ws (c : N) : bool :=
  (c =? 32) || (c =? 9) || (c =? 10) || (c =? 13).

Fixpoint skip_ws (s : str) : str :=
  match s with
  | c :: r => if is_ws c then skip_ws r else s
  | [] => []
  end.

(** [s] without its prefix [p], when it starts with [p]. *)
Fixpoint strip_prefix (p s : str) : option str :=
  match p, s with
  | [], _ => Some s
  | a :: p', b :: s' => if a =? b then strip_prefix p' s' else None
  | _ :: _, [] => None
  end.

Definition is_digit (c : N) : bool := (48 <=? c) && (c <=? 57).

Fixpoint span_digits (s : str) : str * str :=
  match s with
  | c :: r =>
      if is_digit c then let (d, r') := span_digits r in (c :: d, r') else ([], s)
  | [] => ([], [])
  end.

Definition int_of_digits (d : str) : Z :=
  fold_left (fun acc c => (10 * acc + Z.of_N (c - 48))%Z) d 0%Z.

(** [NUMBER_RE], group by group: an integer part (an optional minus sign,
    then a single zero or a non-zero digit and more digits), an optional
    fraction (a dot and at least one digit) and an optional exponent (e or E,
    an optional sign, at least one digit). *)
Definition match_integer (s : str) : option (str * str) :=
  let (sign, s1) := match s with
                    | c :: r => if c =? 45 then ([45], r) else ([], s)
                    | [] => ([], s)
                    end in
  match s1 with
  | c :: r =>
      if c =? 48 then Some (sign ++ [48], r)
      else if is_digit c then let (d, r') := span_digits r in Some (sign ++ c :: d, r')
      else None
  | [] => None
  end.

Definition match_frac (s : str) : option (str * str) :=
  match s with
  | c :: r =>
      if c =? 46 then
        match span_digits r with
        | ((_ :: _) as d, r') => Some (46 :: d, r')
        | _ => None
        end
      else None
  | [] => None
  end.

Definition match_exp (s : str) : option (str * str) :=
  match s with
  | c :: r =>
      if (c =? 101) || (c =? 69) then
        let (sign, r1) := match r with
                          | c' :: r' =>
                              if (c' =? 45) || (c' =? 43) then ([c'], r') else ([], r)
                          | [] => ([], r)
                          end in
        match span_digits r1 with
        | ((_ :: _) as d, r2) => Some (c :: sign ++ d, r2)
        | _ => None
        end
      else None
  | [] => None
  end.

(** A number, when [NUMBER_RE] matches: a [float] when there is a fraction
    or an exponent, and [int(integer)] otherwise, which raises [ValueError]
    beyond the limit on digits. *)
Definition match_number (s : str) : option (result (json * str)) :=
  match match_integer s with
  | None => None
  | Some (integer, r0) =>
      let (frac, r1) := match match_frac r0 with
                        | Some (f, r) => (f, r)
                        | None => ([], r0)
                        end in
      let (exp, r2) := match match_exp r1 with
                       | Some (e, r) => (e, r)
                       | None => ([], r1)
                       end in
      match frac ++ exp with
      | [] =>
          let (negative, d) := match integer with
                               | c :: d' => if c =? 45 then (true, d') else (false, integer)
                               | [] => (false, [])
                               end in
          if int_max_str_digits <? N.of_nat (List.length d) then Some (Raise ValueError)
          else Some (Ok (JInt (if negative then (- int_of_digits d)%Z
                               else int_of_digits d), r2))
      | _ :: _ => Some (Ok (JFloat (integer ++ frac ++ exp), r2))
      end
  end.

Definition hexval (c : N) : option N :=
  if (48 <=? c) && (c <=? 57) then Some (c - 48)
  else if (97 <=? c) && (c <=? 102) then Some (c - 87)
  else if (65 <=? c) && (c <=? 70) then Some (c - 55)
  else None.

Definition hex4 (s : str) : option (N * str) :=
  match s with
  | a :: b :: c :: d :: r =>
      match hexval a, hexval b, hexval c, hexval d with
      | Some x, Some y, Some z, Some w => Some (((x * 16 + y) * 16 + z) * 16 + w, r)
      | _, _, _, _ => None
      end
  | _ => None
  end.

(** The one-character escapes of [BACKSLASH]. *)
Definition unescape (c : N) : option N :=
  if (c =? 34) || (c =? 92) || (c =? 47) then Some c
  else if c =? 98 then Some 8
  else if c =? 102 then Some 12
  else if c =? 110 then Some 10
  else if c =? 114 then Some 13
  else if c =? 116 then Some 9
  else None.

Definition is_high_surrogate (c : N) : bool := (0xD800 <=? c) && (c <=? 0xDBFF).
Definition is_low_surrogate (c : N) : bool := (0xDC00 <=? c) && (c <=? 0xDFFF).

(** A [\uXXXX] escape for a low surrogate that follows a high surrogate. *)
Definition low_surrogate_escape (s : str) : option (N * str) :=
  match strip_prefix [92; 117] s with
  | Some r =>
      match hex4 r with
      | Some (c2, r') => if is_low_surrogate c2 then Some (c2, r') else None
      | None => None
      end
  | None => None
  end.

(** A run of the scanner: [None] when the fuel of the model is used up,
    which [loads] rules out. *)
Definition run (A : Type) : Type := option (result A).

Definition done {A} (a : A) : run A := Some (Ok a).

Definition fail {A} (e : exc) : run A := Some (Raise e).

Definition and_then {A B} (m : run A) (k : A -> run B) : run B :=
  match m with
  | Some (Ok a) => k a
  | Some (Raise e) => Some (Raise e)
  | None => None
  end.

Definition push {A} (c : N) (r : run (str * A)) : run (str * A) :=
  and_then r (fun p => done (c :: fst p, snd p)).

(** [scanstring(s, end, strict=True)], started after the opening quote:
    the decoded text and what follows the closing quote.  [fuel] bounds the
    number of characters read. *)
Fixpoint scanstring (fuel : nat) (s : str) : run (str * str) :=
  match fuel with
  | O => None
  | S fuel' =>
      match s with
      | [] => fail JSONDecodeError
      | c :: r =>
          if c =? 34 then done ([], r)
          else if c =? 92 then
            match r with
            | [] => fail JSONDecodeError
            | e :: r1 =>
                if e =? 117 then
                  match hex4 r1 with
                  | None => fail JSONDecodeError
                  | Some (u, r2) =>
                      match (if is_high_surrogate u then low_surrogate_escape r2
                             else None) with
                      | Some (u2, r3) =>
                          push (0x10000 + (u - 0xD800) * 0x400 + (u2 - 0xDC00))
                               (scanstring fuel' r3)
                      | None => push u (scanstring fuel' r2)
                      end
                  end
                else
                  match unescape e with
                  | Some c' => push c' (scanstring fuel' r1)
                  | None => fail JSONDecodeError
                  end
            end
          else if c <=? 0x1F then fail JSONDecodeError
          else push c (scanstring fuel' r)
      end
  end.

Definition literal (name : string) (v : json) (s : str)
  : option (result (json * str)) :=
  option_map (fun r => Ok (v, r)) (strip_prefix (lit name) s).

Definition orelse {A} (a b : option A) : option A :=
  match a with Some _ => a | None => b end.

(** The scanner ([scan_once]) with [JSONObject] and [JSONArray].  [depth] is
    what is left of the recursion limit of the interpreter: entering an
    object or an array takes one level, and [RecursionError] is raised when
    there is none.  [fuel] bounds the number of nested and repeated calls of
    the model; [loads] supplies twice the length of the text, plus two. *)
Fixpoint scan_once (fuel depth : nat) (s : str) : run (json * str) :=
  match fuel with
  | O => None
  | S fuel' =>
      match s with
      | [] => fail JSONDecodeError
      | c :: r =>
          if c =? 34 then
            and_then (scanstring (S (List.length r)) r) (fun p => done (JStr (fst p), snd p))
          else if c =? 123 then
            match depth with
            | O => fail RecursionError
            | S depth' =>
                match skip_ws r with
                | c1 :: r1 =>
                    if c1 =? 125 then done (JDict [], r1)
                    else if c1 =? 34 then object_members fuel' depth' r1 []
                    else fail JSONDecodeError
                | [] => fail JSONDecodeError
                end
            end
          else if c =? 91 then
            match depth with
            | O => fail RecursionError
            | S depth' =>
                match skip_ws r with
                | c1 :: r1 =>
                    if c1 =? 93 then done (JList [], r1)
                    else array_values fuel' depth' (c1 :: r1) []
                | [] => fail JSONDecodeError
                end
            end
          else
            match orelse (literal "null" JNone s)
                 (orelse (literal "true" (JBool true) s)
                 (orelse (literal "false" (JBool false) s)
                 (orelse (match_number s)
                 (orelse (literal "NaN" (JFloat (lit "NaN")) s)
                 (orelse (literal "Infinity" (JFloat (lit "Infinity")) s)
                         (literal "-Infinity" (JFloat (lit "-Infinity")) s)))))) with
            | Some p => Some p
            | None => fail JSONDecodeError
            end
      end
  end

(** After the opening quote of a key; [pairs] are the entries read so far,
    kept as [dict(pairs)] builds them. *)
with object_members (fuel depth : nat) (s : str) (pairs : list (str * json))
  : run (json * str) :=
  match fuel with
  | O => None
  | S fuel' =>
      and_then (scanstring (S (List.length s)) s) (fun k =>
      match skip_ws (snd k) with
      | c :: r =>
          if c =? 58 then
            and_then (scan_once fuel' depth (skip_ws r)) (fun v =>
            let pairs' := setitem pairs (fst k) (fst v) in
            match skip_ws (snd v) with
            | c1 :: r1 =>
                if c1 =? 125 then done (JDict pairs', r1)
                else if c1 =? 44 then
                  match skip_ws r1 with
                  | c2 :: r2 =>
                      if c2 =? 34 then object_members fuel' depth r2 pairs'
                      else fail JSONDecodeError
                  | [] => fail JSONDecodeError
                  end
                else fail JSONDecodeError
            | [] => fail JSONDecodeError
            end)
          else fail JSONDecodeError
      | [] => fail JSONDecodeError
      end)
  end

(** At the start of an element; [values] are the elements read so far, in
    reverse. *)
with array_values (fuel depth : nat) (s : str) (values : list json)
  : run (json * str) :=
  match fuel with
  | O => None
  | S fuel' =>
      and_then (scan_once fuel' depth s) (fun v =>
      let values' := fst v :: values in
      match skip_ws (snd v) with
      | c1 :: r1 =>
          if c1 =? 93 then done (JList (rev values'), r1)
          else if c1 =? 44 then array_values fuel' depth (skip_ws r1) values'
          else fail JSONDecodeError
      | [] => fail JSONDecodeError
      end)
  end.

(** [json.loads(s)] on a [str], with [depth] levels of recursion left: no
    byte-order mark, one value between optional white space, nothing after
    it.  (The last case is for the fuel of the model and is never taken.) *)
Definition loads (depth : nat) (s : str) : result json :=
  match s with
  | 0xFEFF :: _ => Raise JSONDecodeError
  | _ =>
      match scan_once (2 * S (List.length s))%nat depth (skip_ws s) with
      | Some r =>
          rbind r (fun v =>
          match skip_ws (snd v) with
          | [] => Ok (fst v)
          | _ :: _ => Raise JSONDecodeError
          end)
      | None => Raise RecursionError
      end
  end.

End Json.
(* ===================================================================== *)
(** ** The client *)
(* ===================================================================== *)

Module Client.
Import UrlParse.
Import Json.

(** The dataclass: [base_url: str] and [headers: Optional[Dict[str, str]]]. *)
Record RepoTokenizerClient : Type := {
  base_url : str;
  headers : option (dict str)
}.

(** A [urllib.request.Request] as its constructor leaves it: the URL
    without its fragment ([_full_url]), the fragment, and the headers.  (Its
    [type], [host] and [selector] are functions of [_full_url]; the opener
    adds headers of its own when it sends the request.) *)
Record Request : Type := {
  _full_url : str;
  fragment : option str;
  request_headers : dict str
}.

(** The property [full_url]. *)
Definition full_url (req : Request) : str :=
  match fragment req with
  | Some ((_ :: _) as f) => _full_url req ++ lit "#" ++ f
  | _ => _full_url req
  end.

(** [Request.selector] as the constructor sets it: what follows the host,
    which is what the request line of the GET carries when no proxy is in
    the way. *)
Definition selector (req : Request) : str :=
  match typeprog_match (_full_url req) with
  | Some (_, rest) => snd (_splithost rest)
  | None => _full_url req
  end.

(** The response object: [resp.status], which is [None] when the URL was not
    an HTTP one ([file:], [data:], [ftp:]), and what [resp.read()] gives. *)
Record Response : Type := {
  status : option Z;
  content : outcome bytes
}.

(** What the client does to the outside world. *)
Inductive event : Type :=
| Urlopen (req : Request)
| Read (resp : Response).

Section Transport.

(** The network is the environment of the client; so is what the source
    leaves to the interpreter and its library:
    - [urlopen] answers a request or raises, and may change the state of the
      network; which opener it stands for depends on [install_opener];
    - [unicode_capitalize] is [str.capitalize] on text that is not ASCII
      (the case mappings of Unicode);
    - [urlparse_accepts] tells whether [urlparse] splits a URL without a
      [ValueError] (brackets of an IPv6 host, characters of the host that
      normalise to a separator);
    - [recursion_left] is how many nested calls the interpreter allows from
      where the method is called. *)
Variable NetState : Type.

Record Runtime : Type := {
  urlopen : Request -> NetState -> result Response * NetState;
  unicode_capitalize : str -> str;
  urlparse_accepts : str -> bool;
  recursion_left : nat
}.

Variable rt : Runtime.

(** The state a method runs in: the object [self], the network, and the
    log of the calls made to the transport. *)
Record World : Type := {
  self : RepoTokenizerClient;
  net : NetState;
  trace : list event
}.

Definition M (A : Type) : Type := World -> result A * World.

Definition ret {A} (a : A) : M A := fun w => (Ok a, w).

Definition raise {A} (e : exc) : M A := fun w => (Raise e, w).

Definition bind {A B} (m : M A) (k : A -> M B) : M B :=
  fun w =>
    match m w with
    | (Ok a, w') => k a w'
    | (Raise e, w') => (Raise e, w')
    end.

Definition lift {A} (r : result A) : M A := fun w => (r, w).

Definition of_outcome {A} (o : outcome A) : result A :=
  match o with
  | Done a => Ok a
  | Fault tag => Raise (TransportError tag)
  end.

Definition get_self : M RepoTokenizerClient := fun w => (Ok (self w), w).

(** [request.urlopen(req)]. *)
Definition do_urlopen (req : Request) : M Response :=
  fun w =>
    let (r, n) := urlopen rt req (net w) in
    (r, {| self := self w; net := n; trace := trace w ++ [Urlopen req] |}).

(** [resp.read()]. *)
Definition do_read (resp : Response) : M bytes :=
  fun w =>
    (of_outcome (content resp),
     {| self := self w; net := net w; trace := trace w ++ [Read resp] |}).

Notation "x <- c ;; k" := (bind c (fun x => k))
  (at level 61, c at next level, right associativity).

(** [self.headers or {}]. *)
Definition headers_or_empty (h : option (dict str)) : dict str :=
  match h with
  | Some ((_ :: _) as d) => d
  | _ => []
  end.

(** [key.capitalize()]. *)
Definition capitalize (key : str) : str :=
  if isascii key then ascii_capitalize key else unicode_capitalize rt key.

(** [Request.add_header]: [self.headers[key.capitalize()] = val]. *)
Definition add_header (hs : dict str) (kv : str * str) : dict str :=
  setitem hs (capitalize (fst kv)) (snd kv).

(** [Request(url, headers=headers)].  The setter of [full_url] unwraps the
    URL, splits the fragment off and raises [ValueError] when no scheme is
    found; the headers are added one by one; [request_host], called for
    [origin_req_host], runs [urlparse] on [full_url]. *)
Definition Request_init (url : str) (hs : dict str) : result Request :=
  let (u, frag) := _splittag (unwrap url) in
  match typeprog_match u with
  | None => Raise ValueError
  | Some _ =>
      let req := {| _full_url := u;
                    fragment := frag;
                    request_headers := fold_left add_header hs [] |} in
      if urlparse_accepts rt (full_url req) then Ok req else Raise ValueError
  end.

(** Lines 14 and 15: [url = f"{self.base_url}{path}"] and
    [req = request.Request(url, headers=self.headers or {})]. *)
Definition make_request (c : RepoTokenizerClient) (path : str) : result Request :=
  let url := base_url c ++ path in
  Request_init url (headers_or_empty (headers c)).

(** What [raise RuntimeError(f"Request failed: {resp.status}")] raises: the
    [ValueError] of the conversion when the status has too many digits to
    be printed. *)
Definition request_failed (code : Z) : exc :=
  match str_int code with
  | Ok text => RuntimeError (lit "Request failed: " ++ text)
  | Raise e => e
  end.

(** Lines 14 to 22; [resp.status >= 400] is a [TypeError] when the status is
    [None]. *)
Definition _request (path : str) : M json :=
  c <- get_self ;;
  req <- lift (make_request c path) ;;
  resp <- do_urlopen req ;;
  match status resp with
  | None => raise TypeError
  | Some code =>
      if (400 <=? code)%Z then raise (request_failed code)
      else
        raw <- do_read resp ;;
        data <- lift (Codec.decode raw) ;;
        match data with
        | [] => ret JNone
        | _ :: _ => lift (Json.loads (recursion_left rt) data)
        end
  end.

(** [f"?{parse.urlencode(params)}" if params else ''], the empty text when
    the dictionary is empty. *)
Definition query_if_params (params : dict value) : result str :=
  if nonempty params then rbind (urlencode params) (fun q => Ok (lit "?" ++ q))
  else Ok [].

(** [f"?{parse.urlencode(params)}"]. *)
Definition query_always (params : dict value) : result str :=
  rbind (urlencode params) (fun q => Ok (lit "?" ++ q)).

(** [if v: params[k] = v]. *)
Definition set_if_truthy (params : dict value) (k : string) (v : value) : dict value :=
  if truthy v then setitem params (lit k) v else params.

Definition list_files_params (include exclude ref : option str) : dict value :=
  comprehension truthy
    [(lit "include", of_opt_str include);
     (lit "exclude", of_opt_str exclude);
     (lit "ref", of_opt_str ref)].

Definition list_files_path (include exclude ref : option str) : result str :=
  rbind (query_if_params (list_files_params include exclude ref)) (fun query =>
  Ok (lit "/files" ++ query)).

Definition list_files (include exclude ref : option str) : M json :=
  path <- lift (list_files_path include exclude ref) ;; _request path.

Definition list_chunks_params (path lang ref : option str) (max_tokens : option Z)
  : dict value :=
  comprehension is_not_None
    [(lit "path", of_opt_str path);
     (lit "lang", of_opt_str lang);
     (lit "ref", of_opt_str ref);
     (lit "maxTokens", of_opt_int max_tokens)].

Definition list_chunks_path (path lang ref : option str) (max_tokens : option Z)
  : result str :=
  rbind (query_if_params (list_chunks_params path lang ref max_tokens)) (fun query =>
  Ok (lit "/chunks" ++ query)).

Definition list_chunks (path lang ref : option str) (max_tokens : option Z) : M json :=
  p <- lift (list_chunks_path path lang ref max_tokens) ;; _request p.

Definition get_file_params (path : str) (ref : option str) : dict value :=
  let params := [(lit "path", PyStr path)] in
  set_if_truthy params "ref" (of_opt_str ref).

Definition get_file_path (path : str) (ref : option str) : result str :=
  rbind (query_always (get_file_params path ref)) (fun query =>
  Ok (lit "/file" ++ query)).

Definition get_file (path : str) (ref : option str) : M json :=
  p <- lift (get_file_path path ref) ;; _request p.

Definition get_chunk_path (chunk_id : str) (ref : option str) : result str :=
  rbind (match ref with
         | Some ((_ :: _) as r) =>
             rbind (quote r (lit "/")) (fun e => Ok (lit "?ref=" ++ e))
         | _ => Ok []
         end) (fun query =>
  rbind (quote chunk_id (lit "/")) (fun e =>
  Ok (lit "/chunks/" ++ e ++ query))).

Definition get_chunk (chunk_id : str) (ref : option str) : M json :=
  p <- lift (get_chunk_path chunk_id ref) ;; _request p.

Definition search_params (query_text : str) (path_glob ref : option str) : dict value :=
  let params := [(lit "q", PyStr query_text)] in
  let params := set_if_truthy params "pathGlob" (of_opt_str path_glob) in
  set_if_truthy params "ref" (of_opt_str ref).

Definition search_path (query_text : str) (path_glob ref : option str) : result str :=
  rbind (query_always (search_params query_text path_glob ref)) (fun query =>
  Ok (lit "/search" ++ query)).

Definition search (query_text : str) (path_glob ref : option str) : M json :=
  p <- lift (search_path query_text path_glob ref) ;; _request p.

Definition search_symbols_params (query_text ref : option str) : dict value :=
  let params := [] in
  let params := set_if_truthy params "q" (of_opt_str query_text) in
  set_if_truthy params "ref" (of_opt_str ref).

Definition search_symbols_path (query_text ref : option str) : result str :=
  rbind (query_if_params (search_symbols_params query_text ref)) (fun query =>
  Ok (lit "/search/symbols" ++ query)).

Definition search_symbols (query_text ref : option str) : M json :=
  p <- lift (search_symbols_path query_text ref) ;; _request p.

(** One method call with its arguments. *)
Inductive call : Type :=
| ListFiles (include exclude ref : option str)
| ListChunks (path lang ref : option str) (max_tokens : option Z)
| GetFile (path : str) (ref : option str)
| GetChunk (chunk_id : str) (ref : option str)
| Search (query_text : str) (path_glob ref : option str)
| SearchSymbols (query_text ref : option str).

Definition invoke (c : call) : M json :=
  match c with
  | ListFiles include exclude ref => list_files include exclude ref
  | ListChunks path lang ref max_tokens => list_chunks path lang ref max_tokens
  | GetFile path ref => get_file path ref
  | GetChunk chunk_id ref => get_chunk chunk_id ref
  | Search query_text path_glob ref => search query_text path_glob ref
  | SearchSymbols query_text ref => search_symbols query_text ref
  end.

(** The path a call hands to [_request]. *)
Definition path_of (c : call) : result str :=
  match c with
  | ListFiles include exclude ref => list_files_path include exclude ref
  | ListChunks path lang ref max_tokens => list_chunks_path path lang ref max_tokens
  | GetFile path ref => get_file_path path ref
  | GetChunk chunk_id ref => get_chunk_path chunk_id ref
  | Search query_text path_glob ref => search_path query_text path_glob ref
  | SearchSymbols query_text ref => search_symbols_path query_text ref
  end.

(** The parameter mapping a call assembles; [get_chunk] builds none. *)
Definition params_of (c : call) : option (dict value) :=
  match c with
  | ListFiles include exclude ref => Some (list_files_params include exclude ref)
  | ListChunks path lang ref max_tokens =>
      Some (list_chunks_params path lang ref max_tokens)
  | GetFile path ref => Some (get_file_params path ref)
  | GetChunk _ _ => None
  | Search query_text path_glob ref => Some (search_params query_text path_glob ref)
  | SearchSymbols query_text ref => Some (search_symbols_params query_text ref)
  end.

(** The requests made between two states of the log. *)
Fixpoint requests (tr : list event) : list Request :=
  match tr with
  | [] => []
  | Urlopen req :: tr' => req :: requests tr'
  | Read _ :: tr' => requests tr'
  end.

Fixpoint reads (tr : list event) : list Response :=
  match tr with
  | [] => []
  | Urlopen _ :: tr' => reads tr'
  | Read resp :: tr' => resp :: reads tr'
  end.

(** The part of the log a computation adds when run from [w]. *)
Definition added {A} (m : M A) (w : World) : list event :=
  skipn (List.length (trace w)) (trace (snd (m w))).

End Transport.

(** The opener [urlopen] uses when none was installed.  [fetch] is the
    exchange with the server, redirections followed; [HTTPErrorProcessor]
    then hands every HTTP answer whose status is not 200 to 299 to the error
    handlers, which raise [HTTPError] with that answer; any other failure of
    the exchange is raised as it is. *)
Definition stock_urlopen {NetState : Type}
           (fetch : Request -> NetState -> outcome Response * NetState)
           (req : Request) (n : NetState) : result Response * NetState :=
  let (o, n') := fetch req n in
  (match o with
   | Done resp =>
       match status resp with
       | Some code =>
           if (200 <=? code)%Z && (code <? 300)%Z then Ok resp
           else Raise (HTTPError code (content resp))
       | None => Ok resp
       end
   | Fault tag => Raise (TransportError tag)
   end, n').

(** The runtime [rt] with the stock opener over [fetch]. *)
Definition stock {NetState : Type} (rt : Runtime NetState)
           (fetch : Request -> NetState -> outcome Response * NetState)
  : Runtime NetState :=
  {| urlopen := stock_urlopen fetch;
     unicode_capitalize := unicode_capitalize rt;
     urlparse_accepts := urlparse_accepts rt;
     recursion_left := recursion_left rt |}.

End Client.

(* ===================================================================== *)
(** ** Reading a path back: how the receiving side splits it *)
(* ===================================================================== *)

Module Wire.

(** [s.partition(sep)] for a one-character separator: the text before the
    first separator and, when there is one, the text after it. *)
Fixpoint partition (sep : N) (s : str) : str * option str :=
  match s with
  | [] => ([], None)
  | c :: r =>
      if c =? sep then ([], Some r)
      else let (a, b) := partition sep r in (c :: a, b)
  end.

(** [s.split(sep)] for a one-character separator. *)
Fixpoint split (sep : N) (s : str) : list str :=
  match s with
  | [] => [[]]
  | c :: r =>
      if c =? sep then [] :: split sep r
      else match split sep r with
           | x :: l => (c :: x) :: l
           | [] => [[c]]
           end
  end.

(** The query component: what follows the first [?]. *)
Definition query_string (path : str) : option str := snd (partition 63 path).

(** The path component: what precedes the first [?]. *)
Definition path_component (path : str) : str := fst (partition 63 path).

Definition key_value (item : str) : str * str :=
  let (k, v) := partition 61 item in
  (k, match v with Some v' => v' | None => [] end).

(** The [key=value] entries of the query component, in order, still
    encoded. *)
Definition query_items (path : str) : list (str * str) :=
  match query_string path with
  | None => []
  | Some q => map key_value (split 38 q)
  end.

Definition keys (path : str) : list str := map fst (query_items path).

(** How many entries of the query carry the key [k]. *)
Definition occurrences (k : str) (path : str) : nat :=
  List.length (filter (str_eqb k) (keys path)).

End Wire.

(* ===================================================================== *)
(** ** Vocabulary of the properties *)
(* ===================================================================== *)

Import UrlParse Json Client.
Unset Implicit Arguments.

(** The parameters a call always sends. *)
Definition required (c : call) : dict value :=
  match c with
  | GetFile path _ => [(lit "path", PyStr path)]
  | Search query_text _ _ => [(lit "q", PyStr query_text)]
  | _ => []
  end.

(** The optional parameters of a call, under the names they have in the
    query. *)
Definition optional (c : call) : dict value :=
  match c with
  | ListFiles include exclude ref =>
      [(lit "include", of_opt_str include);
       (lit "exclude", of_opt_str exclude);
       (lit "ref", of_opt_str ref)]
  | ListChunks path lang ref max_tokens =>
      [(lit "path", of_opt_str path);
       (lit "lang", of_opt_str lang);
       (lit "ref", of_opt_str ref);
       (lit "maxTokens", of_opt_int max_tokens)]
  | GetFile _ ref => [(lit "ref", of_opt_str ref)]
  | GetChunk _ ref => [(lit "ref", of_opt_str ref)]
  | Search _ path_glob ref =>
      [(lit "pathGlob", of_opt_str path_glob); (lit "ref", of_opt_str ref)]
  | SearchSymbols query_text ref =>
      [(lit "q", of_opt_str query_text); (lit "ref", of_opt_str ref)]
  end.

(** The test that lets an optional parameter into the query. *)
Definition gate (c : call) : value -> bool :=
  match c with
  | ListChunks _ _ _ _ => is_not_None
  | _ => truthy
  end.

(** How a call encodes a parameter value. *)
Definition encoded (c : call) (v : value) : result str :=
  match c with
  | GetChunk _ _ => quote (to_str v) (lit "/")
  | _ => quote_plus (to_str v) []
  end.

(** The parameters that reach the query, in order. *)
Definition sent (c : call) : dict value :=
  required c ++ comprehension (gate c) (optional c).

Definition item_string (it : str * str) : str := fst it ++ lit "=" ++ snd it.

(** A query component made of encoded entries; nothing at all when there is
    no entry. *)
Definition render (items : list (str * str)) : str :=
  match items with
  | [] => []
  | _ :: _ => lit "?" ++ join (lit "&") (map item_string items)
  end.

(** An entry of the query stands for a parameter of the call. *)
Definition stands_for (c : call) (kv : str * value) (it : str * str) : Prop :=
  fst it = fst kv /\ encoded c (snd kv) = Ok (snd it).

(** Text that the quoting functions leave alone. *)
Definition plain (s : str) : Prop := Forall (fun c => mem c ALWAYS_SAFE = true) s.

(** An entry free of [=] in its key and of [&] anywhere. *)
Definition clean_item (it : str * str) : Prop :=
  ~ In 61 (fst it) /\ ~ In 38 (fst it) /\ ~ In 38 (snd it).

(** The literal path of each endpoint; [get_chunk] appends the quoted chunk
    id to it. *)
Definition endpoint (c : call) : result str :=
  match c with
  | ListFiles _ _ _ => Ok (lit "/files")
  | ListChunks _ _ _ _ => Ok (lit "/chunks")
  | GetFile _ _ => Ok (lit "/file")
  | GetChunk chunk_id _ =>
      rbind (quote chunk_id (lit "/")) (fun e => Ok (lit "/chunks/" ++ e))
  | Search _ _ _ => Ok (lit "/search")
  | SearchSymbols _ _ => Ok (lit "/search/symbols")
  end.

(** What [quote_plus] makes of the keys and values of a dictionary. *)
Definition urlencoded (kv : str * value) (it : str * str) : Prop :=
  fst it = fst kv /\ quote_plus (to_str (snd kv)) [] = Ok (snd it).

(** A result that is not a [RuntimeError]. *)
Definition benign {A : Type} (r : result A) : Prop :=
  forall msg, r <> Raise (RuntimeError msg).

(** A run that, if it ends, does not end with a [RuntimeError] of the
    client. *)
Definition quiet {A : Type} (r : run A) : Prop :=
  forall msg, r <> Some (Raise (RuntimeError msg)).

(** What the scanner makes of a text that opens neither a string nor an
    object nor an array. *)
Definition atom (s : str) : option (result (json * str)) :=
  orelse (literal "null" JNone s)
 (orelse (literal "true" (JBool true) s)
 (orelse (literal "false" (JBool false) s)
 (orelse (match_number s)
 (orelse (literal "NaN" (JFloat (lit "NaN")) s)
 (orelse (literal "Infinity" (JFloat (lit "Infinity")) s)
         (literal "-Infinity" (JFloat (lit "-Infinity")) s)))))).

(** A run of the scanner on [s] with [depth] levels left that did not run
    out of fuel; whose remaining text, when there is one, is shorter than
    [s]; and that raised [RecursionError] only if [s] has more characters
    than there were levels. *)
Definition good {A : Type} (s : str) (depth : nat) (r : run (A * str)) : Prop :=
  match r with
  | Some (Ok p) => (List.length (snd p) < List.length s)%nat
  | Some (Raise e) => e = RecursionError -> (depth < List.length s)%nat
  | None => False
  end.

(** The state after [urlopen] has answered. *)
Definition opened {NetState : Type} (w : World NetState) (req : Request) (n : NetState)
  : World NetState :=
  {| self := self w; net := n; trace := trace w ++ [Urlopen req] |}.

(** The state after the body has been read as well. *)
Definition consumed {NetState : Type} (w : World NetState) (req : Request) (n : NetState)
           (resp : Response) : World NetState :=
  {| self := self w; net := n; trace := (trace w ++ [Urlopen req]) ++ [Read resp] |}.

(** What [_request] makes of a body, with [depth] levels of recursion
    left. *)
Definition decoded (depth : nat) (raw : outcome bytes) : result json :=
  rbind (of_outcome raw) (fun bs =>
  rbind (Codec.decode bs) (fun data =>
  match data with
  | [] => Ok JNone
  | _ :: _ => Json.loads depth data
  end)).

(** A URL that [Request] keeps as it is written: nothing for [unwrap] to
    remove, and no fragment. *)
Definition as_written (url : str) : bool :=
  str_eqb (unwrap url) url && negb (mem 35 url).

(** The headers of a request made with the stored headers [h]. *)
Definition sent_headers {NetState : Type} (rt : Runtime NetState)
           (h : option (dict str)) : dict str :=
  fold_left (fun hs kv => setitem hs (capitalize rt (fst kv)) (snd kv))
            (match h with Some d => d | None => [] end) [].

(** The request for a URL that has no fragment, without a header. *)
Definition bare_request (url : str) : Request :=
  {| _full_url := url; fragment := None; request_headers := [] |}.

(** A server that answers every request with the same response. *)
Definition served (resp : Response) (req : Request) (n : unit)
  : outcome Response * unit := (Done resp, n).

(** A runtime with a thousand levels of recursion, the default limit, over
    an opener that raises on every request; its [unicode_capitalize] and
    [urlparse_accepts] are only used on ASCII text and on URLs that
    [urlparse] accepts. *)
Definition python : Runtime unit :=
  {| urlopen := fun _ n => (Raise (TransportError 0), n);
     unicode_capitalize := fun key => key;
     urlparse_accepts := fun _ => true;
     recursion_left := 1000 |}.

(** The stock opener over a server that answers every request with the same
    response. *)
Definition canned (resp : Response) : Runtime unit := stock python (served resp).

Definition localhost : RepoTokenizerClient :=
  {| base_url := lit "http://localhost:8080"; headers := None |}.

Definition start : World unit :=
  {| self := localhost; net := tt; trace := [] |}.

(** The body [{"ok":true}]. *)
Definition ok_body : str := lit "{" ++ [34] ++ lit "ok" ++ [34] ++ lit ":true}".

Definition not_found : Response :=
  {| status := Some 404%Z; content := Done (lit "no such file") |}.


Definition ok_response : Response := {| status := Some 200%Z; content := Done ok_body |}.


(** A body of two nested arrays, [[[]]]. *)
Definition nested_response : Response :=
  {| status := Some 200%Z; content := Done (lit "[[]]") |}.

(** A runtime with one level of recursion left. *)
Definition shallow (rt : Runtime unit) : Runtime unit :=
  {| urlopen := urlopen rt;
     unicode_capitalize := unicode_capitalize rt;
     urlparse_accepts := urlparse_accepts rt;
     recursion_left := 1 |}.

(** A client without a base URL, and one whose base URL starts with a
    space. *)
Definition rootless : World unit :=
  {| self := {| base_url := []; headers := None |}; net := tt; trace := [] |}.

Definition spaced : World unit :=
  {| self := {| base_url := lit " http://localhost:8080"; headers := None |};
     net := tt;
     trace := [] |}.

(** A client whose base URL ends with a slash. *)
Definition slashed : World unit :=
  {| self := {| base_url := lit "http://localhost:8080/"; headers := None |};
     net := tt;
     trace := [] |}.

(** The stock opener over a server that cannot be reached. *)
Definition unreachable (tag : N) : Runtime unit :=
  stock python (fun _ n => (Fault tag, n)).

Definition is_ws_text (s : str) : Prop := Forall (fun c => is_ws c = true) s.

(** The texts a call has to encode: the chunk id of [get_chunk], and the
    values of the parameters sent. *)
Definition texts (c : call) : list str :=
  match c with
  | GetChunk chunk_id _ => [chunk_id]
  | _ => []
  end ++ map (fun kv => to_str (snd kv)) (sent c).

Definition encodable (s : str) : Prop := Codec.utf8_encode s <> None.

(** A value that [str] prints. *)
Definition prints (kv : str * value) : Prop := str_ (snd kv) = Ok (to_str (snd kv)).

(** A call whose integer argument, if it sends one, has no more digits than
    [str] prints. *)
Definition printable (c : call) : Prop := Forall prints (sent c).

Definition is_hex_upper (c : N) : bool := mem c (lit "0123456789ABCDEF").

(** The characters a path is written with, the percent sign apart. *)
Definition url_char (c : N) : bool := mem c (ALWAYS_SAFE ++ lit "/?=&+").

(** Text made of those characters and of escapes: a percent sign followed by
    two upper-case hexadecimal digits. *)
Inductive url_text : str -> Prop :=
| url_nil : url_text []
| url_plain (c : N) (s : str) : url_char c = true -> url_text s -> url_text (c :: s)
| url_escape (h1 h2 : N) (s : str) :
    is_hex_upper h1 = true -> is_hex_upper h2 = true -> url_text s ->
    url_text (37 :: h1 :: h2 :: s).

(** [replace(' ', '+')], character by character. *)
Definition space_to_plus (c : N) : N := if c =? 32 then 43 else c.

Definition hex_value (h : N) : N :=
  match Json.hexval h with Some x => x | None => 0 end.

(** What the quoted text stands for: every escape gives back its byte. *)
Fixpoint unquote_to_bytes (s : str) : bytes :=
  match s with
  | [] => []
  | c :: r =>
      match r with
      | h1 :: h2 :: r' =>
          if c =? 37 then (16 * hex_value h1 + hex_value h2) :: unquote_to_bytes r'
          else c :: unquote_to_bytes r
      | _ => c :: unquote_to_bytes r
      end
  end.

(** A parameter as the query carries it: its name and the text of its
    value. *)
Definition key_text (kv : str * value) : str * str := (fst kv, to_str (snd kv)).

(** The UTF-8 byte-order mark. *)
Definition BOM : bytes := [0xEF; 0xBB; 0xBF].

Definition broken_read : Response := {| status := Some 200%Z; content := Fault 104 |}.

Definition latin1_response : Response :=
  {| status := Some 200%Z; content := Done [0xE9] |}.

Definition newline_response : Response :=
  {| status := Some 200%Z; content := Done [10] |}.

Definition bom_response : Response :=
  {| status := Some 200%Z; content := Done (BOM ++ ok_body) |}.

(** A client with two spellings of one header name in its stored headers. *)
Definition with_token : World unit :=
  {| self := {| base_url := lit "http://localhost:8080";
                headers := Some [(lit "x-api-key", lit "k1");
                                 (lit "Authorization", lit "Bearer t0k3n");
                                 (lit "X-API-KEY", lit "k2")] |};
     net := tt;
     trace := [] |}.

(* ===================================================================== *)
(** ** Quoting: which characters can come out *)
(* ===================================================================== *)

Lemma mem_In (c : N) (l : list N) : mem c l = true <-> In c l.
Proof.
  unfold mem. rewrite existsb_exists. split.
  - intros [x [Hin Heq]]. apply N.eqb_eq in Heq. now subst.
  - intros Hin. exists c. split; [assumption | apply N.eqb_refl].
Qed.

Lemma mem_false_not_In (c : N) (l : list N) : mem c l = false <-> ~ In c l.
Proof.
  rewrite <- mem_In. destruct (mem c l); split; congruence.
Qed.

Lemma mem_app (c : N) (l1 l2 : list N) : mem c (l1 ++ l2) = mem c l1 || mem c l2.
Proof. unfold mem. apply existsb_app. Qed.

Lemma hexdigit_safe (n : N) : mem (hexdigit n) ALWAYS_SAFE = true.
Proof.
  unfold hexdigit.
  destruct (nth_in_or_default (N.to_nat n) (lit "0123456789ABCDEF") 48) as [Hin | Hd].
  - revert Hin. generalize (nth (N.to_nat n) (lit "0123456789ABCDEF") 48).
    intros c Hin. cbv in Hin.
    repeat (destruct Hin as [<- | Hin]; [reflexivity | ]). contradiction.
  - rewrite Hd. reflexivity.
Qed.

(** A character that is neither unreserved, nor in [safe], nor the percent
    sign cannot appear in quoted text. *)
Lemma quoter_avoids (sep : N) (safe : bytes) (b : N) :
  mem sep (37 :: ALWAYS_SAFE ++ safe) = false -> ~ In sep (quoter safe b).
Proof.
  intros Hsep Hin. unfold quoter in Hin.
  change (37 :: ALWAYS_SAFE ++ safe) with ([37] ++ (ALWAYS_SAFE ++ safe)) in Hsep.
  rewrite mem_app in Hsep. apply orb_false_iff in Hsep. destruct Hsep as [H37 Hs].
  destruct (mem b (ALWAYS_SAFE ++ safe)) eqn:Hb.
  - destruct Hin as [<- | []]. congruence.
  - rewrite mem_app in Hs. apply orb_false_iff in Hs. destruct Hs as [Hs _].
    destruct Hin as [<- | [<- | [<- | []]]].
    + discriminate H37.
    + rewrite hexdigit_safe in Hs. discriminate.
    + rewrite hexdigit_safe in Hs. discriminate.
Qed.

Lemma quote_from_bytes_avoids (sep : N) (bs : bytes) (safe : str) :
  mem sep (37 :: ALWAYS_SAFE ++ safe) = false -> ~ In sep (quote_from_bytes bs safe).
Proof.
  intros Hsep. unfold quote_from_bytes. rewrite in_flat_map.
  intros [b [_ Hin]]. revert Hin. apply quoter_avoids.
  change (37 :: ALWAYS_SAFE ++ safe) with ([37] ++ ALWAYS_SAFE ++ safe) in Hsep.
  change (mem sep ([37] ++ ALWAYS_SAFE ++ filter (fun c => c <? 128) safe) = false).
  rewrite !mem_app in *. apply orb_false_iff in Hsep. destruct Hsep as [H1 Hsep].
  apply orb_false_iff in Hsep. destruct Hsep as [H2 H3].
  rewrite H1, H2. simpl. apply mem_false_not_In. intros Hin.
  apply filter_In in Hin. destruct Hin as [Hin _].
  apply mem_false_not_In in H3. contradiction.
Qed.

Lemma quote_avoids (sep : N) (s safe q : str) :
  quote s safe = Ok q -> mem sep (37 :: ALWAYS_SAFE ++ safe) = false -> ~ In sep q.
Proof.
  unfold quote. destruct s as [| c s'].
  - intros [= <-] _ [].
  - destruct (Codec.encode (c :: s')) as [bs | e]; simpl; [| discriminate].
    intros [= <-]. apply quote_from_bytes_avoids.
Qed.

Lemma replace_char_In (old new sep : N) (s : str) :
  In sep (replace_char old new s) -> sep = new \/ In sep s.
Proof.
  unfold replace_char. rewrite in_map_iff. intros [c [Hc Hin]].
  destruct (c =? old); [left | right]; congruence.
Qed.

Lemma quote_plus_avoids (sep : N) (s q : str) :
  quote_plus s [] = Ok q -> mem sep (32 :: 43 :: 37 :: ALWAYS_SAFE) = false -> ~ In sep q.
Proof.
  intros Hq Hsep.
  change (32 :: 43 :: 37 :: ALWAYS_SAFE) with ([32; 43] ++ 37 :: ALWAYS_SAFE) in Hsep.
  rewrite mem_app in Hsep. apply orb_false_iff in Hsep. destruct Hsep as [H1 H2].
  unfold quote_plus in Hq. destruct (mem 32 s).
  - destruct (quote s ([] ++ [32])) as [q0 | e] eqn:Hq0; simpl in Hq; [| discriminate].
    injection Hq as <-. intros Hin. apply replace_char_In in Hin.
    destruct Hin as [-> | Hin]; [discriminate H1 |].
    revert Hin. apply (quote_avoids _ _ _ _ Hq0).
    change (37 :: ALWAYS_SAFE ++ [] ++ [32]) with ((37 :: ALWAYS_SAFE) ++ [32]).
    rewrite mem_app, H2. simpl. unfold mem. simpl.
    destruct (sep =? 32) eqn:E; [| reflexivity].
    apply N.eqb_eq in E. subst. discriminate H1.
  - apply (quote_avoids _ _ _ _ Hq). rewrite app_nil_r. exact H2.
Qed.

(* ===================================================================== *)
(** ** Quoting: plain text is left alone *)
(* ===================================================================== *)

Lemma plain_ascii (c : N) : mem c ALWAYS_SAFE = true -> (c <? 0x80) = true.
Proof.
  intros H. apply mem_In in H. cbv in H.
  repeat (destruct H as [<- | H]; [reflexivity | ]). contradiction.
Qed.

Lemma plain_utf8_encode (s : str) : plain s -> Codec.utf8_encode s = Some s.
Proof.
  induction 1 as [| c s Hc Hs IH]; simpl; [reflexivity |].
  unfold Codec.utf8_encode_char. rewrite (plain_ascii _ Hc), IH. reflexivity.
Qed.

Lemma plain_quote_from_bytes (s safe : str) : plain s -> quote_from_bytes s safe = s.
Proof.
  unfold quote_from_bytes.
  induction 1 as [| c s Hc Hs IH]; simpl; [reflexivity |].
  unfold quoter at 1. rewrite mem_app, Hc. simpl. now rewrite IH.
Qed.

Lemma plain_quote (s safe : str) : plain s -> quote s safe = Ok s.
Proof.
  intros H. unfold quote, Codec.encode. destruct s as [| c s']; [reflexivity |].
  rewrite (plain_utf8_encode _ H). cbn [rbind].
  now rewrite plain_quote_from_bytes.
Qed.

Lemma plain_no_space (s : str) : plain s -> mem 32 s = false.
Proof.
  intros H. apply mem_false_not_In. intros Hin.
  unfold plain in H. rewrite Forall_forall in H. specialize (H _ Hin). discriminate H.
Qed.

Lemma plain_quote_plus (s : str) : plain s -> quote_plus s [] = Ok s.
Proof.
  intros H. unfold quote_plus. rewrite (plain_no_space _ H). now apply plain_quote.
Qed.

Lemma uint_chars_plain (u : Decimal.uint) : plain (uint_chars u).
Proof.
  induction u; simpl; constructor; trivial.
Qed.

(** The decimal text of an integer goes through the quoting unchanged. *)
Lemma str_of_int_plain (n : Z) : plain (str_of_int n).
Proof.
  unfold str_of_int. destruct (Z.to_int n).
  - apply uint_chars_plain.
  - constructor; [reflexivity | apply uint_chars_plain].
Qed.

(* ===================================================================== *)
(** ** Splitting a rendered query *)
(* ===================================================================== *)

Lemma partition_app (sep : N) (a b : str) :
  ~ In sep a -> Wire.partition sep (a ++ sep :: b) = (a, Some b).
Proof.
  induction a as [| c a IH]; simpl; intros Hn.
  - now rewrite N.eqb_refl.
  - destruct (c =? sep) eqn:E.
    + apply N.eqb_eq in E. exfalso. apply Hn. now left.
    + rewrite IH; [reflexivity | intros Hin; apply Hn; now right].
Qed.

Lemma partition_none (sep : N) (a : str) :
  ~ In sep a -> Wire.partition sep a = (a, None).
Proof.
  induction a as [| c a IH]; simpl; intros Hn; [reflexivity |].
  destruct (c =? sep) eqn:E.
  - apply N.eqb_eq in E. exfalso. apply Hn. now left.
  - rewrite IH; [reflexivity | intros Hin; apply Hn; now right].
Qed.

Lemma split_none (sep : N) (a : str) : ~ In sep a -> Wire.split sep a = [a].
Proof.
  induction a as [| c a IH]; simpl; intros Hn; [reflexivity |].
  destruct (c =? sep) eqn:E.
  - apply N.eqb_eq in E. exfalso. apply Hn. now left.
  - rewrite IH; [reflexivity | intros Hin; apply Hn; now right].
Qed.

Lemma split_app (sep : N) (a b : str) :
  ~ In sep a -> Wire.split sep (a ++ sep :: b) = a :: Wire.split sep b.
Proof.
  induction a as [| c a IH]; simpl; intros Hn.
  - now rewrite N.eqb_refl.
  - destruct (c =? sep) eqn:E.
    + apply N.eqb_eq in E. exfalso. apply Hn. now left.
    + rewrite IH; [reflexivity | intros Hin; apply Hn; now right].
Qed.

Lemma split_join (sep : N) (l : list str) :
  l <> [] -> Forall (fun x => ~ In sep x) l -> Wire.split sep (join [sep] l) = l.
Proof.
  induction l as [| x l IH]; intros Hne Hall; [congruence |].
  inversion Hall as [| ? ? Hx Hl]; subst.
  destruct l as [| y l'].
  - simpl. now apply split_none.
  - change (join [sep] (x :: y :: l')) with (x ++ sep :: join [sep] (y :: l')).
    rewrite split_app by assumption. rewrite IH; [reflexivity | discriminate | assumption].
Qed.

Lemma key_value_item (it : str * str) :
  ~ In 61 (fst it) -> Wire.key_value (item_string it) = it.
Proof.
  intros Hk. destruct it as [k v]. unfold Wire.key_value, item_string. simpl in *.
  rewrite partition_app by assumption. reflexivity.
Qed.

Lemma item_string_no_amp (it : str * str) : clean_item it -> ~ In 38 (item_string it).
Proof.
  intros [_ [Hk Hv]]. unfold item_string. rewrite !in_app_iff.
  intros [H | [H | H]]; [contradiction | | contradiction].
  destruct H as [H | []]. discriminate H.
Qed.

Lemma partition_render (ep : str) (it : str * str) (items : list (str * str)) :
  ~ In 63 ep ->
  Wire.partition 63 (ep ++ render (it :: items))
  = (ep, Some (join [38] (map item_string (it :: items)))).
Proof.
  intros Hep.
  change (ep ++ render (it :: items))
    with (ep ++ 63 :: join [38] (map item_string (it :: items))).
  now apply partition_app.
Qed.

(** The receiving side reads back exactly the entries that were rendered. *)
Lemma query_items_render (ep : str) (items : list (str * str)) :
  ~ In 63 ep -> Forall clean_item items ->
  Wire.query_items (ep ++ render items) = items.
Proof.
  intros Hep Hall. unfold Wire.query_items, Wire.query_string.
  destruct items as [| it items'].
  - simpl. rewrite app_nil_r, partition_none by assumption. reflexivity.
  - rewrite partition_render by assumption. cbn [snd].
    rewrite split_join.
    + rewrite map_map. rewrite <- (map_id (it :: items')) at 2.
      apply map_ext_in. intros a Ha. apply key_value_item.
      rewrite Forall_forall in Hall. apply (Hall a Ha).
    + discriminate.
    + apply Forall_map. revert Hall. apply Forall_impl.
      intros a. apply item_string_no_amp.
Qed.

Lemma path_component_render (ep : str) (items : list (str * str)) :
  ~ In 63 ep -> Wire.path_component (ep ++ render items) = ep.
Proof.
  intros Hep. unfold Wire.path_component. destruct items as [| it items'].
  - simpl. rewrite app_nil_r, partition_none by assumption. reflexivity.
  - now rewrite partition_render.
Qed.

(* ===================================================================== *)
(** ** The shape of the path a call builds *)
(* ===================================================================== *)

Lemma rmap_list_Forall2 {A B : Type} (f : A -> result B) (l : list A) (l' : list B) :
  rmap_list f l = Ok l' -> Forall2 (fun x y => f x = Ok y) l l'.
Proof.
  revert l'. induction l as [| x l IH]; simpl; intros l' H.
  - injection H as <-. constructor.
  - destruct (f x) as [y | e] eqn:Hx; simpl in H; [| discriminate].
    destruct (rmap_list f l) as [ys | e]; simpl in H; [| discriminate].
    injection H as <-. constructor; [assumption | now apply IH].
Qed.

(** When [str] gives a text, it is the text of the value. *)
Lemma str_Ok (v : value) (text : str) : str_ v = Ok text -> text = to_str v.
Proof.
  destruct v as [| s | n]; simpl; [congruence | congruence |].
  unfold str_int. destruct (int_max_str_digits <? digit_count n); [discriminate |].
  congruence.
Qed.

Lemma str_Raise (v : value) (e : exc) :
  str_ v = Raise e ->
  e = ValueError /\ exists n, v = PyInt n /\ int_max_str_digits < digit_count n.
Proof.
  destruct v as [| s | n]; simpl; [discriminate | discriminate |].
  unfold str_int. destruct (int_max_str_digits <? digit_count n) eqn:Hd; [| discriminate].
  intros [= <-]. split; [reflexivity |]. exists n. split; [reflexivity |].
  now apply N.ltb_lt.
Qed.

Lemma urlencode_item_plain (kv : str * value) (s : str) :
  plain (fst kv) -> urlencode_item kv = Ok s ->
  exists it, urlencoded kv it /\ s = item_string it.
Proof.
  intros Hk. unfold urlencode_item. rewrite (plain_quote_plus _ Hk). cbn [rbind].
  destruct (str_ (snd kv)) as [text | x] eqn:Ht; cbn [rbind]; [| discriminate].
  apply str_Ok in Ht. subst text.
  destruct (quote_plus (to_str (snd kv)) []) as [e | x] eqn:He; cbn [rbind]; [| discriminate].
  intros [= <-]. exists (fst kv, e). repeat split. exact He.
Qed.

Lemma urlencode_items (params : dict value) (q : str) :
  Forall (fun kv => plain (fst kv)) params -> urlencode params = Ok q ->
  exists items, Forall2 urlencoded params items
                /\ q = join (lit "&") (map item_string items).
Proof.
  intros Hk. unfold urlencode.
  destruct (rmap_list urlencode_item params) as [l | e] eqn:Hl; cbn [rbind]; [| discriminate].
  intros [= <-]. apply rmap_list_Forall2 in Hl.
  induction Hl as [| kv s params l Hs Hl IH].
  - exists []. split; constructor.
  - inversion Hk as [| ? ? Hk1 Hk2]; subst.
    destruct (urlencode_item_plain _ _ Hk1 Hs) as [it [Hit ->]].
    destruct (IH Hk2) as [items [Hitems Hj]].
    exists (it :: items). split; [now constructor |].
    apply Forall2_length in Hl.
    destruct l as [| s' l']; destruct items as [| it' items'];
      try reflexivity; simpl in *.
    + inversion Hitems; subst; discriminate.
    + inversion Hitems; subst; discriminate.
    + simpl in Hj. now rewrite Hj.
Qed.

Lemma query_if_params_shape (params : dict value) (qs : str) :
  Forall (fun kv => plain (fst kv)) params -> query_if_params params = Ok qs ->
  exists items, Forall2 urlencoded params items /\ qs = render items.
Proof.
  intros Hk. unfold query_if_params. destruct params as [| kv params']; simpl nonempty; cbv iota.
  - intros [= <-]. exists []. split; constructor.
  - destruct (urlencode (kv :: params')) as [q | e] eqn:Hq; cbn [rbind]; [| discriminate].
    intros [= <-]. destruct (urlencode_items _ _ Hk Hq) as [items [Hitems ->]].
    exists items. split; [assumption |].
    inversion Hitems; subst. reflexivity.
Qed.

Lemma query_always_if_params (params : dict value) :
  params <> [] -> query_always params = query_if_params params.
Proof.
  destruct params; [congruence | reflexivity].
Qed.

Lemma params_of_sent (c : call) (d : dict value) : params_of c = Some d -> d = sent c.
Proof.
  destruct c as [i e r | p l r m | p r | ch r | q g r | q r]; simpl; intros [= <-];
    try reflexivity.
  - destruct r as [[| ? ?] |]; reflexivity.
  - destruct g as [[| ? ?] |], r as [[| ? ?] |]; reflexivity.
  - destruct q as [[| ? ?] |], r as [[| ? ?] |]; reflexivity.
Qed.

Lemma all_keys_plain (c : call) :
  Forall (fun kv => plain (fst kv)) (required c ++ optional c).
Proof.
  destruct c; cbn [required optional app];
    repeat (constructor; [cbn [fst]; repeat constructor |]); constructor.
Qed.

Lemma sent_keys_plain (c : call) : Forall (fun kv => plain (fst kv)) (sent c).
Proof.
  pose proof (all_keys_plain c) as H. unfold sent, comprehension.
  apply Forall_app in H. destruct H as [Hr Ho].
  apply Forall_app. split; [assumption |].
  rewrite Forall_forall in *. intros kv Hin. apply filter_In in Hin. now apply Ho.
Qed.

Lemma all_keys_NoDup (c : call) : NoDup (map fst (required c ++ optional c)).
Proof.
  destruct c; cbn;
    repeat (constructor; [cbn; intuition discriminate |]); constructor.
Qed.

Lemma plain_avoids (sep : N) (s : str) :
  mem sep ALWAYS_SAFE = false -> plain s -> ~ In sep s.
Proof.
  intros Hsep Hs Hin. unfold plain in Hs. rewrite Forall_forall in Hs.
  specialize (Hs _ Hin). congruence.
Qed.

Lemma mem_cons (c x : N) (l : list N) : mem c (x :: l) = (c =? x) || mem c l.
Proof. reflexivity. Qed.

Lemma encoded_avoids (sep : N) (c : call) (v : value) (e : str) :
  encoded c v = Ok e -> mem sep (32 :: 43 :: 37 :: 47 :: ALWAYS_SAFE) = false ->
  ~ In sep e.
Proof.
  intros He Hsep.
  rewrite !mem_cons in Hsep.
  apply orb_false_iff in Hsep. destruct Hsep as [E32 Hsep].
  apply orb_false_iff in Hsep. destruct Hsep as [E43 Hsep].
  apply orb_false_iff in Hsep. destruct Hsep as [E37 Hsep].
  apply orb_false_iff in Hsep. destruct Hsep as [E47 Hsafe].
  assert (H1 : mem sep (32 :: 43 :: 37 :: ALWAYS_SAFE) = false).
  { rewrite !mem_cons, E32, E43, E37, Hsafe. reflexivity. }
  assert (H2 : mem sep (37 :: ALWAYS_SAFE ++ lit "/") = false).
  { rewrite mem_cons, mem_app, E37, Hsafe. change (lit "/") with [47].
    rewrite mem_cons, E47. reflexivity. }
  destruct c; simpl in He;
    first [ now apply (quote_plus_avoids sep _ _ He)
          | now apply (quote_avoids sep _ _ _ He) ].
Qed.

Lemma stands_for_clean (c : call) (kv : str * value) (it : str * str) :
  plain (fst kv) -> stands_for c kv it -> clean_item it.
Proof.
  intros Hk [Hf He]. unfold clean_item. rewrite Hf. repeat split.
  - now apply plain_avoids.
  - now apply plain_avoids.
  - now apply (encoded_avoids 38 c _ _ He).
Qed.

Lemma sent_nonempty_required (c : call) : required c <> [] -> sent c <> [].
Proof.
  unfold sent. destruct (required c); [congruence | discriminate].
Qed.

Lemma mapping_path_shape (c : call) (d : dict value) (ep p : str) :
  params_of c = Some d ->
  rbind (query_if_params d) (fun q => Ok (ep ++ q)) = Ok p ->
  exists items, p = ep ++ render items /\ Forall2 (stands_for c) (sent c) items.
Proof.
  intros Hd Hp. pose proof (params_of_sent _ _ Hd) as ->.
  destruct (query_if_params (sent c)) as [qs | e] eqn:Hq; cbn [rbind] in Hp; [| discriminate].
  injection Hp as <-.
  destruct (query_if_params_shape _ _ (sent_keys_plain c) Hq) as [items [Hitems ->]].
  exists items. split; [reflexivity |].
  destruct c; try discriminate Hd; exact Hitems.
Qed.

Lemma no_question_mark (s : string) :
  mem 63 (lit s) = false -> ~ In 63 (lit s).
Proof. apply mem_false_not_In. Qed.

(** Every path is an endpoint followed by the rendered entries of the
    parameters that passed the gate, each encoded, in order. *)
Lemma path_of_shape (c : call) (p : str) :
  path_of c = Ok p ->
  exists ep items,
    endpoint c = Ok ep /\ ~ In 63 ep /\ p = ep ++ render items
    /\ Forall2 (stands_for c) (sent c) items.
Proof.
  intros Hp.
  destruct c as [i e r | pa l r m | pa r | ch r | q g r | q r].
  - destruct (mapping_path_shape (ListFiles i e r) _ (lit "/files") p eq_refl Hp)
      as [items [-> H]].
    exists (lit "/files"), items. split; [reflexivity | split; [now apply no_question_mark | now split]].
  - destruct (mapping_path_shape (ListChunks pa l r m) _ (lit "/chunks") p eq_refl Hp)
      as [items [-> H]].
    exists (lit "/chunks"), items. split; [reflexivity | split; [now apply no_question_mark | now split]].
  - simpl in Hp. unfold get_file_path in Hp. rewrite query_always_if_params in Hp.
    + destruct (mapping_path_shape (GetFile pa r) _ (lit "/file") p eq_refl Hp)
        as [items [-> H]].
      exists (lit "/file"), items. split; [reflexivity | split; [now apply no_question_mark | now split]].
    + rewrite (params_of_sent (GetFile pa r) _ eq_refl).
      apply sent_nonempty_required. discriminate.
  - simpl in Hp. unfold get_chunk_path in Hp. simpl endpoint.
    assert (Hshape : forall e, quote ch (lit "/") = Ok e -> ~ In 63 (lit "/chunks/" ++ e)).
    { intros e He Hin. apply in_app_iff in Hin. destruct Hin as [Hin | Hin].
      - revert Hin. now apply no_question_mark.
      - revert Hin. now apply (quote_avoids 63 _ _ _ He). }
    destruct r as [[| a r'] |].
    + cbn [rbind] in Hp. destruct (quote ch (lit "/")) as [e |] eqn:He;
        cbn [rbind] in *; [| discriminate].
      injection Hp as <-. exists (lit "/chunks/" ++ e), [].
      split; [reflexivity | split; [now apply Hshape | split]].
      * now rewrite <- app_assoc.
      * constructor.
    + destruct (quote (a :: r') (lit "/")) as [er |] eqn:Her; cbn [rbind] in Hp; [| discriminate].
      destruct (quote ch (lit "/")) as [e |] eqn:He; cbn [rbind] in *; [| discriminate].
      injection Hp as <-. exists (lit "/chunks/" ++ e), [(lit "ref", er)].
      split; [reflexivity | split; [now apply Hshape | split]].
      * now rewrite <- app_assoc.
      * repeat constructor. exact Her.
    + cbn [rbind] in Hp. destruct (quote ch (lit "/")) as [e |] eqn:He;
        cbn [rbind] in *; [| discriminate].
      injection Hp as <-. exists (lit "/chunks/" ++ e), [].
      split; [reflexivity | split; [now apply Hshape | split]].
      * now rewrite <- app_assoc.
      * constructor.
  - simpl in Hp. unfold search_path in Hp. rewrite query_always_if_params in Hp.
    + destruct (mapping_path_shape (Search q g r) _ (lit "/search") p eq_refl Hp)
        as [items [-> H]].
      exists (lit "/search"), items. split; [reflexivity | split; [now apply no_question_mark | now split]].
    + rewrite (params_of_sent (Search q g r) _ eq_refl).
      apply sent_nonempty_required. discriminate.
  - destruct (mapping_path_shape (SearchSymbols q r) _ (lit "/search/symbols") p eq_refl Hp)
      as [items [-> H]].
    exists (lit "/search/symbols"), items. split; [reflexivity | split; [now apply no_question_mark | now split]].
Qed.

Lemma Forall2_stands_for_clean (c : call) (d : dict value) (items : list (str * str)) :
  Forall (fun kv => plain (fst kv)) d -> Forall2 (stands_for c) d items ->
  Forall clean_item items.
Proof.
  intros Hk H. induction H as [| kv it d items Hs H IH]; [constructor |].
  inversion Hk; subst. constructor; [now apply (stands_for_clean c kv) | now apply IH].
Qed.

Lemma Forall2_stands_for_keys (c : call) (d : dict value) (items : list (str * str)) :
  Forall2 (stands_for c) d items -> map fst items = map fst d.
Proof.
  induction 1 as [| kv it d items [Hf _] H IH]; simpl; congruence.
Qed.

Lemma Forall2_stands_for_In (c : call) (d : dict value) (items : list (str * str))
      (k : str) (v : value) :
  Forall2 (stands_for c) d items -> In (k, v) d ->
  exists e, encoded c v = Ok e /\ In (k, e) items.
Proof.
  induction 1 as [| kv it d items [Hf He] H IH]; simpl; [contradiction |].
  intros [-> | Hin].
  - exists (snd it). split; [exact He | left]. destruct it; simpl in *; congruence.
  - destruct (IH Hin) as [e [He' Hin']]. exists e. split; [assumption | now right].
Qed.

(** What the receiving side reads back from the path of a call. *)
Lemma query_items_path_of (c : call) (p : str) :
  path_of c = Ok p ->
  Forall2 (stands_for c) (sent c) (Wire.query_items p).
Proof.
  intros Hp. destruct (path_of_shape c p Hp) as [ep [items [_ [Hep [-> H]]]]].
  rewrite query_items_render; trivial.
  apply (Forall2_stands_for_clean c (sent c)); [apply sent_keys_plain | assumption].
Qed.

Lemma str_eqb_eq (a b : str) : str_eqb a b = true <-> a = b.
Proof.
  unfold str_eqb. destruct (list_eq_dec N.eq_dec a b); split; congruence.
Qed.

Lemma filter_key_absent (k : str) (l : list str) : ~ In k l -> filter (str_eqb k) l = [].
Proof.
  induction l as [| x l IH]; simpl; intros Hn; [reflexivity |].
  destruct (str_eqb k x) eqn:E.
  - apply str_eqb_eq in E. exfalso. apply Hn. now left.
  - apply IH. intros Hin. apply Hn. now right.
Qed.

Lemma count_key_gated (g : value -> bool) (opt : dict value) (k : str) (v : value) :
  NoDup (map fst opt) -> In (k, v) opt ->
  List.length (filter (str_eqb k) (map fst (comprehension g opt)))
  = if g v then 1%nat else 0%nat.
Proof.
  unfold comprehension.
  induction opt as [| [k' v'] opt IH]; simpl; intros Hnd Hin; [contradiction |].
  inversion Hnd as [| ? ? Hk' Hnd']; subst.
  destruct Hin as [[= -> ->] | Hin].
  - assert (Hrest : filter (str_eqb k)
                      (map fst (filter (fun kv => g (snd kv)) opt)) = []).
    { apply filter_key_absent. intros Hin. apply Hk'.
      apply in_map_iff in Hin. destruct Hin as [kv [<- Hin]].
      apply filter_In in Hin. apply in_map. tauto. }
    destruct (g v); simpl.
    + destruct (str_eqb k k) eqn:E.
      * simpl. now rewrite Hrest.
      * assert (str_eqb k k = true) by now apply str_eqb_eq. congruence.
    + now rewrite Hrest.
  - assert (Hne : str_eqb k k' = false).
    { destruct (str_eqb k k') eqn:E; [| reflexivity].
      apply str_eqb_eq in E. subst. exfalso. apply Hk'.
      change k' with (fst (k', v)). now apply in_map. }
    destruct (g v'); simpl; [rewrite Hne |]; now apply IH.
Qed.

Lemma NoDup_app_disjoint {A : Type} (l1 l2 : list A) (a : A) :
  NoDup (l1 ++ l2) -> In a l1 -> ~ In a l2.
Proof.
  induction l1 as [| x l1 IH]; simpl; intros Hnd Hin; [contradiction |].
  inversion Hnd as [| ? ? Hx Hnd']; subst. destruct Hin as [-> | Hin].
  - intros H2. apply Hx. apply in_or_app. now right.
  - now apply IH.
Qed.

Lemma occurrences_path_of (c : call) (p k : str) (v : value) :
  path_of c = Ok p -> In (k, v) (optional c) ->
  Wire.occurrences k p = if gate c v then 1%nat else 0%nat.
Proof.
  intros Hp Hin. unfold Wire.occurrences, Wire.keys.
  rewrite (Forall2_stands_for_keys c _ _ (query_items_path_of c p Hp)).
  unfold sent. rewrite map_app, filter_app, length_app.
  pose proof (all_keys_NoDup c) as Hnd. rewrite map_app in Hnd.
  rewrite filter_key_absent.
  - simpl. apply count_key_gated; [| assumption].
    now apply NoDup_app_remove_l in Hnd.
  - intros Hreq. apply (NoDup_app_disjoint _ _ k Hnd Hreq).
    change k with (fst (k, v)). now apply in_map.
Qed.

(* ===================================================================== *)
(** ** json.loads does not raise the error of the client *)
(* ===================================================================== *)

Lemma benign_Ok {A : Type} (a : A) : benign (Ok a).
Proof. intros msg. discriminate. Qed.

Lemma benign_rbind {A B : Type} (r : result A) (k : A -> result B) :
  benign r -> (forall a, benign (k a)) -> benign (rbind r k).
Proof.
  intros Hr Hk msg. destruct r as [a | e]; simpl.
  - apply Hk.
  - intros [= ->]. now apply (Hr msg).
Qed.

Lemma quiet_and_then {A B : Type} (r : run A) (k : A -> run B) :
  quiet r -> (forall a, quiet (k a)) -> quiet (and_then r k).
Proof.
  intros Hr Hk msg. destruct r as [[a | e] |]; simpl.
  - apply Hk.
  - intros [= ->]. now apply (Hr msg).
  - discriminate.
Qed.

Ltac quiet_step :=
  match goal with
  | |- quiet None => intros ?; discriminate
  | |- quiet (Some _) => intros ?; discriminate
  | |- quiet (done _) => intros ?; discriminate
  | |- quiet (fail JSONDecodeError) => intros ?; discriminate
  | |- quiet (fail RecursionError) => intros ?; discriminate
  | |- quiet (push _ _) => apply quiet_and_then; [| intros ?]
  | |- quiet (and_then _ _) => apply quiet_and_then; [| intros ?]
  | |- quiet (if ?b then _ else _) => destruct b
  | |- quiet (match ?x with _ => _ end) => destruct x
  end.

Lemma scanstring_quiet (fuel : nat) (s : str) : quiet (scanstring fuel s).
Proof.
  revert s. induction fuel as [| fuel IH]; intros s; cbn [scanstring].
  - quiet_step.
  - repeat first [ apply IH | quiet_step ].
Qed.

Lemma match_number_quiet (s : str) (r : result (json * str)) :
  match_number s = Some r -> quiet (Some r).
Proof.
  unfold match_number. intros H msg [= ->]. revert H.
  repeat match goal with
         | |- context [match ?x with _ => _ end] => destruct x
         | |- context [if ?b then _ else _] => destruct b
         end; discriminate.
Qed.

Lemma orelse_Some {A : Type} (a b : option A) (p : A) :
  orelse a b = Some p -> a = Some p \/ b = Some p.
Proof. destruct a; simpl; auto. Qed.

Lemma literal_Ok (name : string) (v : json) (s : str) (r : result (json * str)) :
  literal name v s = Some r -> exists rest, r = Ok (v, rest) /\ strip_prefix (lit name) s = Some rest.
Proof.
  unfold literal. destruct (strip_prefix (lit name) s) as [rest |]; [| discriminate].
  intros [= <-]. now exists rest.
Qed.

Lemma atom_cases (s : str) (r : result (json * str)) :
  atom s = Some r ->
  match_number s = Some r
  \/ exists name v rest, r = Ok (v, rest) /\ strip_prefix (lit name) s = Some rest
                          /\ (0 < List.length (lit name))%nat.
Proof.
  unfold atom. intros H.
  repeat (apply orelse_Some in H; destruct H as [H | H]);
    first [ now left
          | right; apply literal_Ok in H; destruct H as [rest [-> H]];
            eexists _, _, rest; split; [reflexivity | split; [exact H | simpl; lia]] ].
Qed.

Lemma atom_quiet (s : str) (r : result (json * str)) : atom s = Some r -> quiet (Some r).
Proof.
  intros H. apply atom_cases in H. destruct H as [H | [name [v [rest [-> _]]]]].
  - now apply match_number_quiet in H.
  - intros msg. discriminate.
Qed.

Lemma scanner_quiet (fuel : nat) :
  (forall depth s, quiet (scan_once fuel depth s))
  /\ (forall depth s pairs, quiet (object_members fuel depth s pairs))
  /\ (forall depth s values, quiet (array_values fuel depth s values)).
Proof.
  induction fuel as [| fuel [IH1 [IH2 IH3]]].
  - repeat split; intros; cbn [scan_once object_members array_values]; quiet_step.
  - split; [| split]; intros; cbn [scan_once object_members array_values].
    + destruct s as [| c r]; [quiet_step |].
      destruct (c =? 34);
        [repeat first [apply scanstring_quiet | quiet_step] |].
      destruct (c =? 123);
        [repeat first [apply IH2 | quiet_step] |].
      destruct (c =? 91);
        [repeat first [apply IH3 | quiet_step] |].
      fold (atom (c :: r)).
      destruct (atom (c :: r)) as [p |] eqn:Hp; [| quiet_step].
      now apply atom_quiet in Hp.
    + repeat first [ apply IH1 | apply IH2 | apply scanstring_quiet | quiet_step ].
    + repeat first [ apply IH1 | apply IH3 | quiet_step ].
Qed.

Lemma loads_benign (depth : nat) (s : str) : benign (Json.loads depth s).
Proof.
  assert (H : forall t, benign
            match scan_once (2 * S (List.length s)) depth t with
            | Some r => rbind r (fun v => match skip_ws (snd v) with
                                          | [] => Ok (fst v)
                                          | _ :: _ => Raise JSONDecodeError
                                          end)
            | None => Raise RecursionError
            end).
  { intros t. pose proof (proj1 (scanner_quiet (2 * S (List.length s))) depth t) as Q.
    destruct (scan_once _ _ _) as [[v | e] |]; simpl.
    - destruct (skip_ws (snd v)); intros msg; discriminate.
    - intros msg [= ->]. now apply (Q msg).
    - intros msg. discriminate. }
  unfold Json.loads.
  repeat match goal with
         | |- benign (match ?x with _ => _ end) =>
             first [ apply H | destruct x ]
         | |- benign (Raise JSONDecodeError) => intros ?; discriminate
         end.
Qed.

(* ===================================================================== *)
(** ** json.loads has fuel enough, and needs a deep text to give up *)
(* ===================================================================== *)

Lemma good_and_then {A B : Type} (s1 : str) (d1 : nat) (s : str) (d : nat)
      (r : run (A * str))
      (k : A * str -> run (B * str)) :
  good s1 d1 r ->
  (List.length s1 + d <= List.length s + d1)%nat ->
  (forall a, (List.length (snd a) < List.length s1)%nat -> good s d (k a)) ->
  good s d (and_then r k).
Proof.
  intros Hr Hl Hk. destruct r as [[a | e] |]; simpl in *.
  - now apply Hk.
  - intros He. specialize (Hr He). lia.
  - assumption.
Qed.

Lemma good_shorter {A : Type} (s1 : str) (d1 : nat) (s : str) (d : nat)
      (r : run (A * str)) :
  good s1 d1 r ->
  (List.length s1 <= List.length s)%nat ->
  (List.length s1 + d <= List.length s + d1)%nat ->
  good s d r.
Proof.
  destruct r as [[p | e] |]; simpl; [lia | | trivial].
  intros Hr H1 H2 He. specialize (Hr He). lia.
Qed.

Lemma skip_ws_length (s : str) : (List.length (skip_ws s) <= List.length s)%nat.
Proof.
  induction s as [| c s IH]; simpl; [lia |].
  destruct (is_ws c); simpl; lia.
Qed.

Lemma strip_prefix_length (p s r : str) :
  strip_prefix p s = Some r -> List.length s = (List.length p + List.length r)%nat.
Proof.
  revert s. induction p as [| a p IH]; intros s; simpl.
  - intros [= ->]. reflexivity.
  - destruct s as [| b s]; [discriminate |].
    destruct (a =? b); [| discriminate]. intros H. apply IH in H. simpl. lia.
Qed.

Lemma span_digits_length (s : str) :
  (List.length (snd (span_digits s)) <= List.length s)%nat.
Proof.
  induction s as [| c s IH]; simpl; [lia |].
  destruct (is_digit c); simpl; [| lia].
  destruct (span_digits s); simpl in *. lia.
Qed.

Lemma match_integer_length (s i r : str) :
  match_integer s = Some (i, r) -> (List.length r < List.length s)%nat.
Proof.
  unfold match_integer.
  assert (H : forall sign s1, (List.length s1 <= List.length s)%nat ->
            match s1 with
            | [] => None
            | c :: r0 =>
                if c =? 48 then Some (sign ++ [48], r0)
                else if is_digit c
                     then let (d, r') := span_digits r0 in Some (sign ++ c :: d, r')
                     else None
            end = Some (i, r) -> (List.length r < List.length s)%nat).
  { intros sign [| c r0] Hl; [discriminate |]. simpl in Hl.
    destruct (c =? 48); [intros [= _ <-]; lia |].
    destruct (is_digit c); [| discriminate].
    pose proof (span_digits_length r0) as Hs. destruct (span_digits r0) as [d r'].
    intros [= _ <-]. simpl in Hs. lia. }
  destruct s as [| c r0]; [discriminate |].
  destruct (c =? 45).
  - apply (H [45] r0). simpl. lia.
  - apply (H [] (c :: r0)). lia.
Qed.

Lemma match_frac_length (s f r : str) :
  match_frac s = Some (f, r) -> (List.length r <= List.length s)%nat.
Proof.
  unfold match_frac. destruct s as [| c r0]; [discriminate |].
  destruct (c =? 46); [| discriminate].
  pose proof (span_digits_length r0) as Hs.
  destruct (span_digits r0) as [[| d ds] r']; [discriminate |].
  intros [= _ <-]. simpl in *. lia.
Qed.

Lemma match_exp_length (s e r : str) :
  match_exp s = Some (e, r) -> (List.length r <= List.length s)%nat.
Proof.
  unfold match_exp. destruct s as [| c r0]; [discriminate |].
  destruct ((c =? 101) || (c =? 69)); [| discriminate].
  assert (H : forall sign r1, (List.length r1 <= List.length r0)%nat ->
            match span_digits r1 with
            | ((_ :: _) as d, r2) => Some (c :: sign ++ d, r2)
            | _ => None
            end = Some (e, r) -> (List.length r <= List.length (c :: r0))%nat).
  { intros sign r1 Hl. pose proof (span_digits_length r1) as Hs.
    destruct (span_digits r1) as [[| d ds] r2]; [discriminate |].
    intros [= _ <-]. simpl in *. lia. }
  destruct r0 as [| c' r']; [apply (H [] []); simpl; lia |].
  destruct ((c' =? 45) || (c' =? 43)).
  - apply (H [c'] r'). simpl. lia.
  - apply (H [] (c' :: r')). lia.
Qed.

Lemma hex4_length (s r : str) (u : N) :
  hex4 s = Some (u, r) -> List.length s = (4 + List.length r)%nat.
Proof.
  unfold hex4. destruct s as [| a [| b [| c [| d r0]]]]; try discriminate.
  destruct (hexval a), (hexval b), (hexval c), (hexval d); try discriminate.
  intros [= _ <-]. reflexivity.
Qed.

Lemma low_surrogate_escape_length (s r : str) (u : N) :
  low_surrogate_escape s = Some (u, r) -> List.length s = (6 + List.length r)%nat.
Proof.
  unfold low_surrogate_escape.
  destruct (strip_prefix [92; 117] s) as [r0 |] eqn:Hp; [| discriminate].
  apply strip_prefix_length in Hp.
  destruct (hex4 r0) as [[c2 r'] |] eqn:Hh; [| discriminate].
  apply hex4_length in Hh. destruct (is_low_surrogate c2); [| discriminate].
  intros [= _ <-]. simpl in Hp. lia.
Qed.

Lemma match_number_good (s : str) (d : nat) (r : result (json * str)) :
  match_number s = Some r -> good s d (Some r).
Proof.
  unfold match_number.
  destruct (match_integer s) as [[i r0] |] eqn:Hi; [| discriminate].
  apply match_integer_length in Hi.
  assert (Hf : forall f r1, match match_frac r0 with
                            | Some (f, r) => (f, r)
                            | None => ([], r0)
                            end = (f, r1) -> (List.length r1 <= List.length r0)%nat).
  { intros f r1. destruct (match_frac r0) as [[f' r'] |] eqn:Hm.
    - apply match_frac_length in Hm. intros [= _ <-]. exact Hm.
    - intros [= _ <-]. lia. }
  destruct (match match_frac r0 with Some (f, r) => (f, r) | None => ([], r0) end)
    as [f r1] eqn:Ef.
  specialize (Hf f r1 eq_refl).
  assert (He : forall e r2, match match_exp r1 with
                            | Some (e, r) => (e, r)
                            | None => ([], r1)
                            end = (e, r2) -> (List.length r2 <= List.length r1)%nat).
  { intros e r2. destruct (match_exp r1) as [[e' r'] |] eqn:Hm.
    - apply match_exp_length in Hm. intros [= _ <-]. exact Hm.
    - intros [= _ <-]. lia. }
  destruct (match match_exp r1 with Some (e, r) => (e, r) | None => ([], r1) end)
    as [e r2] eqn:Ee.
  specialize (He e r2 eq_refl).
  destruct (f ++ e).
  - destruct (match i with
              | [] => (false, [])
              | c :: d' => if c =? 45 then (true, d') else (false, i)
              end) as [negative ds].
    destruct (int_max_str_digits <? N.of_nat (List.length ds)); intros [= <-]; simpl.
    + discriminate.
    + lia.
  - intros [= <-]. simpl. lia.
Qed.

Lemma atom_good (s : str) (d : nat) (r : result (json * str)) :
  atom s = Some r -> good s d (Some r).
Proof.
  intros H. apply atom_cases in H. destruct H as [H | [name [v [rest [-> [H Hn]]]]]].
  - now apply match_number_good.
  - apply strip_prefix_length in H. simpl. lia.
Qed.

Lemma good_push_shorter (s1 s : str) (d : nat) (c : N) (r : run (str * str)) :
  good s1 d r -> (forall e, r = Some (Raise e) -> e <> RecursionError) ->
  (List.length s1 <= List.length s)%nat -> good s d (push c r).
Proof.
  intros Hr Hn Hl. unfold push. destruct r as [[p | e] |]; simpl in *; [lia | | assumption].
  intros He. now destruct (Hn e eq_refl).
Qed.

(** [scanstring] raises nothing but [JSONDecodeError]. *)
Lemma scanstring_raises (fuel : nat) (s : str) (e : exc) :
  scanstring fuel s = Some (Raise e) -> e = JSONDecodeError.
Proof.
  revert s. induction fuel as [| fuel IH]; intros s; cbn [scanstring]; [discriminate |].
  assert (P : forall c r, push c (scanstring fuel r) = Some (Raise e) ->
                          e = JSONDecodeError).
  { intros c r. unfold push. destruct (scanstring fuel r) as [[p | x] |] eqn:Hs; simpl;
      [discriminate | | discriminate].
    intros [= ->]. now apply (IH r). }
  repeat match goal with
         | |- push _ _ = _ -> _ => apply P
         | |- fail _ = _ -> _ => intros [= <-]; reflexivity
         | |- done _ = _ -> _ => discriminate
         | |- context [match ?x with _ => _ end] => destruct x
         | |- context [if ?b then _ else _] => destruct b
         end.
Qed.

(** With more fuel than characters, [scanstring] does not run out. *)
Lemma scanstring_good (fuel : nat) (s : str) (d : nat) :
  (List.length s < fuel)%nat -> good s d (scanstring fuel s).
Proof.
  intros Hf.
  assert (G : forall fuel s, (List.length s < fuel)%nat ->
                match scanstring fuel s with
                | Some (Ok p) => (List.length (snd p) < List.length s)%nat
                | Some (Raise _) => True
                | None => False
                end).
  { clear. induction fuel as [| fuel IH]; intros s Hf; [lia |].
    assert (P : forall c r, (List.length r < List.length s)%nat ->
                  match push c (scanstring fuel r) with
                  | Some (Ok p) => (List.length (snd p) < List.length s)%nat
                  | Some (Raise _) => True
                  | None => False
                  end).
    { intros c r Hl. assert (Hr : (List.length r < fuel)%nat) by lia.
      specialize (IH r Hr). unfold push.
      destruct (scanstring fuel r) as [[p | x] |]; simpl in *; [lia | trivial | trivial]. }
    cbn [scanstring]. destruct s as [| c r]; [exact I |]. simpl in Hf.
    destruct (c =? 34); [simpl; lia |].
    destruct (c =? 92).
    - destruct r as [| e r1]; [exact I |].
      destruct (e =? 117).
      + destruct (hex4 r1) as [[u r2] |] eqn:Hh; [| exact I].
        apply hex4_length in Hh.
        destruct (if is_high_surrogate u then low_surrogate_escape r2 else None)
          as [[u2 r3] |] eqn:Hl.
        * destruct (is_high_surrogate u); [| discriminate].
          apply low_surrogate_escape_length in Hl. apply P. simpl. lia.
        * apply P. simpl. lia.
      + destruct (unescape e); [| exact I]. apply P. simpl. lia.
    - destruct (c <=? 31); [exact I |]. apply P. simpl. lia. }
  specialize (G fuel s Hf). pose proof (scanstring_raises fuel s) as R.
  destruct (scanstring fuel s) as [[p | e] |]; simpl in *; [assumption | | assumption].
  intros ->. specialize (R _ eq_refl). discriminate.
Qed.

Ltac good_raise := simpl; discriminate.

Ltac case_head c r H :=
  match goal with
  | |- good _ _ (match ?x with _ => _ end) => destruct x as [| c r] eqn:H
  end.

Ltac length_facts :=
  repeat match goal with
         | H : skip_ws ?s = _ |- _ =>
             let L := fresh "L" in
             pose proof (skip_ws_length s) as L; rewrite H in L; clear H
         end;
  simpl List.length in *; unfold str in *.

(** With twice as much fuel as characters, the scanner does not run out;
    and it raises [RecursionError] only on a text longer than the number of
    levels it was given. *)
Lemma scanner_good (fuel : nat) :
  (forall d s, (2 * List.length s + 1 <= fuel)%nat -> good s d (scan_once fuel d s))
  /\ (forall d s pairs, (2 * List.length s + 1 <= fuel)%nat ->
                        good s d (object_members fuel d s pairs))
  /\ (forall d s values, (2 * List.length s + 2 <= fuel)%nat ->
                         good s d (array_values fuel d s values)).
Proof.
  induction fuel as [| fuel [IH1 [IH2 IH3]]]; [repeat split; intros; lia |].
  split; [| split].
  - intros d s Hf. cbn [scan_once]. destruct s as [| c r]; [good_raise |].
    simpl List.length in Hf.
    destruct (c =? 34).
    { apply (good_and_then r d); [apply scanstring_good; lia | simpl; lia |].
      intros a Ha. simpl. unfold str in *. lia. }
    destruct (c =? 123).
    { destruct d as [| d']; [simpl; intros _; lia |].
      destruct (skip_ws r) as [| c1 r1] eqn:Hw; [good_raise |]. length_facts.
      destruct (c1 =? 125); [simpl; lia |].
      destruct (c1 =? 34); [| good_raise].
      apply (good_shorter r1 d'); [apply IH2 | |]; simpl; lia. }
    destruct (c =? 91).
    { destruct d as [| d']; [simpl; intros _; lia |].
      destruct (skip_ws r) as [| c1 r1] eqn:Hw; [good_raise |]. length_facts.
      destruct (c1 =? 93); [simpl; lia |].
      apply (good_shorter (c1 :: r1) d'); [apply IH3 | |]; simpl; lia. }
    fold (atom (c :: r)).
    destruct (atom (c :: r)) as [p |] eqn:Hp; [| good_raise].
    now apply atom_good.
  - intros d s pairs Hf. cbn [object_members].
    apply (good_and_then s d); [apply scanstring_good; lia | lia |].
    intros k Hk. cbv beta.
    case_head c r Hw; [good_raise |]. length_facts.
    destruct (c =? 58); [| good_raise].
    pose proof (skip_ws_length r) as Lr.
    apply (good_and_then (skip_ws r) d).
    { apply IH1. unfold str in *. lia. }
    { unfold str in *. lia. }
    intros v Hv. cbv beta.
    case_head c1 r1 Hw1; [good_raise |]. length_facts.
    destruct (c1 =? 125); [simpl; lia |].
    destruct (c1 =? 44); [| good_raise].
    destruct (skip_ws r1) as [| c2 r2] eqn:Hw2; [good_raise |]. length_facts.
    destruct (c2 =? 34); [| good_raise].
    apply (good_shorter r2 d); [apply IH2 | |]; lia.
  - intros d s values Hf. cbn [array_values].
    apply (good_and_then s d); [apply IH1; lia | lia |].
    intros v Hv. cbv beta.
    case_head c1 r1 Hw1; [good_raise |]. length_facts.
    destruct (c1 =? 93); [simpl; lia |].
    destruct (c1 =? 44); [| good_raise].
    pose proof (skip_ws_length r1) as Lr.
    apply (good_shorter (skip_ws r1) d); [apply IH3 | |]; lia.
Qed.

(** [loads] always supplies enough fuel: its last case is never taken. *)
Lemma loads_fuel (depth : nat) (s : str) :
  scan_once (2 * S (List.length s)) depth (skip_ws s) <> None.
Proof.
  pose proof (skip_ws_length s) as L.
  pose proof (proj1 (scanner_good (2 * S (List.length s))) depth (skip_ws s)) as G.
  intros H. rewrite H in G. apply G. lia.
Qed.


(* ===================================================================== *)
(** ** What Request makes of a URL *)
(* ===================================================================== *)

Lemma rpartition_none (sep : N) (s : str) : mem sep s = false -> rpartition sep s = None.
Proof.
  induction s as [| c s IH]; [reflexivity |].
  unfold mem in *. cbn [existsb rpartition]. intros H. apply orb_false_iff in H.
  destruct H as [Hc Hs]. rewrite (IH Hs). rewrite N.eqb_sym, Hc. reflexivity.
Qed.

Lemma splittag_none (url : str) : mem 35 url = false -> _splittag url = (url, None).
Proof. intros H. unfold _splittag. now rewrite rpartition_none. Qed.

(** The first character of what [rpartition] leaves before the separator is
    the first character of the text. *)
Lemma splittag_head (c : N) (r : str) :
  (c =? 35) = false -> exists r', fst (_splittag (c :: r)) = c :: r'.
Proof.
  intros Hc. unfold _splittag. cbn [rpartition].
  destruct (rpartition 35 r) as [[a b] |]; [now exists a |].
  rewrite Hc. now exists r.
Qed.

Lemma rstrip_head (c : N) (r : str) :
  isspace c = false -> exists r', rstrip (c :: r) = c :: r'.
Proof.
  intros Hc. cbn [rstrip]. destruct (rstrip r) as [| x r'].
  - rewrite Hc. now exists [].
  - now exists (x :: r').
Qed.

(** A text that starts with a slash has no scheme. *)
Lemma slash_no_scheme (r : str) :
  typeprog_match (fst (_splittag (unwrap (47 :: r)))) = None.
Proof.
  unfold unwrap, strip. cbn [lstrip]. change (isspace 47) with false. cbv iota.
  destruct (rstrip_head 47 r eq_refl) as [r' ->].
  change (startswith (lit "<") (47 :: r')) with false. cbn [andb].
  change (startswith (lit "URL:") (47 :: r')) with false. cbv iota.
  destruct (splittag_head 47 r' eq_refl) as [r'' ->]. reflexivity.
Qed.

Section Requests.

Variable NetState : Type.
Variable rt : Runtime NetState.

Lemma Request_init_Ok (url : str) (hs : dict str) (req : Request) :
  Request_init rt url hs = Ok req ->
  (_full_url req, fragment req) = _splittag (unwrap url)
  /\ request_headers req = fold_left (add_header rt) hs []
  /\ typeprog_match (_full_url req) <> None
  /\ urlparse_accepts rt (full_url req) = true.
Proof.
  unfold Request_init. destruct (_splittag (unwrap url)) as [u frag].
  destruct (typeprog_match u) as [m |] eqn:Hm; [| discriminate].
  match goal with |- context [urlparse_accepts rt ?x] =>
    destruct (urlparse_accepts rt x) eqn:Ha end; [| discriminate].
  intros [= <-]. cbn [_full_url fragment request_headers].
  repeat split; [congruence | exact Ha].
Qed.

Lemma Request_init_Raise (url : str) (hs : dict str) (e : exc) :
  Request_init rt url hs = Raise e -> e = ValueError.
Proof.
  unfold Request_init. destruct (_splittag (unwrap url)) as [u frag].
  destruct (typeprog_match u); [| congruence].
  match goal with |- context [urlparse_accepts rt ?x] =>
    destruct (urlparse_accepts rt x) end; [discriminate | congruence].
Qed.

Lemma Request_init_no_scheme (url : str) (hs : dict str) :
  typeprog_match (fst (_splittag (unwrap url))) = None ->
  Request_init rt url hs = Raise ValueError.
Proof.
  unfold Request_init. destruct (_splittag (unwrap url)) as [u frag]. cbn [fst].
  now intros ->.
Qed.

Lemma Request_init_as_written (url : str) (hs : dict str) (req : Request) :
  as_written url = true ->
  Request_init rt url hs = Ok req ->
  _full_url req = url /\ fragment req = None /\ full_url req = url.
Proof.
  unfold as_written. intros H Hreq. apply andb_true_iff in H. destruct H as [Hu Hf].
  apply str_eqb_eq in Hu. apply negb_true_iff in Hf.
  destruct (Request_init_Ok url hs req Hreq) as [Hsplit _].
  rewrite Hu, (splittag_none url Hf) in Hsplit. injection Hsplit as H1 H2.
  unfold full_url. rewrite H2. auto.
Qed.

Lemma fold_headers (h : option (dict str)) :
  fold_left (add_header rt) (headers_or_empty h) [] = sent_headers rt h.
Proof. destruct h as [[| kv d] |]; reflexivity. Qed.

(** The request a call makes, when [Request] accepts the URL: its URL is the
    concatenation of the base URL and the path as [unwrap] and [_splittag]
    leave it, and its headers are the stored ones under capitalized
    names. *)
Lemma made_request (c : RepoTokenizerClient) (path : str) (req : Request) :
  make_request rt c path = Ok req ->
  (_full_url req, fragment req) = _splittag (unwrap (base_url c ++ path))
  /\ request_headers req = sent_headers rt (headers c)
  /\ (as_written (base_url c ++ path) = true ->
      _full_url req = base_url c ++ path /\ full_url req = base_url c ++ path).
Proof.
  unfold make_request. cbv zeta. intros H.
  destruct (Request_init_Ok _ _ _ H) as [H1 [H2 _]].
  split; [exact H1 | split].
  - now rewrite H2, fold_headers.
  - intros Hw. destruct (Request_init_as_written _ _ _ Hw H) as [Ha [_ Hb]]. now split.
Qed.

Lemma made_request_selector (c : RepoTokenizerClient) (path : str) (req : Request) :
  make_request rt c path = Ok req ->
  selector req =
  match typeprog_match (fst (_splittag (unwrap (base_url c ++ path)))) with
  | Some (_, rest) => snd (_splithost rest)
  | None => fst (_splittag (unwrap (base_url c ++ path)))
  end.
Proof.
  intros H. destruct (made_request c path req H) as [H1 _].
  unfold selector. now rewrite <- H1.
Qed.

End Requests.

(* ===================================================================== *)
(** ** Running the methods *)
(* ===================================================================== *)

Section Behaviour.

Variable NetState : Type.
Variable rt : Runtime NetState.

Let World : Type := Client.World NetState.

(** [_request], one case per way it can end. *)
Lemma request_run (path : str) (w : World) :
  _request rt path w =
  match make_request rt (self w) path with
  | Raise e => (Raise e, w)
  | Ok req =>
      match urlopen rt req (net w) with
      | (Raise e, n) => (Raise e, opened w req n)
      | (Ok resp, n) =>
          match status resp with
          | None => (Raise TypeError, opened w req n)
          | Some code =>
              if (400 <=? code)%Z
              then (Raise (request_failed code), opened w req n)
              else (decoded (recursion_left rt) (content resp), consumed w req n resp)
          end
      end
  end.
Proof.
  unfold _request, bind, get_self, lift.
  destruct (make_request rt (self w) path) as [req | e]; [| reflexivity].
  unfold do_urlopen, do_read, raise, ret, decoded, opened, consumed.
  destruct (urlopen rt req (net w)) as [[resp | e] n]; [| reflexivity].
  destruct (status resp) as [code |]; [| reflexivity].
  destruct (400 <=? code)%Z; [reflexivity |].
  cbn [self net trace].
  destruct (content resp) as [bs | tag]; cbn [of_outcome rbind]; [| reflexivity].
  destruct (Codec.decode bs) as [[| c data] | e]; reflexivity.
Qed.

Lemma invoke_run (c : call) (w : World) :
  invoke rt c w =
  match path_of c with
  | Ok p => _request rt p w
  | Raise e => (Raise e, w)
  end.
Proof.
  destruct c; simpl;
    unfold list_files, list_chunks, get_file, get_chunk, search, search_symbols, bind, lift;
    match goal with |- context [match ?r with Ok _ => _ | Raise _ => _ end] =>
      destruct r; reflexivity end.
Qed.

Lemma added_app {A : Type} (m : M NetState A) (w : World) (evs : list event) :
  trace (snd (m w)) = trace w ++ evs -> added m w = evs.
Proof.
  intros H. unfold added. rewrite H.
  rewrite skipn_app, skipn_all, Nat.sub_diag. reflexivity.
Qed.

Lemma added_nothing {A : Type} (m : M NetState A) (w : World) (r : result A) :
  m w = (r, w) -> added m w = [].
Proof.
  intros H. apply added_app. rewrite H. cbn [snd]. now rewrite app_nil_r.
Qed.

Lemma request_self (path : str) (w : World) :
  self (snd (_request rt path w)) = self w.
Proof.
  rewrite request_run.
  destruct (make_request rt (self w) path) as [req | e]; [| reflexivity].
  destruct (urlopen rt req (net w)) as [[resp | e] n]; [| reflexivity].
  destruct (status resp) as [code |]; [| reflexivity].
  destruct (400 <=? code)%Z; reflexivity.
Qed.

(** The events of one [_request]: none when [Request] raises; otherwise the
    GET, then at most the read. *)
Lemma request_added (path : str) (w : World) :
  match make_request rt (self w) path with
  | Raise _ => added (_request rt path) w = []
  | Ok req =>
      added (_request rt path) w = [Urlopen req]
      \/ exists resp, added (_request rt path) w = [Urlopen req; Read resp]
  end.
Proof.
  pose proof (request_run path w) as H.
  destruct (make_request rt (self w) path) as [req | e];
    [| now apply (added_nothing _ _ (Raise e))].
  destruct (urlopen rt req (net w)) as [[resp | e] n].
  - destruct (status resp) as [code |].
    + destruct (400 <=? code)%Z.
      * left. apply added_app. rewrite H. reflexivity.
      * right. exists resp. apply added_app. rewrite H. simpl. now rewrite <- app_assoc.
    + left. apply added_app. rewrite H. reflexivity.
  - left. apply added_app. rewrite H. reflexivity.
Qed.

Lemma request_requests (path : str) (w : World) :
  requests (added (_request rt path) w) =
  match make_request rt (self w) path with
  | Ok req => [req]
  | Raise _ => []
  end.
Proof.
  pose proof (request_added path w) as H.
  destruct (make_request rt (self w) path) as [req | e].
  - destruct H as [-> | [resp ->]]; reflexivity.
  - now rewrite H.
Qed.

Lemma request_reads (path : str) (w : World) :
  (List.length (reads (added (_request rt path) w)) <= 1)%nat.
Proof.
  pose proof (request_added path w) as H.
  destruct (make_request rt (self w) path) as [req | e].
  - destruct H as [-> | [resp ->]]; simpl; lia.
  - rewrite H. simpl. lia.
Qed.

Lemma invoke_self (c : call) (w : World) : self (snd (invoke rt c w)) = self w.
Proof.
  rewrite invoke_run. destruct (path_of c); [apply request_self | reflexivity].
Qed.

Lemma invoke_added (c : call) (w : World) :
  added (invoke rt c) w =
  match path_of c with
  | Ok p => added (_request rt p) w
  | Raise _ => []
  end.
Proof.
  unfold added. rewrite invoke_run. destruct (path_of c) as [p | e]; [reflexivity |].
  simpl. now rewrite skipn_all.
Qed.

Lemma invoke_requests (c : call) (w : World) :
  requests (added (invoke rt c) w) =
  match path_of c with
  | Ok p => match make_request rt (self w) p with
            | Ok req => [req]
            | Raise _ => []
            end
  | Raise _ => []
  end.
Proof.
  rewrite invoke_added. destruct (path_of c) as [p | e]; [apply request_requests | reflexivity].
Qed.

(** The one request of a call whose URL [Request] accepts. *)
Lemma invoke_request (c : call) (p : str) (w : World) (req : Request) :
  path_of c = Ok p -> make_request rt (self w) p = Ok req ->
  requests (added (invoke rt c) w) = [req].
Proof. intros Hp Hreq. now rewrite invoke_requests, Hp, Hreq. Qed.

(** A call whose URL [Request] rejects ends there. *)
Lemma invoke_rejected (c : call) (p : str) (w : World) (e : exc) :
  path_of c = Ok p -> make_request rt (self w) p = Raise e ->
  invoke rt c w = (Raise e, w).
Proof. intros Hp Hreq. now rewrite invoke_run, Hp, request_run, Hreq. Qed.

Lemma decoded_benign (depth : nat) (raw : outcome bytes) : benign (decoded depth raw).
Proof.
  unfold decoded. apply benign_rbind.
  - destruct raw; intros msg; discriminate.
  - intros bs. apply benign_rbind.
    + unfold Codec.decode. destruct (Codec.utf8_decode bs); intros msg; discriminate.
    + intros [| c data]; [apply benign_Ok | apply loads_benign].
Qed.

(** The test of line 17, on a response that reaches it: under an opener
    that hands back a response whose status is 400 or more, the error is
    the [RuntimeError] with the status in its message, and nothing is
    read. *)
Lemma request_status_test (path : str) (w : World) (req : Request) (resp : Response)
      (n : NetState) (code : Z) :
  make_request rt (self w) path = Ok req ->
  urlopen rt req (net w) = (Ok resp, n) ->
  status resp = Some code ->
  (400 <= code)%Z ->
  _request rt path w = (Raise (request_failed code), opened w req n)
  /\ (digit_count code <= int_max_str_digits ->
      request_failed code = RuntimeError (lit "Request failed: " ++ str_of_int code)).
Proof.
  intros Hreq Hopen Hs Hc. split.
  - rewrite request_run, Hreq, Hopen, Hs. apply Z.leb_le in Hc. now rewrite Hc.
  - intros Hd. unfold request_failed, str_int. apply N.ltb_ge in Hd. now rewrite Hd.
Qed.

End Behaviour.

(** The stock opener hands back an HTTP answer only under a status from 200
    to 299. *)
Lemma stock_urlopen_Ok {NetState : Type}
      (fetch : Request -> NetState -> outcome Response * NetState)
      (req : Request) (n n' : NetState) (resp : Response) :
  stock_urlopen fetch req n = (Ok resp, n') ->
  fetch req n = (Done resp, n')
  /\ forall code, status resp = Some code -> (200 <= code < 300)%Z.
Proof.
  unfold stock_urlopen. destruct (fetch req n) as [[r | tag] m]; [| discriminate].
  destruct (status r) as [code |] eqn:Hs.
  - destruct ((200 <=? code)%Z && (code <? 300)%Z) eqn:Hc; [| discriminate].
    intros [= -> ->]. split; [reflexivity |]. intros code' Hs'.
    rewrite Hs in Hs'. injection Hs' as <-.
    apply andb_true_iff in Hc. destruct Hc as [H1 H2].
    apply Z.leb_le in H1. apply Z.ltb_lt in H2. lia.
  - intros [= -> ->]. split; [reflexivity |]. intros code Hs'. congruence.
Qed.

(* ===================================================================== *)
(** ** Which parameters reach the query *)
(* ===================================================================== *)

Lemma gated_In_sent (c : call) (k : str) (v : value) :
  In (k, v) (optional c) -> gate c v = true -> In (k, v) (sent c).
Proof.
  intros Hin Hg. unfold sent, comprehension. apply in_or_app. right.
  apply filter_In. split; assumption.
Qed.

Lemma sent_entry_read_back (c : call) (p k : str) (v : value) :
  path_of c = Ok p -> In (k, v) (sent c) ->
  exists e, encoded c v = Ok e /\ In (k, e) (Wire.query_items p).
Proof.
  intros Hp Hin.
  exact (Forall2_stands_for_In c _ _ k v (query_items_path_of c p Hp) Hin).
Qed.

Lemma occurrences_required (c : call) (p k : str) (v : value) :
  path_of c = Ok p -> In (k, v) (required c) -> Wire.occurrences k p = 1%nat.
Proof.
  intros Hp Hin. unfold Wire.occurrences, Wire.keys.
  rewrite (Forall2_stands_for_keys c _ _ (query_items_path_of c p Hp)).
  pose proof (all_keys_NoDup c) as Hnd. unfold sent.
  destruct (required c) as [| [k0 v0] [| kv req]] eqn:Hreq.
  - contradiction.
  - destruct Hin as [[= -> ->] | []]. cbn [app map filter fst] in *.
    assert (E : str_eqb k k = true) by now apply str_eqb_eq.
    rewrite E. cbn [List.length]. f_equal.
    rewrite filter_key_absent; [reflexivity |].
    inversion Hnd as [| ? ? Hk _]; subst. intros H. apply Hk.
    apply in_map_iff in H. destruct H as [kv [<- H]].
    apply filter_In in H. apply in_map. tauto.
  - exfalso. destruct c; discriminate Hreq.
Qed.

(* ===================================================================== *)
(** ** Quoting piece by piece *)
(* ===================================================================== *)

Lemma utf8_encode_app (a b : str) :
  Codec.utf8_encode (a ++ b) =
  match Codec.utf8_encode a, Codec.utf8_encode b with
  | Some x, Some y => Some (x ++ y)
  | _, _ => None
  end.
Proof.
  induction a as [| c a IH]; simpl.
  - now destruct (Codec.utf8_encode b).
  - rewrite IH. destruct (Codec.utf8_encode_char c) as [x |]; [| reflexivity].
    destruct (Codec.utf8_encode a) as [xs |]; [| reflexivity].
    destruct (Codec.utf8_encode b) as [ys |]; [| reflexivity].
    now rewrite app_assoc.
Qed.

Lemma quote_spec (s safe e : str) :
  quote s safe = Ok e <->
  exists bs, Codec.utf8_encode s = Some bs /\ e = quote_from_bytes bs safe.
Proof.
  unfold quote, Codec.encode. destruct s as [| c s'].
  - split.
    + intros [= <-]. exists []. split; reflexivity.
    + intros [bs [[= <-] ->]]. reflexivity.
  - destruct (Codec.utf8_encode (c :: s')) as [bs |]; cbn [rbind]; split.
    + intros [= <-]. exists bs. split; reflexivity.
    + intros [bs' [[= <-] ->]]. reflexivity.
    + discriminate.
    + intros [bs' [H _]]. discriminate H.
Qed.

Lemma quote_from_bytes_app (a b : bytes) (safe : str) :
  quote_from_bytes (a ++ b) safe = quote_from_bytes a safe ++ quote_from_bytes b safe.
Proof. unfold quote_from_bytes. apply flat_map_app. Qed.

(** A slash of the text is a slash of the quoted text, between the quoted
    halves. *)
Lemma quote_slash (a b e : str) :
  quote (a ++ 47 :: b) (lit "/") = Ok e ->
  exists ea eb,
    quote a (lit "/") = Ok ea /\ quote b (lit "/") = Ok eb /\ e = ea ++ 47 :: eb.
Proof.
  intros H. apply quote_spec in H. destruct H as [bs [Hbs ->]].
  rewrite utf8_encode_app in Hbs.
  destruct (Codec.utf8_encode a) as [xa |] eqn:Ha; [| discriminate].
  change (Codec.utf8_encode (47 :: b))
    with (match Codec.utf8_encode b with Some ys => Some (47 :: ys) | None => None end)
    in Hbs.
  destruct (Codec.utf8_encode b) as [xb |] eqn:Hb; [| discriminate].
  injection Hbs as <-.
  exists (quote_from_bytes xa (lit "/")), (quote_from_bytes xb (lit "/")).
  split; [| split].
  - apply quote_spec. now exists xa.
  - apply quote_spec. now exists xb.
  - rewrite quote_from_bytes_app. reflexivity.
Qed.

(** A text with a separator in it is cut in two pieces at least. *)
Lemma split_two (sep : N) (a b : str) :
  (2 <= List.length (Wire.split sep (a ++ sep :: b)))%nat.
Proof.
  assert (H1 : forall s, (1 <= List.length (Wire.split sep s))%nat).
  { induction s as [| c s IH]; simpl; [lia |].
    destruct (c =? sep); [simpl; lia |].
    destruct (Wire.split sep s); simpl in *; lia. }
  induction a as [| c a IH]; simpl.
  - rewrite N.eqb_refl. specialize (H1 b). simpl. lia.
  - destruct (c =? sep); [simpl; lia |].
    destruct (Wire.split sep (a ++ sep :: b)); simpl in *; lia.
Qed.

(* ===================================================================== *)
(** ** Properties of the client *)
(* ===================================================================== *)

Section Properties.

Variable NetState : Type.
Variable rt : Runtime NetState.

Let World : Type := Client.World NetState.

(** C3. Under the opener [urlopen] stands for when none was installed, an
    answer whose status is 400 or more never reaches the test of
    [_request]: [urlopen] itself raises, and what comes out of [_request] is
    that [HTTPError], which carries the status together with the answer and
    its body, after the one request and without a read by the client.  The
    [RuntimeError] with the status in its message is then raised under no
    answer at all: the only exception out of [_request] that
    [except RuntimeError] catches is the [RecursionError] of [json.loads],
    under a status from 200 to 299. *)
Theorem http_error_preempts_status_test
        (fetch : Request -> NetState -> outcome Response * NetState)
        (w : World) (path : str) :
  (forall req resp n code,
      make_request rt (self w) path = Ok req ->
      fetch req (net w) = (Done resp, n) ->
      status resp = Some code ->
      (400 <= code)%Z ->
      _request (stock rt fetch) path w
      = (Raise (HTTPError code (content resp)), opened w req n)
      /\ reads (added (_request (stock rt fetch) path) w) = [])
  /\ (forall e,
        fst (_request (stock rt fetch) path w) = Raise e ->
        is_RuntimeError e = true ->
        e = RecursionError
        /\ exists req resp n code,
             fetch req (net w) = (Done resp, n) /\ status resp = Some code
             /\ (200 <= code < 300)%Z).
Proof.
  split.
  - intros req resp n code Hreq Hfetch Hs Hc.
    assert (Hrun : _request (stock rt fetch) path w
                   = (Raise (HTTPError code (content resp)), opened w req n)).
    { rewrite request_run.
      change (make_request (stock rt fetch) (self w) path)
        with (make_request rt (self w) path).
      rewrite Hreq. cbn [urlopen stock]. unfold stock_urlopen. rewrite Hfetch, Hs.
      replace ((200 <=? code)%Z && (code <? 300)%Z) with false; [reflexivity |].
      symmetry. apply andb_false_iff. right. apply Z.ltb_ge. lia. }
    split; [exact Hrun |].
    rewrite (added_app NetState _ _ [Urlopen req]); [reflexivity |].
    rewrite Hrun. reflexivity.
  - intros e He Hr. rewrite request_run in He.
    change (make_request (stock rt fetch) (self w) path)
      with (make_request rt (self w) path) in He.
    destruct (make_request rt (self w) path) as [req | x] eqn:Hreq.
    + cbn [urlopen stock] in He.
      destruct (stock_urlopen fetch req (net w)) as [[resp | x] n] eqn:Hopen.
      * apply stock_urlopen_Ok in Hopen. destruct Hopen as [Hfetch Hrange].
        destruct (status resp) as [code |] eqn:Hs.
        -- specialize (Hrange code eq_refl).
           replace (400 <=? code)%Z with false in He by (symmetry; apply Z.leb_gt; lia).
           cbn [fst] in He.
           assert (Hb : e = RecursionError).
           { pose proof (decoded_benign (recursion_left (stock rt fetch)) (content resp))
               as Hb.
             rewrite He in Hb. destruct e; try discriminate Hr; [| reflexivity].
             now destruct (Hb msg). }
           split; [exact Hb |]. now exists req, resp, n, code.
        -- cbn [fst] in He. injection He as <-. discriminate Hr.
      * cbn [fst] in He. injection He as <-. exfalso.
        unfold stock_urlopen in Hopen.
        destruct (fetch req (net w)) as [[r | tag] m].
        -- destruct (status r) as [code |]; [| discriminate].
           destruct ((200 <=? code)%Z && (code <? 300)%Z);
             [discriminate | injection Hopen as <- _; discriminate Hr].
        -- injection Hopen as <- _. discriminate Hr.
    + cbn [fst] in He. injection He as <-.
      apply (Request_init_Raise NetState rt) in Hreq. subst x. discriminate Hr.
Qed.


(** C5. [get_chunk("a b", ref="main")] builds the path
    [/chunks/a%20b?ref=main] and makes its one request with it: the URL of
    the request is the base URL followed by that path whenever [Request]
    keeps the URL as written, and with the base URL
    [http://localhost:8080] what the request asks the server for is that
    path.  In general the chunk id and a non-empty ref are quoted one by
    one, the first into the path segment and the second into the value of
    [ref]. *)
Theorem get_chunk_path_quoted :
  get_chunk_path (lit "a b") (Some (lit "main")) = Ok (lit "/chunks/a%20b?ref=main")
  /\ (forall (w : World) (req : Request),
        make_request rt (self w) (lit "/chunks/a%20b?ref=main") = Ok req ->
        requests (added (get_chunk rt (lit "a b") (Some (lit "main"))) w) = [req]
        /\ (as_written (base_url (self w) ++ lit "/chunks/a%20b?ref=main") = true ->
            _full_url req = base_url (self w) ++ lit "/chunks/a%20b?ref=main")
        /\ (base_url (self w) = lit "http://localhost:8080" ->
            _full_url req = lit "http://localhost:8080/chunks/a%20b?ref=main"
            /\ selector req = lit "/chunks/a%20b?ref=main"))
  /\ (forall chunk_id ref e1 e2,
        ref <> [] ->
        quote chunk_id (lit "/") = Ok e1 -> quote ref (lit "/") = Ok e2 ->
        get_chunk_path chunk_id (Some ref) = Ok (lit "/chunks/" ++ e1 ++ lit "?ref=" ++ e2)).
Proof.
  split; [reflexivity | split].
  - intros w req Hreq. split; [| split].
    + exact (invoke_request NetState rt (GetChunk (lit "a b") (Some (lit "main"))) _ w req
               eq_refl Hreq).
    + intros Hw. now destruct (proj2 (proj2 (made_request NetState rt _ _ _ Hreq)) Hw).
    + intros Hb. pose proof (made_request_selector NetState rt _ _ _ Hreq) as Hsel.
      destruct (made_request NetState rt _ _ _ Hreq) as [Hu _].
      rewrite Hb in Hsel, Hu. split.
      * now injection Hu as -> _.
      * exact Hsel.
  - intros chunk_id ref e1 e2 Hne H1 H2. unfold get_chunk_path.
    destruct ref as [| c r]; [congruence |]. rewrite H2, H1. reflexivity.
Qed.

(** C6, as amended.  The text [_request] hands to [Request] is the stored
    base URL followed by the path, character for character, and the client
    does nothing else to it; but [Request] does: the URL of the request is
    that text as [unwrap] and [_splittag] leave it (white space around it,
    angle brackets and a fragment removed), which is the text itself when
    there is nothing of the kind to remove; and a text in which no scheme is
    found, as with an empty base URL, is refused with [ValueError] before
    any request is made. *)
Theorem request_url_verbatim (c : call) (p : str) (w : World) :
  path_of c = Ok p ->
  let url := base_url (self w) ++ p in
  (forall req,
      Request_init rt url (headers_or_empty (headers (self w))) = Ok req ->
      requests (added (invoke rt c) w) = [req]
      /\ (_full_url req, fragment req) = _splittag (unwrap url)
      /\ (as_written url = true -> _full_url req = url /\ full_url req = url))
  /\ (forall e,
        Request_init rt url (headers_or_empty (headers (self w))) = Raise e ->
        e = ValueError /\ invoke rt c w = (Raise ValueError, w))
  /\ (typeprog_match (fst (_splittag (unwrap url))) = None ->
      invoke rt c w = (Raise ValueError, w))
  /\ (base_url (self w) = [] -> invoke rt c w = (Raise ValueError, w)).
Proof.
  intros Hp url.
  assert (Hno : typeprog_match (fst (_splittag (unwrap url))) = None ->
                invoke rt c w = (Raise ValueError, w)).
  { intros Hn. apply (invoke_rejected NetState rt c p w ValueError Hp).
    now apply (Request_init_no_scheme NetState rt). }
  split; [| split; [| split]].
  - intros req Hreq. split; [| split].
    + exact (invoke_request NetState rt c p w req Hp Hreq).
    + exact (proj1 (made_request NetState rt _ _ _ Hreq)).
    + exact (proj2 (proj2 (made_request NetState rt _ _ _ Hreq))).
  - intros e He. pose proof (Request_init_Raise NetState rt _ _ _ He) as ->.
    split; [reflexivity |]. exact (invoke_rejected NetState rt c p w ValueError Hp He).
  - exact Hno.
  - intros Hb. apply Hno. subst url. rewrite Hb. cbn [app].
    destruct (path_of_shape c p Hp) as [ep [items [Hep [_ [-> _]]]]].
    destruct c; simpl in Hep;
      try (injection Hep as <-; apply slash_no_scheme).
    destruct (quote chunk_id (lit "/")) as [q |]; [| discriminate].
    injection Hep as <-. apply slash_no_scheme.
Qed.

(** C7. When a call has no parameter to send, which for [list_files],
    [list_chunks] and [search_symbols] is when the mapping they assemble is
    empty and for [get_chunk] when it is given no ref, the path is built
    (the chunk id of [get_chunk] permitting) and is the bare endpoint: it
    holds no question mark, and the one request of the call, when [Request]
    accepts the URL, is made with it. *)
Theorem empty_mapping_no_query (c : call) (w : World) :
  sent c = [] ->
  (Forall encodable (texts c) -> exists p, path_of c = Ok p)
  /\ (forall p,
        path_of c = Ok p ->
        endpoint c = Ok p /\ ~ In 63 p /\ Wire.query_string p = None
        /\ forall req,
             make_request rt (self w) p = Ok req ->
             requests (added (invoke rt c) w) = [req]
             /\ (as_written (base_url (self w) ++ p) = true ->
                 _full_url req = base_url (self w) ++ p)).
Proof.
  intros Hd.
  assert (Hshape : forall p, path_of c = Ok p -> endpoint c = Ok p /\ ~ In 63 p).
  { intros p Hp. destruct (path_of_shape c p Hp) as [ep [items [Hep [Hq [-> Hf]]]]].
    rewrite Hd in Hf. inversion Hf; subst. cbn [render]. rewrite app_nil_r. now split. }
  split.
  - intros Henc. unfold texts in Henc. rewrite Hd in Henc. cbn [map] in Henc.
    rewrite app_nil_r in Henc.
    destruct c as [i e r | pa l r m | pa r | ch r | q g r | q r].
    + exists (lit "/files"). simpl. unfold list_files_path.
      replace (list_files_params i e r) with (sent (ListFiles i e r)) by reflexivity.
      now rewrite Hd.
    + exists (lit "/chunks"). simpl. unfold list_chunks_path.
      replace (list_chunks_params pa l r m) with (sent (ListChunks pa l r m))
        by reflexivity.
      now rewrite Hd.
    + exfalso. revert Hd. apply sent_nonempty_required. discriminate.
    + inversion Henc as [| ? ? He _]; subst. unfold encodable in He.
      destruct (Codec.utf8_encode ch) as [bs |] eqn:Hbs; [| congruence].
      exists (lit "/chunks/" ++ quote_from_bytes bs (lit "/")).
      simpl. unfold get_chunk_path.
      assert (Hq : quote ch (lit "/") = Ok (quote_from_bytes bs (lit "/"))).
      { apply quote_spec. now exists bs. }
      rewrite Hq.
      destruct r as [[| x r'] |]; [| discriminate Hd |]; cbn [rbind];
        now rewrite app_nil_r.
    + exfalso. revert Hd. apply sent_nonempty_required. discriminate.
    + exists (lit "/search/symbols"). simpl. unfold search_symbols_path.
      replace (search_symbols_params q r) with (sent (SearchSymbols q r)).
      * now rewrite Hd.
      * unfold sent, search_symbols_params, set_if_truthy, comprehension. simpl.
        destruct (truthy (of_opt_str q)), (truthy (of_opt_str r)); reflexivity.
  - intros p Hp. destruct (Hshape p Hp) as [Hep Hq]. split; [exact Hep | split; [exact Hq |]].
    split.
    + unfold Wire.query_string. now rewrite partition_none.
    + intros req Hreq. split.
      * exact (invoke_request NetState rt c p w req Hp Hreq).
      * intros Hw. now destruct (proj2 (proj2 (made_request NetState rt _ _ _ Hreq)) Hw).
Qed.

(** C8. A call leaves the stored base URL and headers as they were, whether
    it returns or raises; and the request a call makes after another call is
    the request it makes on its own. *)
Theorem configuration_preserved (c1 c2 : call) (w : World) :
  base_url (self (snd (invoke rt c1 w))) = base_url (self w)
  /\ headers (self (snd (invoke rt c1 w))) = headers (self w)
  /\ self (snd (invoke rt c2 (snd (invoke rt c1 w)))) = self w
  /\ requests (added (invoke rt c2) (snd (invoke rt c1 w)))
     = requests (added (invoke rt c2) w).
Proof.
  repeat split.
  - now rewrite invoke_self.
  - now rewrite invoke_self.
  - now rewrite !invoke_self.
  - now rewrite !invoke_requests, invoke_self.
Qed.

(** C9. [get_file('')] builds the path [/file?path=] and [search('')] the
    path [/search?q=], and each makes its one request with it: with the base
    URL [http://localhost:8080] that path is what the request asks the
    server for.  Whatever its value, a required parameter is in the query
    exactly once, with its encoded value, which is empty when the argument
    is empty; and the path that holds it is the one requested. *)
Theorem required_parameters_kept :
  get_file_path [] None = Ok (lit "/file?path=")
  /\ search_path [] None None = Ok (lit "/search?q=")
  /\ (forall (w : World) (req : Request),
        make_request rt (self w) (lit "/file?path=") = Ok req ->
        requests (added (get_file rt [] None) w) = [req]
        /\ (base_url (self w) = lit "http://localhost:8080" ->
            _full_url req = lit "http://localhost:8080/file?path="
            /\ selector req = lit "/file?path="))
  /\ (forall (w : World) (req : Request),
        make_request rt (self w) (lit "/search?q=") = Ok req ->
        requests (added (search rt [] None None) w) = [req]
        /\ (base_url (self w) = lit "http://localhost:8080" ->
            _full_url req = lit "http://localhost:8080/search?q="
            /\ selector req = lit "/search?q="))
  /\ (forall c p k v,
        path_of c = Ok p -> In (k, v) (required c) ->
        Wire.occurrences k p = 1%nat
        /\ (exists e, encoded c v = Ok e /\ In (k, e) (Wire.query_items p))
        /\ (v = PyStr [] -> In (k, []) (Wire.query_items p))
        /\ (forall (w : World) (req : Request),
              make_request rt (self w) p = Ok req ->
              requests (added (invoke rt c) w) = [req]
              /\ (as_written (base_url (self w) ++ p) = true ->
                  _full_url req = base_url (self w) ++ p))).
Proof.
  assert (Hloc : forall (w : World) (req : Request) (p : str),
            make_request rt (self w) p = Ok req ->
            base_url (self w) = lit "http://localhost:8080" ->
            (_full_url req, fragment req)
            = _splittag (unwrap (lit "http://localhost:8080" ++ p))
            /\ selector req
               = match typeprog_match
                         (fst (_splittag (unwrap (lit "http://localhost:8080" ++ p)))) with
                 | Some (_, rest) => snd (_splithost rest)
                 | None => fst (_splittag (unwrap (lit "http://localhost:8080" ++ p)))
                 end).
  { intros w req p Hreq Hb.
    pose proof (made_request_selector NetState rt _ _ _ Hreq) as Hsel.
    destruct (made_request NetState rt _ _ _ Hreq) as [Hu _].
    rewrite Hb in Hsel, Hu. now split. }
  split; [reflexivity | split; [reflexivity | split; [| split]]].
  - intros w req Hreq. split.
    + exact (invoke_request NetState rt (GetFile [] None) _ w req eq_refl Hreq).
    + intros Hb. destruct (Hloc w req _ Hreq Hb) as [Hu Hsel]. split.
      * now injection Hu as -> _.
      * exact Hsel.
  - intros w req Hreq. split.
    + exact (invoke_request NetState rt (Search [] None None) _ w req eq_refl Hreq).
    + intros Hb. destruct (Hloc w req _ Hreq Hb) as [Hu Hsel]. split.
      * now injection Hu as -> _.
      * exact Hsel.
  - intros c p k v Hp Hin.
    assert (Hs : In (k, v) (sent c)) by (unfold sent; apply in_or_app; now left).
    destruct (sent_entry_read_back c p k v Hp Hs) as [e [He Hq]].
    split; [now apply (occurrences_required c p k v) | split; [| split]].
    + now exists e.
    + intros ->. destruct c; simpl in He; injection He as <-; exact Hq.
    + intros w req Hreq. split.
      * exact (invoke_request NetState rt c p w req Hp Hreq).
      * intros Hw. now destruct (proj2 (proj2 (made_request NetState rt _ _ _ Hreq)) Hw).
Qed.

(** C10. [get_chunk("a/b")] builds the path [/chunks/a/b] and makes its one
    request with it: with the base URL [http://localhost:8080] that path is
    what the request asks the server for.  Wherever a chunk id has a slash,
    the path has that slash, between the quoted text before it and the
    quoted text after it: cut at its slashes, the path component has two
    segments at least after [chunks]; and that path is the one
    requested. *)
Theorem chunk_id_slash_kept :
  get_chunk_path (lit "a/b") None = Ok (lit "/chunks/a/b")
  /\ (forall (w : World) (req : Request),
        make_request rt (self w) (lit "/chunks/a/b") = Ok req ->
        requests (added (get_chunk rt (lit "a/b") None) w) = [req]
        /\ (base_url (self w) = lit "http://localhost:8080" ->
            _full_url req = lit "http://localhost:8080/chunks/a/b"
            /\ selector req = lit "/chunks/a/b"))
  /\ (forall a b ref p,
        get_chunk_path (a ++ 47 :: b) ref = Ok p ->
        (exists ea eb,
            quote a (lit "/") = Ok ea /\ quote b (lit "/") = Ok eb
            /\ Wire.path_component p = lit "/chunks/" ++ ea ++ 47 :: eb)
        /\ (4 <= List.length (Wire.split 47 (Wire.path_component p)))%nat
        /\ (forall (w : World) (req : Request),
              make_request rt (self w) p = Ok req ->
              requests (added (get_chunk rt (a ++ 47 :: b) ref) w) = [req]
              /\ (as_written (base_url (self w) ++ p) = true ->
                  _full_url req = base_url (self w) ++ p))).
Proof.
  split; [reflexivity | split].
  - intros w req Hreq. split.
    + exact (invoke_request NetState rt (GetChunk (lit "a/b") None) _ w req eq_refl Hreq).
    + intros Hb. pose proof (made_request_selector NetState rt _ _ _ Hreq) as Hsel.
      destruct (made_request NetState rt _ _ _ Hreq) as [Hu _].
      rewrite Hb in Hsel, Hu. split.
      * now injection Hu as -> _.
      * exact Hsel.
  - intros a b ref p Hp.
    assert (Hcomp : exists ea eb,
               quote a (lit "/") = Ok ea /\ quote b (lit "/") = Ok eb
               /\ Wire.path_component p = lit "/chunks/" ++ ea ++ 47 :: eb).
    { destruct (path_of_shape (GetChunk (a ++ 47 :: b) ref) p Hp)
        as [ep [items [Hep [Hq [-> _]]]]].
      rewrite path_component_render by assumption.
      simpl in Hep.
      destruct (quote (a ++ 47 :: b) (lit "/")) as [e |] eqn:He; cbn [rbind] in Hep;
        [| discriminate].
      injection Hep as <-.
      destruct (quote_slash a b e He) as [ea [eb [Ha [Hb ->]]]].
      exists ea, eb. repeat split; assumption. }
    split; [exact Hcomp | split].
    + destruct Hcomp as [ea [eb [_ [_ ->]]]].
      change (lit "/chunks/" ++ ea ++ 47 :: eb)
        with ([] ++ 47 :: (lit "chunks" ++ 47 :: (ea ++ 47 :: eb))).
      rewrite split_app by (intros []).
      rewrite split_app by (intros H; repeat (destruct H as [H | H]; [discriminate H |]);
                            exact H).
      pose proof (split_two 47 ea eb). simpl. lia.
    + intros w req Hreq. split.
      * exact (invoke_request NetState rt (GetChunk (a ++ 47 :: b) ref) p w req Hp Hreq).
      * intros Hw. now destruct (proj2 (proj2 (made_request NetState rt _ _ _ Hreq)) Hw).
Qed.

End Properties.

(* ===================================================================== *)
(** ** Properties of the assembled query *)
(* ===================================================================== *)

(** C1, as amended.  An optional parameter that does not pass the gate of
    its method is not among the keys of the query; one that passes is there
    exactly once, with its encoded value ([quote_plus], and [quote] for the
    ref of [get_chunk]).  The gate is the truth value of the argument ([if
    v]) in every method but [list_chunks], where it is [v is not None]: there
    an empty string and a zero are sent. *)
Theorem optional_parameters_gated (c : call) (p k : str) (v : value) :
  path_of c = Ok p ->
  In (k, v) (optional c) ->
  gate c = match c with ListChunks _ _ _ _ => is_not_None | _ => truthy end
  /\ (gate c v = false -> Wire.occurrences k p = 0%nat)
  /\ (gate c v = true ->
        Wire.occurrences k p = 1%nat
        /\ exists e, encoded c v = Ok e /\ In (k, e) (Wire.query_items p)).
Proof.
  intros Hp Hin. pose proof (occurrences_path_of c p k v Hp Hin) as Hocc.
  split; [now destruct c | split]; intros Hg; rewrite Hg in Hocc.
  - exact Hocc.
  - split; [exact Hocc |].
    apply (sent_entry_read_back c p k v Hp). now apply gated_In_sent.
Qed.

(** C1, as stated, fails on [list_chunks]: with [lang=''] and
    [max_tokens=0], both falsy, the path is [/chunks?lang=&maxTokens=0] and
    each of the two keys is in the query once. *)
Lemma list_chunks_keeps_falsy_values :
  path_of (ListChunks None (Some []) None (Some 0%Z))
  = Ok (lit "/chunks?lang=&maxTokens=0")
  /\ truthy (PyStr []) = false
  /\ truthy (PyInt 0) = false
  /\ Wire.occurrences (lit "lang") (lit "/chunks?lang=&maxTokens=0") = 1%nat
  /\ Wire.occurrences (lit "maxTokens") (lit "/chunks?lang=&maxTokens=0") = 1%nat
  /\ ~ (forall c p k v,
          path_of c = Ok p -> In (k, v) (optional c) -> truthy v = false ->
          Wire.occurrences k p = 0%nat).
Proof.
  repeat split; try reflexivity.
  intros H.
  specialize (H (ListChunks None (Some []) None (Some 0%Z))
                (lit "/chunks?lang=&maxTokens=0") (lit "maxTokens") (PyInt 0)
                eq_refl).
  assert (Hin : In (lit "maxTokens", PyInt 0)
                   (optional (ListChunks None (Some []) None (Some 0%Z)))).
  { simpl. right. right. right. left. reflexivity. }
  specialize (H Hin eq_refl). discriminate H.
Qed.

(** C2, as amended.  [list_chunks] leaves [maxTokens] out only when
    [max_tokens] is [None]; any integer, zero included, is sent once, in
    decimal. *)
Theorem list_chunks_max_tokens (path lang ref : option str) (max_tokens : option Z)
        (p : str) :
  list_chunks_path path lang ref max_tokens = Ok p ->
  match max_tokens with
  | None => Wire.occurrences (lit "maxTokens") p = 0%nat
  | Some n =>
      Wire.occurrences (lit "maxTokens") p = 1%nat
      /\ In (lit "maxTokens", str_of_int n) (Wire.query_items p)
  end.
Proof.
  intros Hp.
  assert (Hin : In (lit "maxTokens", of_opt_int max_tokens)
                   (optional (ListChunks path lang ref max_tokens))).
  { simpl. right. right. right. left. reflexivity. }
  pose proof (occurrences_path_of (ListChunks path lang ref max_tokens) p _ _ Hp Hin)
    as Hocc.
  destruct max_tokens as [n |]; cbn [gate of_opt_int is_not_None] in Hocc.
  - split; [exact Hocc |].
    destruct (sent_entry_read_back (ListChunks path lang ref (Some n)) p
                (lit "maxTokens") (PyInt n) Hp) as [e [He Hq]].
    + now apply gated_In_sent.
    + cbn [encoded to_str] in He.
      rewrite (plain_quote_plus _ (str_of_int_plain n)) in He.
      injection He as <-. exact Hq.
  - exact Hocc.
Qed.

(** C2, as stated, fails: [list_chunks(max_tokens=0)] asks for
    [/chunks?maxTokens=0]. *)
Lemma list_chunks_zero_max_tokens_sent :
  list_chunks_path None None None (Some 0%Z) = Ok (lit "/chunks?maxTokens=0")
  /\ Wire.query_items (lit "/chunks?maxTokens=0") = [(lit "maxTokens", lit "0")]
  /\ ~ (forall p, list_chunks_path None None None (Some 0%Z) = Ok p ->
                  Wire.occurrences (lit "maxTokens") p = 0%nat).
Proof.
  split; [reflexivity | split; [reflexivity |]].
  intros H. specialize (H (lit "/chunks?maxTokens=0") eq_refl). discriminate H.
Qed.

(* ===================================================================== *)
(** ** Failures of the transport and of the body *)
(* ===================================================================== *)

Section Failures.

Variable NetState : Type.
Variable rt : Runtime NetState.

Let World : Type := Client.World NetState.

(** X1. When [urlopen] raises, the call ends with that very exception,
    neither caught nor wrapped: the request has been made, and nothing is
    read. *)
Theorem transport_failure_propagates (c : call) (p : str) (w : World) (req : Request)
        (e : exc) (n : NetState) :
  path_of c = Ok p ->
  make_request rt (self w) p = Ok req ->
  urlopen rt req (net w) = (Raise e, n) ->
  invoke rt c w = (Raise e, opened w req n)
  /\ reads (added (invoke rt c) w) = [].
Proof.
  intros Hp Hreq Hopen.
  assert (Hrun : invoke rt c w = (Raise e, opened w req n)).
  { rewrite invoke_run, Hp, request_run, Hreq, Hopen. reflexivity. }
  split; [exact Hrun |].
  rewrite (added_app NetState _ _ [Urlopen req]); [reflexivity |].
  rewrite Hrun. reflexivity.
Qed.

(** X2. When the status is below 400 and [resp.read()] raises, the call
    ends with that very exception, after the one request and the one
    read. *)
Theorem read_failure_propagates (c : call) (p : str) (w : World) (req : Request)
        (resp : Response) (code : Z) (tag : N) (n : NetState) :
  path_of c = Ok p ->
  make_request rt (self w) p = Ok req ->
  urlopen rt req (net w) = (Ok resp, n) ->
  status resp = Some code ->
  (code < 400)%Z ->
  content resp = Fault tag ->
  invoke rt c w = (Raise (TransportError tag), consumed w req n resp).
Proof.
  intros Hp Hreq Hopen Hst Hs Hc.
  rewrite invoke_run, Hp, request_run, Hreq, Hopen, Hst.
  apply Z.leb_gt in Hs. rewrite Hs. unfold decoded. rewrite Hc. reflexivity.
Qed.

(** X3. A body that is not UTF-8, under a status below 400, ends the call
    with [UnicodeDecodeError]: [json.loads] is not reached. *)
Theorem undecodable_body_raises (c : call) (p : str) (w : World) (req : Request)
        (resp : Response) (code : Z) (raw : bytes) (n : NetState) :
  path_of c = Ok p ->
  make_request rt (self w) p = Ok req ->
  urlopen rt req (net w) = (Ok resp, n) ->
  status resp = Some code ->
  (code < 400)%Z ->
  content resp = Done raw ->
  Codec.utf8_decode raw = None ->
  fst (invoke rt c w) = Raise UnicodeDecodeError.
Proof.
  intros Hp Hreq Hopen Hst Hs Hc Hd.
  rewrite invoke_run, Hp, request_run, Hreq, Hopen, Hst.
  apply Z.leb_gt in Hs. rewrite Hs. unfold decoded, Codec.decode. rewrite Hc.
  cbn [of_outcome rbind fst]. rewrite Hd. reflexivity.
Qed.

End Failures.

Lemma skip_ws_all (s : str) : is_ws_text s -> skip_ws s = [].
Proof.
  induction 1 as [| c s Hc Hs IH]; simpl; [reflexivity |]. now rewrite Hc.
Qed.

Lemma is_ws_cases (c : N) : is_ws c = true -> c = 32 \/ c = 9 \/ c = 10 \/ c = 13.
Proof.
  unfold is_ws. rewrite !orb_true_iff, !N.eqb_eq. tauto.
Qed.

Lemma loads_whitespace (depth : nat) (s : str) :
  s <> [] -> is_ws_text s -> Json.loads depth s = Raise JSONDecodeError.
Proof.
  intros Hne Hws. destruct s as [| c r]; [congruence |].
  pose proof (skip_ws_all _ Hws) as Hskip.
  inversion Hws as [| ? ? Hc Hr]; subst.
  unfold Json.loads.
  destruct (is_ws_cases c Hc) as [-> | [-> | [-> | ->]]];
    cbv iota beta; rewrite Hskip; reflexivity.
Qed.

Section Bodies.

Variable NetState : Type.
Variable rt : Runtime NetState.

Let World : Type := Client.World NetState.

(** X4. A body that is not empty and is made of white space alone (a single
    newline, say) is handed to [json.loads] and ends the call with
    [JSONDecodeError]. *)
Theorem whitespace_body_raises (c : call) (p : str) (w : World) (req : Request)
        (resp : Response) (code : Z) (raw : bytes) (data : str) (n : NetState) :
  path_of c = Ok p ->
  make_request rt (self w) p = Ok req ->
  urlopen rt req (net w) = (Ok resp, n) ->
  status resp = Some code ->
  (code < 400)%Z ->
  content resp = Done raw ->
  Codec.utf8_decode raw = Some data ->
  data <> [] ->
  is_ws_text data ->
  fst (invoke rt c w) = Raise JSONDecodeError.
Proof.
  intros Hp Hreq Hopen Hst Hs Hc Hd Hne Hws.
  rewrite invoke_run, Hp, request_run, Hreq, Hopen, Hst.
  apply Z.leb_gt in Hs. rewrite Hs. unfold decoded, Codec.decode. rewrite Hc.
  cbn [of_outcome rbind fst]. rewrite Hd. cbn [rbind].
  destruct data as [| ch r]; [congruence |]. now apply loads_whitespace.
Qed.

(** X6. A call whose path is built makes one request at most and reads the
    response at most once.  It makes exactly one when [Request] accepts the
    URL, and none when it does not.  The headers of the [Request] object are
    the stored ones (none when [headers] is [None]), each under its name
    capitalized ([x-api-key] is sent as [X-api-key]), a later header
    replacing the value of an earlier one of the same capitalized name; and
    the URL is the base URL followed by the path, as [unwrap] and
    [_splittag] leave it. *)
Theorem one_request_with_stored_headers (c : call) (p : str) (w : World) :
  path_of c = Ok p ->
  (List.length (requests (added (invoke rt c) w)) <= 1)%nat
  /\ (List.length (reads (added (invoke rt c) w)) <= 1)%nat
  /\ (forall req,
        make_request rt (self w) p = Ok req ->
        requests (added (invoke rt c) w) = [req]
        /\ request_headers req
           = fold_left (fun hs kv => setitem hs (capitalize rt (fst kv)) (snd kv))
                       (match headers (self w) with Some h => h | None => [] end) []
        /\ (_full_url req, fragment req) = _splittag (unwrap (base_url (self w) ++ p)))
  /\ (forall e,
        make_request rt (self w) p = Raise e ->
        added (invoke rt c) w = [] /\ fst (invoke rt c w) = Raise ValueError)
  /\ capitalize rt (lit "x-api-key") = lit "X-api-key"
  /\ (forall key, isascii key = true -> capitalize rt key = ascii_capitalize key).
Proof.
  intros Hp. split; [| split; [| split; [| split; [| split]]]].
  - rewrite invoke_requests, Hp.
    destruct (make_request rt (self w) p); simpl; lia.
  - rewrite invoke_added, Hp. apply request_reads.
  - intros req Hreq. split; [| split].
    + exact (invoke_request NetState rt c p w req Hp Hreq).
    + exact (proj1 (proj2 (made_request NetState rt _ _ _ Hreq))).
    + exact (proj1 (made_request NetState rt _ _ _ Hreq)).
  - intros e Hreq. pose proof (Request_init_Raise NetState rt _ _ _ Hreq) as ->.
    pose proof (invoke_rejected NetState rt c p w ValueError Hp Hreq) as Hrun.
    split.
    + now apply (added_nothing NetState _ _ (Raise ValueError)).
    + now rewrite Hrun.
  - reflexivity.
  - intros key Hk. unfold capitalize. now rewrite Hk.
Qed.

End Bodies.

(** X8. Whatever the values, the query of a path holds one entry per
    parameter sent, under the names of those parameters and in their order,
    and what precedes the query is the endpoint: a value cannot add, hide or
    rename a parameter, nor change the path component. *)
Theorem query_keys_in_order (c : call) (p : str) :
  path_of c = Ok p ->
  map fst (Wire.query_items p) = map fst (sent c)
  /\ endpoint c = Ok (Wire.path_component p).
Proof.
  intros Hp. split.
  - exact (Forall2_stands_for_keys c _ _ (query_items_path_of c p Hp)).
  - destruct (path_of_shape c p Hp) as [ep [items [Hep [Hq [-> _]]]]].
    rewrite path_component_render by assumption. exact Hep.
Qed.

Lemma quote_Ok_encodable (s safe e : str) : quote s safe = Ok e -> encodable s.
Proof.
  intros H. apply quote_spec in H. destruct H as [bs [H _]]. unfold encodable. congruence.
Qed.

Lemma quote_Raise (s safe : str) (e : exc) :
  quote s safe = Raise e -> e = UnicodeEncodeError /\ Codec.utf8_encode s = None.
Proof.
  unfold quote, Codec.encode. destruct s as [| c s']; [discriminate |].
  destruct (Codec.utf8_encode (c :: s')); cbn [rbind]; [discriminate |].
  intros [= <-]. split; reflexivity.
Qed.

Lemma quote_plus_Ok_encodable (s e : str) : quote_plus s [] = Ok e -> encodable s.
Proof.
  unfold quote_plus. destruct (mem 32 s).
  - destruct (quote s ([] ++ [32])) as [q |] eqn:Hq; [| discriminate].
    intros _. now apply (quote_Ok_encodable _ _ _ Hq).
  - apply quote_Ok_encodable.
Qed.

Lemma quote_plus_Raise (s : str) (e : exc) :
  quote_plus s [] = Raise e -> e = UnicodeEncodeError /\ Codec.utf8_encode s = None.
Proof.
  unfold quote_plus. destruct (mem 32 s).
  - destruct (quote s ([] ++ [32])) as [q | x] eqn:Hq; cbn [rbind]; [discriminate |].
    intros [= <-]. now apply (quote_Raise _ _ _ Hq).
  - apply quote_Raise.
Qed.

Lemma encoded_Ok_encodable (c : call) (v : value) (e : str) :
  encoded c v = Ok e -> encodable (to_str v).
Proof.
  destruct c; simpl;
    first [apply quote_plus_Ok_encodable | apply quote_Ok_encodable].
Qed.

Lemma rmap_list_Raise {A B : Type} (f : A -> result B) (l : list A) (e : exc) :
  rmap_list f l = Raise e -> exists x, In x l /\ f x = Raise e.
Proof.
  induction l as [| x l IH]; simpl; [discriminate |].
  destruct (f x) as [y | e'] eqn:Hx; cbn [rbind].
  - destruct (rmap_list f l) as [ys | e'']; cbn [rbind]; [discriminate |].
    intros [= <-]. destruct (IH eq_refl) as [x' [Hin Hx']]. exists x'. tauto.
  - intros [= <-]. exists x. tauto.
Qed.

Lemma rmap_list_app {A B : Type} (f : A -> result B) (l1 l2 : list A) :
  rmap_list f (l1 ++ l2)
  = rbind (rmap_list f l1) (fun ys =>
    rbind (rmap_list f l2) (fun zs => Ok (ys ++ zs))).
Proof.
  induction l1 as [| x l1 IH]; simpl.
  - destruct (rmap_list f l2); reflexivity.
  - destruct (f x) as [y | e]; cbn [rbind]; [| reflexivity].
    rewrite IH. destruct (rmap_list f l1) as [ys | e]; cbn [rbind]; [| reflexivity].
    destruct (rmap_list f l2); reflexivity.
Qed.

Lemma rmap_list_Ok_In {A B : Type} (f : A -> result B) (l : list A) (ys : list B)
      (x : A) :
  rmap_list f l = Ok ys -> In x l -> exists y, f x = Ok y.
Proof.
  revert ys. induction l as [| a l IH]; simpl; intros ys H Hin; [contradiction |].
  destruct (f a) as [y | e] eqn:Ha; cbn [rbind] in H; [| discriminate].
  destruct (rmap_list f l) as [zs | e]; cbn [rbind] in H; [| discriminate].
  destruct Hin as [<- | Hin]; [now exists y | now apply (IH zs)].
Qed.

Lemma str_of_int_encodable (n : Z) : encodable (str_of_int n).
Proof. unfold encodable. now rewrite (plain_utf8_encode _ (str_of_int_plain n)). Qed.

Lemma urlencode_item_Ok (kv : str * value) (s : str) :
  plain (fst kv) -> urlencode_item kv = Ok s -> encodable (to_str (snd kv)).
Proof.
  intros Hk H. destruct (urlencode_item_plain kv s Hk H) as [it [[_ Hq] _]].
  now apply (quote_plus_Ok_encodable _ _ Hq).
Qed.

Lemma urlencode_item_Raise (kv : str * value) (e : exc) :
  plain (fst kv) -> prints kv -> urlencode_item kv = Raise e ->
  e = UnicodeEncodeError /\ Codec.utf8_encode (to_str (snd kv)) = None.
Proof.
  intros Hk Hp. unfold urlencode_item. rewrite (plain_quote_plus _ Hk). cbn [rbind].
  unfold prints in Hp. rewrite Hp. cbn [rbind].
  destruct (quote_plus (to_str (snd kv)) []) as [q | x] eqn:Hq; cbn [rbind];
    [discriminate |].
  intros [= <-]. now apply (quote_plus_Raise _ _ Hq).
Qed.

(** Among values that [str] prints, [urlencode] fails on a text that cannot
    be encoded, and only there. *)
Lemma items_Raise (params : dict value) (e : exc) :
  Forall (fun kv => plain (fst kv)) params ->
  Forall prints params ->
  rmap_list urlencode_item params = Raise e ->
  e = UnicodeEncodeError
  /\ Exists (fun s => Codec.utf8_encode s = None) (map (fun kv => to_str (snd kv)) params).
Proof.
  intros Hk Hp Hl. apply rmap_list_Raise in Hl. destruct Hl as [kv [Hin Hkv]].
  rewrite Forall_forall in Hk, Hp.
  destruct (urlencode_item_Raise kv e (Hk kv Hin) (Hp kv Hin) Hkv) as [-> Hn].
  split; [reflexivity |]. apply Exists_exists. exists (to_str (snd kv)).
  split; [| exact Hn]. apply in_map_iff. now exists kv.
Qed.

Lemma items_Ok (params : dict value) (l : list str) :
  Forall (fun kv => plain (fst kv)) params ->
  rmap_list urlencode_item params = Ok l ->
  Forall encodable (map (fun kv => to_str (snd kv)) params).
Proof.
  intros Hk Hl. apply rmap_list_Forall2 in Hl.
  induction Hl as [| kv s params l Hs Hl IH]; simpl; constructor.
  - inversion Hk; subst. now apply (urlencode_item_Ok kv s).
  - inversion Hk; subst. now apply IH.
Qed.

Lemma query_if_params_Raise (params : dict value) (e : exc) :
  query_if_params params = Raise e -> rmap_list urlencode_item params = Raise e.
Proof.
  unfold query_if_params. destruct (nonempty params); [| discriminate].
  unfold urlencode.
  destruct (rmap_list urlencode_item params) as [l | e'] eqn:Hl; cbn [rbind];
    [discriminate | congruence].
Qed.

Lemma prints_str (k : str) (o : option str) : prints (k, of_opt_str o).
Proof. destruct o; reflexivity. Qed.

(** Every call is printable but a [list_chunks] with a [max_tokens] of too
    many digits. *)
Lemma printable_or_not (c : call) :
  printable c
  \/ exists pa l r m,
       c = ListChunks pa l r (Some m) /\ int_max_str_digits < digit_count m.
Proof.
  assert (F : forall g (d : dict value), Forall prints d -> Forall prints (comprehension g d)).
  { intros g d H. unfold comprehension. rewrite Forall_forall in *.
    intros kv Hin. apply filter_In in Hin. now apply H. }
  unfold printable.
  destruct c as [i e r | pa l r m | pa r | ch r | q g r | q r]; unfold sent;
    cbn [required optional gate app].
  - left. apply F. repeat constructor; apply prints_str.
  - destruct m as [m |].
    + destruct (int_max_str_digits <? digit_count m) eqn:Hd.
      * right. apply N.ltb_lt in Hd. now exists pa, l, r, m.
      * left. apply F. repeat constructor; try apply prints_str.
        unfold prints. cbn [snd of_opt_int str_ to_str]. unfold str_int. now rewrite Hd.
    + left. apply F. repeat constructor; try apply prints_str.
  - left. apply Forall_cons; [reflexivity |]. apply F. repeat constructor; apply prints_str.
  - left. apply F. repeat constructor; apply prints_str.
  - left. apply Forall_cons; [reflexivity |]. apply F. repeat constructor; apply prints_str.
  - left. apply F. repeat constructor; apply prints_str.
Qed.

(** The methods that assemble a mapping all build their path alike. *)
Lemma path_of_mapping (c : call) (d : dict value) :
  params_of c = Some d ->
  exists ep, endpoint c = Ok ep
             /\ path_of c = rbind (query_if_params (sent c)) (fun q => Ok (ep ++ q)).
Proof.
  intros Hd. pose proof (params_of_sent c d Hd) as Hs.
  destruct c as [i e r | pa l r m | pa r | ch r | q g r | q r]; simpl in Hd;
    [ | | | discriminate Hd | | ]; injection Hd as Hd; subst d;
    eexists; (split; [reflexivity |]); simpl;
    unfold list_files_path, list_chunks_path, get_file_path, search_path,
      search_symbols_path;
    rewrite ?query_always_if_params; rewrite ?Hs; try reflexivity;
    apply sent_nonempty_required; discriminate.
Qed.

Lemma path_of_Ok_encodable (c : call) (p : str) :
  path_of c = Ok p -> Forall encodable (texts c).
Proof.
  intros Hp. destruct (path_of_shape c p Hp) as [ep [items [Hep [_ [_ H]]]]].
  unfold texts. apply Forall_app. split.
  - destruct c; try constructor; [| constructor]. simpl in Hep.
    destruct (quote chunk_id (lit "/")) as [e |] eqn:He; [| discriminate].
    now apply (quote_Ok_encodable _ _ _ He).
  - clear Hp Hep. induction H as [| kv it d items' [_ He] _ IH]; simpl; constructor.
    + now apply (encoded_Ok_encodable c _ _ He).
    + exact IH.
Qed.

(** The path of [get_chunk] fails on a text that cannot be encoded. *)
Lemma get_chunk_path_Raise (ch : str) (r : option str) (e : exc) :
  get_chunk_path ch r = Raise e ->
  e = UnicodeEncodeError
  /\ Exists (fun s => Codec.utf8_encode s = None) (texts (GetChunk ch r)).
Proof.
  intros Hp. unfold get_chunk_path in Hp. unfold texts, sent. simpl.
  destruct r as [[| a r'] |]; cbn [rbind] in Hp.
  - destruct (quote ch (lit "/")) as [q | x] eqn:Hq; cbn [rbind] in Hp; [discriminate |].
    injection Hp as <-. destruct (quote_Raise _ _ _ Hq) as [-> Hn].
    split; [reflexivity | now constructor].
  - destruct (quote (a :: r') (lit "/")) as [qr | x] eqn:Hr; cbn [rbind] in Hp.
    + destruct (quote ch (lit "/")) as [q | x] eqn:Hq; cbn [rbind] in Hp; [discriminate |].
      injection Hp as <-. destruct (quote_Raise _ _ _ Hq) as [-> Hn].
      split; [reflexivity | now constructor].
    + injection Hp as <-. destruct (quote_Raise _ _ _ Hr) as [-> Hn].
      split; [reflexivity |]. apply Exists_cons_tl. now constructor.
  - destruct (quote ch (lit "/")) as [q | x] eqn:Hq; cbn [rbind] in Hp; [discriminate |].
    injection Hp as <-. destruct (quote_Raise _ _ _ Hq) as [-> Hn].
    split; [reflexivity | now constructor].
Qed.

(** A path is not built for one of two reasons: a text that cannot be
    encoded, met first; or, all texts being encodable, an integer that
    [str] does not print. *)
Lemma path_of_Raise (c : call) (e : exc) :
  path_of c = Raise e ->
  (e = UnicodeEncodeError /\ Exists (fun s => Codec.utf8_encode s = None) (texts c))
  \/ (e = ValueError /\ Forall encodable (texts c) /\ ~ printable c).
Proof.
  intros Hp. destruct (params_of c) as [d |] eqn:Hd.
  - destruct (path_of_mapping c d Hd) as [ep [_ Hpath]]. rewrite Hpath in Hp.
    destruct (query_if_params (sent c)) as [q | x] eqn:Hq; cbn [rbind] in Hp;
      [discriminate |].
    injection Hp as <-. apply query_if_params_Raise in Hq.
    assert (Ht : texts c = map (fun kv => to_str (snd kv)) (sent c))
      by (destruct c; try reflexivity; discriminate Hd).
    destruct (printable_or_not c) as [Hpr | [pa [l [r [m [-> Hbig]]]]]].
    + left. rewrite Ht. exact (items_Raise _ _ (sent_keys_plain c) Hpr Hq).
    + pose proof (sent_keys_plain (ListChunks pa l r (Some m))) as Hk.
      assert (Hs : sent (ListChunks pa l r (Some m))
                   = comprehension is_not_None
                       [(lit "path", of_opt_str pa); (lit "lang", of_opt_str l);
                        (lit "ref", of_opt_str r)]
                     ++ [(lit "maxTokens", PyInt m)]).
      { unfold sent. cbn [required optional gate app of_opt_int]. unfold comprehension.
        change [(lit "path", of_opt_str pa); (lit "lang", of_opt_str l);
                (lit "ref", of_opt_str r); (lit "maxTokens", PyInt m)]
          with ([(lit "path", of_opt_str pa); (lit "lang", of_opt_str l);
                 (lit "ref", of_opt_str r)] ++ [(lit "maxTokens", PyInt m)]).
        now rewrite filter_app. }
      rewrite Ht. rewrite Hs in Hq, Hk |- *. clear Ht.
      apply Forall_app in Hk. destruct Hk as [Hk1 Hk2].
      assert (Hpr : Forall prints
                      (comprehension is_not_None
                         [(lit "path", of_opt_str pa); (lit "lang", of_opt_str l);
                          (lit "ref", of_opt_str r)])).
      { unfold comprehension. rewrite Forall_forall. intros kv Hin.
        apply filter_In in Hin. destruct Hin as [Hin _].
        repeat (destruct Hin as [<- | Hin]; [apply prints_str |]). destruct Hin. }
      assert (Hint : urlencode_item (lit "maxTokens", PyInt m) = Raise ValueError).
      { unfold urlencode_item. cbn [fst snd str_]. unfold str_int.
        apply N.ltb_lt in Hbig. rewrite Hbig.
        rewrite plain_quote_plus by (inversion Hk2; assumption). reflexivity. }
      rewrite rmap_list_app in Hq.
      destruct (rmap_list urlencode_item (comprehension is_not_None _)) as [ys | x']
        eqn:Hstrs; cbn [rbind] in Hq.
      * right. cbn [rmap_list] in Hq. rewrite Hint in Hq. cbn [rbind] in Hq.
        injection Hq as <-. split; [reflexivity | split].
        -- rewrite map_app. apply Forall_app. split.
           ++ exact (items_Ok _ _ Hk1 Hstrs).
           ++ repeat constructor. cbn [snd to_str]. unfold encodable.
              now rewrite (plain_utf8_encode _ (str_of_int_plain m)).
        -- unfold printable. rewrite Hs. intros H. apply Forall_app in H.
           destruct H as [_ H].
           apply Forall_inv in H. rename H into Hm. unfold prints in Hm.
           cbn [snd str_] in Hm. unfold str_int in Hm.
           apply N.ltb_lt in Hbig. rewrite Hbig in Hm. discriminate Hm.
      * left. injection Hq as <-.
        destruct (items_Raise _ _ Hk1 Hpr Hstrs) as [-> Hex].
        split; [reflexivity |]. rewrite map_app. apply Exists_app. now left.
  - destruct c as [| | | ch r | |]; try discriminate Hd. left.
    now apply get_chunk_path_Raise.
Qed.

Section Encoding.

Variable NetState : Type.
Variable rt : Runtime NetState.

Let World : Type := Client.World NetState.

(** X7. The path of a call is built whenever every text it has to encode
    (the chunk id, the values of the parameters sent) can be encoded as
    UTF-8 and the [max_tokens] of [list_chunks], if given, has no more than
    4300 digits.  When one of the texts cannot be encoded (a lone
    surrogate), the call raises [UnicodeEncodeError]; when they all can and
    [max_tokens] has more than 4300 digits, it raises the [ValueError] of
    [str].  Either way the transport is not touched: the state is as
    before. *)
Theorem unencodable_argument_raises (c : call) (w : World) :
  (Forall encodable (texts c) -> printable c -> exists p, path_of c = Ok p)
  /\ (Exists (fun s => Codec.utf8_encode s = None) (texts c) ->
      invoke rt c w = (Raise UnicodeEncodeError, w))
  /\ (forall pa l r m,
        c = ListChunks pa l r (Some m) ->
        int_max_str_digits < digit_count m ->
        Forall encodable (texts c) ->
        invoke rt c w = (Raise ValueError, w)).
Proof.
  assert (Hno : forall s, In s (texts c) -> Forall encodable (texts c) ->
                          Codec.utf8_encode s = None -> False).
  { intros s Hin Hall Hn. rewrite Forall_forall in Hall. now destruct (Hall s Hin). }
  split; [| split].
  - intros Hall Hpr. destruct (path_of c) as [p | e] eqn:Hp; [now exists p |].
    destruct (path_of_Raise c e Hp) as [[_ Hex] | [_ [_ Hn]]]; [| now destruct Hn].
    apply Exists_exists in Hex. destruct Hex as [s [Hin Hn]].
    now destruct (Hno s Hin Hall Hn).
  - intros Hex. rewrite invoke_run. destruct (path_of c) as [p | e] eqn:Hp.
    + pose proof (path_of_Ok_encodable c p Hp) as Hall.
      apply Exists_exists in Hex. destruct Hex as [s [Hin Hn]].
      now destruct (Hno s Hin Hall Hn).
    + destruct (path_of_Raise c e Hp) as [[-> _] | [_ [Hall _]]]; [reflexivity |].
      apply Exists_exists in Hex. destruct Hex as [s [Hin Hn]].
      now destruct (Hno s Hin Hall Hn).
  - intros pa l r m -> Hbig Hall. rewrite invoke_run.
    destruct (path_of (ListChunks pa l r (Some m))) as [p | e] eqn:Hp.
    + exfalso. destruct (path_of_shape _ p Hp) as [ep [items [_ [_ [_ Hf]]]]].
      clear Hall. revert Hp. cbn [path_of]. unfold list_chunks_path, query_if_params.
      replace (list_chunks_params pa l r (Some m))
        with (sent (ListChunks pa l r (Some m))) by reflexivity.
      assert (Hin : In (lit "maxTokens", PyInt m) (sent (ListChunks pa l r (Some m)))).
      { apply gated_In_sent; [| reflexivity]. simpl. tauto. }
      destruct (sent (ListChunks pa l r (Some m))) as [| kv d] eqn:Hs; [destruct Hin |].
      cbn [nonempty]. unfold urlencode.
      destruct (rmap_list urlencode_item (kv :: d)) as [ys | x] eqn:Hl; cbn [rbind];
        [| discriminate].
      intros _. destruct (rmap_list_Ok_In _ _ _ _ Hl Hin) as [y Hy].
      revert Hy. unfold urlencode_item. cbn [fst snd str_]. unfold str_int.
      apply N.ltb_lt in Hbig. rewrite Hbig.
      destruct (quote_plus (lit "maxTokens") []); discriminate.
    + destruct (path_of_Raise _ e Hp) as [[_ Hex] | [-> _]]; [| reflexivity].
      apply Exists_exists in Hex. destruct Hex as [s [Hin Hn]].
      now destruct (Hno s Hin Hall Hn).
Qed.

End Encoding.

(* ===================================================================== *)
(** ** The characters of a path *)
(* ===================================================================== *)

Lemma url_text_app (a b : str) : url_text a -> url_text b -> url_text (a ++ b).
Proof.
  induction 1; intros Hb; simpl; [assumption | |].
  - apply url_plain; auto.
  - apply url_escape; auto.
Qed.

Lemma hexdigit_upper (n : N) : is_hex_upper (hexdigit n) = true.
Proof.
  unfold hexdigit, is_hex_upper.
  destruct (nth_in_or_default (N.to_nat n) (lit "0123456789ABCDEF") 48) as [Hin | Hd].
  - now apply mem_In.
  - rewrite Hd. reflexivity.
Qed.

Lemma hex_upper_not_space (h : N) : is_hex_upper h = true -> space_to_plus h = h.
Proof.
  intros H. unfold space_to_plus. destruct (h =? 32) eqn:E; [| reflexivity].
  apply N.eqb_eq in E. subst. discriminate H.
Qed.

(** Quoted bytes, with [g] applied to every character that stands for
    itself. *)
Lemma quoted_url_text (g : N -> N) (safe : bytes) (bs : bytes) :
  (forall b, mem b (ALWAYS_SAFE ++ safe) = true -> url_char (g b) = true) ->
  g 37 = 37 ->
  (forall h, is_hex_upper h = true -> g h = h) ->
  url_text (map g (flat_map (quoter safe) bs)).
Proof.
  intros Hsafe H37 Hhex. induction bs as [| b bs IH]; simpl; [constructor |].
  rewrite map_app. apply url_text_app; [| exact IH].
  unfold quoter. destruct (mem b (ALWAYS_SAFE ++ safe)) eqn:Hb; simpl.
  - apply url_plain; [now apply Hsafe | constructor].
  - rewrite H37, !Hhex by apply hexdigit_upper.
    apply url_escape; [apply hexdigit_upper | apply hexdigit_upper | constructor].
Qed.

Lemma safe_url_char (b : N) : mem b ALWAYS_SAFE = true -> url_char b = true.
Proof.
  intros H. unfold url_char. rewrite mem_app, H. reflexivity.
Qed.

Lemma quote_url_text (s safe e : str) :
  (forall b, In b safe -> url_char b = true) ->
  quote s safe = Ok e -> url_text e.
Proof.
  intros Hsafe H. apply quote_spec in H. destruct H as [bs [_ ->]].
  unfold quote_from_bytes.
  rewrite <- (map_id (flat_map _ bs)). apply quoted_url_text; trivial.
  intros b Hb. rewrite mem_app in Hb. apply orb_true_iff in Hb.
  destruct Hb as [Hb | Hb]; [now apply safe_url_char |].
  apply mem_In in Hb. apply filter_In in Hb. now apply Hsafe.
Qed.

Lemma quote_plus_url_text (s e : str) : quote_plus s [] = Ok e -> url_text e.
Proof.
  unfold quote_plus. destruct (mem 32 s).
  - destruct (quote s ([] ++ [32])) as [q |] eqn:Hq; cbn [rbind]; [| discriminate].
    intros [= <-]. apply quote_spec in Hq. destruct Hq as [bs [_ ->]].
    unfold quote_from_bytes. change (replace_char 32 43) with (map space_to_plus).
    apply quoted_url_text.
    + intros b Hb. rewrite mem_app in Hb. apply orb_true_iff in Hb.
      destruct Hb as [Hb | Hb].
      * unfold space_to_plus. destruct (b =? 32); [reflexivity | now apply safe_url_char].
      * simpl in Hb. unfold mem in Hb. simpl in Hb. rewrite orb_false_r in Hb.
        unfold space_to_plus. rewrite Hb. reflexivity.
    + reflexivity.
    + apply hex_upper_not_space.
  - apply quote_url_text. intros b [].
Qed.

Lemma slash_url_char (b : N) : In b (lit "/") -> url_char b = true.
Proof. intros [<- | []]. reflexivity. Qed.

Lemma encoded_url_text (c : call) (v : value) (e : str) :
  encoded c v = Ok e -> url_text e.
Proof.
  destruct c; simpl; try apply quote_plus_url_text.
  apply quote_url_text. intros b [<- | []]. reflexivity.
Qed.

Lemma plain_url_text (s : str) : plain s -> url_text s.
Proof.
  induction 1 as [| c s Hc Hs IH]; [constructor |].
  apply url_plain; [now apply safe_url_char | exact IH].
Qed.

Lemma literal_url_text (s : string) :
  forallb url_char (lit s) = true -> url_text (lit s).
Proof.
  generalize (lit s). intros l. induction l as [| c l IH]; simpl; [constructor |].
  intros H. apply andb_true_iff in H. destruct H as [Hc Hl].
  apply url_plain; auto.
Qed.

Lemma item_url_text (it : str * str) :
  url_text (fst it) -> url_text (snd it) -> url_text (item_string it).
Proof.
  intros Hk Hv. unfold item_string. apply url_text_app; [assumption |].
  apply url_text_app; [now apply literal_url_text | assumption].
Qed.

Lemma join_url_text (l : list str) :
  Forall url_text l -> url_text (join (lit "&") l).
Proof.
  induction 1 as [| x l Hx Hl IH]; [constructor |].
  destruct l as [| y l']; [exact Hx |].
  change (join (lit "&") (x :: y :: l')) with (x ++ lit "&" ++ join (lit "&") (y :: l')).
  apply url_text_app; [assumption |].
  apply url_text_app; [now apply literal_url_text | exact IH].
Qed.

Lemma render_url_text (items : list (str * str)) :
  Forall (fun it => url_text (fst it) /\ url_text (snd it)) items ->
  url_text (render items).
Proof.
  intros H. destruct items as [| it items']; [constructor |].
  unfold render. apply url_text_app; [now apply literal_url_text |].
  apply join_url_text. apply Forall_map. revert H. apply Forall_impl.
  intros a [Hk Hv]. now apply item_url_text.
Qed.

Lemma url_text_ascii (s : str) : url_text s -> Forall (fun c => c < 128) s.
Proof.
  assert (Hc : forall c, url_char c = true -> c < 128).
  { intros c H. apply mem_In in H. cbv in H.
    repeat (destruct H as [<- | H]; [reflexivity |]). contradiction. }
  assert (Hh : forall c, is_hex_upper c = true -> c < 128).
  { intros c H. apply mem_In in H. cbv in H.
    repeat (destruct H as [<- | H]; [reflexivity |]). contradiction. }
  induction 1; repeat constructor; auto.
Qed.

Lemma items_url_text (c : call) (d : dict value) (items : list (str * str)) :
  Forall (fun kv => plain (fst kv)) d -> Forall2 (stands_for c) d items ->
  Forall (fun it => url_text (fst it) /\ url_text (snd it)) items.
Proof.
  intros Hk H. induction H as [| kv it d items' [Hf He] _ IH]; [constructor |].
  inversion Hk; subst. constructor; [| now apply IH].
  split; [rewrite Hf; now apply plain_url_text | now apply (encoded_url_text c _ _ He)].
Qed.

Lemma path_url_text (c : call) (p : str) : path_of c = Ok p -> url_text p.
Proof.
  intros Hp. destruct (path_of_shape c p Hp) as [ep [items [Hep [_ [-> H]]]]].
  apply url_text_app.
  - destruct c; simpl in Hep; try (injection Hep as <-; now apply literal_url_text).
    destruct (quote chunk_id (lit "/")) as [e |] eqn:He; cbn [rbind] in Hep;
      [| discriminate].
    injection Hep as <-.
    change (url_text (lit "/chunks/" ++ e)).
    apply url_text_app; [now apply literal_url_text |].
    apply (quote_url_text _ _ _ slash_url_char He).
  - apply render_url_text.
    apply (items_url_text c (sent c)); [apply sent_keys_plain | exact H].
Qed.

(** X9. Every path is written in ASCII with the characters of a URL, and
    each of its percent signs starts an escape of two upper-case hexadecimal
    digits. *)
Theorem path_is_url_text (c : call) (p : str) :
  path_of c = Ok p -> url_text p /\ Forall (fun ch => ch < 128) p.
Proof.
  intros Hp. pose proof (path_url_text c p Hp) as H.
  split; [exact H | now apply url_text_ascii].
Qed.

(** Every path starts with a slash. *)
Lemma path_of_slash (c : call) (p : str) : path_of c = Ok p -> exists r, p = 47 :: r.
Proof.
  intros Hp. destruct (path_of_shape c p Hp) as [ep [items [Hep [_ [-> _]]]]].
  destruct c; simpl in Hep; try (injection Hep as <-; eexists; reflexivity).
  destruct (quote chunk_id (lit "/")) as [q |]; [| discriminate].
  injection Hep as <-. eexists. reflexivity.
Qed.

(** The characters of a path are neither white space nor the mark of a
    fragment. *)
Lemma url_text_clean (s : str) :
  url_text s -> Forall (fun c => isspace c = false /\ (c =? 35) = false) s.
Proof.
  assert (Hc : forall c, url_char c = true -> isspace c = false /\ (c =? 35) = false).
  { intros c H. apply mem_In in H. cbv in H.
    repeat (destruct H as [<- | H]; [split; reflexivity |]). contradiction. }
  assert (Hh : forall c, is_hex_upper c = true -> isspace c = false /\ (c =? 35) = false).
  { intros c H. apply mem_In in H. cbv in H.
    repeat (destruct H as [<- | H]; [split; reflexivity |]). contradiction. }
  induction 1 as [| c s Hch _ IH | h1 h2 s H1 H2 _ IH].
  - constructor.
  - constructor; [now apply Hc | exact IH].
  - constructor; [split; reflexivity |].
    constructor; [now apply Hh |]. constructor; [now apply Hh | exact IH].
Qed.

Lemma rstrip_clean (s : str) : Forall (fun c => isspace c = false) s -> rstrip s = s.
Proof.
  induction 1 as [| c r Hc Hr IH]; [reflexivity |].
  cbn [rstrip]. rewrite IH. destruct r; [now rewrite Hc | reflexivity].
Qed.

(** [Request] keeps the URL of a call to [http://localhost:8080] as it is
    written. *)
Lemma localhost_as_written (p : str) :
  url_text p -> as_written (lit "http://localhost:8080" ++ p) = true.
Proof.
  intros Hu. apply url_text_clean in Hu.
  assert (Hs : Forall (fun c => isspace c = false) (lit "http://localhost:8080" ++ p)).
  { apply Forall_app. split; [repeat constructor |].
    eapply Forall_impl; [| exact Hu]. now intros c [H _]. }
  assert (Hf : mem 35 (lit "http://localhost:8080" ++ p) = false).
  { rewrite mem_app. apply orb_false_iff. split; [reflexivity |].
    apply mem_false_not_In. intros Hin. rewrite Forall_forall in Hu.
    destruct (Hu 35 Hin) as [_ H]. discriminate H. }
  unfold as_written. rewrite Hf. cbn [negb]. rewrite andb_true_r. apply str_eqb_eq.
  unfold unwrap, strip.
  change (lstrip (lit "http://localhost:8080" ++ p)) with (lit "http://localhost:8080" ++ p).
  rewrite (rstrip_clean _ Hs). reflexivity.
Qed.


(* ===================================================================== *)
(** ** UTF-8 and quoting, there and back *)
(* ===================================================================== *)

Ltac div_lia := zify; Z.to_euclidean_division_equations; lia.

Lemma testbit_above (b n m : N) : b < 2 ^ n -> n <= m -> N.testbit b m = false.
Proof.
  intros Hb Hm. destruct (N.eq_dec b 0) as [-> | Hne]; [apply N.bits_0 |].
  apply N.bits_above_log2. apply N.lt_le_trans with n; [| assumption].
  apply N.log2_lt_pow2; [lia | assumption].
Qed.

Lemma lor_pow2 (a b n : N) : b < 2 ^ n -> N.lor (a * 2 ^ n) b = a * 2 ^ n + b.
Proof.
  intros Hb.
  assert (H : N.land (a * 2 ^ n) b = 0).
  { apply N.bits_inj. intros m. rewrite N.land_spec, N.bits_0.
    destruct (N.lt_ge_cases m n) as [Hm | Hm].
    - now rewrite N.mul_pow2_bits_low.
    - rewrite (testbit_above b n m) by assumption. apply andb_false_r. }
  rewrite <- N.lxor_lor by assumption. symmetry. now apply N.add_nocarry_lxor.
Qed.

Lemma land_low (a n : N) : N.land a (N.ones n) = a mod 2 ^ n.
Proof. apply N.land_ones. Qed.

Lemma cont_bits_mod (b : N) : Codec.cont_bits b = b mod 64.
Proof. unfold Codec.cont_bits. change 0x3F with (N.ones 6). now rewrite N.land_ones. Qed.

(** The encoder, in arithmetic. *)
Lemma utf8_encode_char_arith (c : N) :
  Codec.utf8_encode_char c =
  if c <? 0x80 then Some [c]
  else if c <? 0x800 then Some [192 + c / 64; 128 + c mod 64]
  else if c <? 0x10000 then
    if Codec.is_surrogate c then None
    else Some [224 + c / 4096; 128 + (c / 64) mod 64; 128 + c mod 64]
  else if c <? 0x110000 then
    Some [240 + c / 262144; 128 + (c / 4096) mod 64; 128 + (c / 64) mod 64;
          128 + c mod 64]
  else None.
Proof.
  unfold Codec.utf8_encode_char.
  change 0x3F with (N.ones 6). rewrite !N.land_ones, !N.shiftr_div_pow2.
  change (2 ^ 6) with 64. change (2 ^ 12) with 4096. change (2 ^ 18) with 262144.
  assert (H80 : forall x, N.lor 0x80 (x mod 64) = 128 + x mod 64).
  { intros x. change 0x80 with (2 * 2 ^ 6). rewrite lor_pow2; [reflexivity |].
    change (2 ^ 6) with 64. apply N.mod_lt. discriminate. }
  rewrite !H80.
  destruct (c <? 0x80) eqn:E1; [reflexivity |].
  destruct (c <? 0x800) eqn:E2.
  { apply N.ltb_lt in E2. change 0xC0 with (3 * 2 ^ 6). rewrite lor_pow2; [reflexivity |].
    change (2 ^ 6) with 64. div_lia. }
  destruct (c <? 0x10000) eqn:E3.
  { destruct (Codec.is_surrogate c); [reflexivity |].
    apply N.ltb_lt in E3. change 0xE0 with (14 * 2 ^ 4). rewrite lor_pow2; [reflexivity |].
    change (2 ^ 4) with 16. div_lia. }
  destruct (c <? 0x110000) eqn:E4; [| reflexivity].
  apply N.ltb_lt in E4. change 0xF0 with (30 * 2 ^ 3). rewrite lor_pow2; [reflexivity |].
  change (2 ^ 3) with 8. div_lia.
Qed.

Lemma utf8_decode_cons (b0 : N) (r0 : bytes) :
  Codec.utf8_decode (b0 :: r0) =
  if b0 <? 0x80 then option_map (cons b0) (Codec.utf8_decode r0)
  else if Codec.in_range 0xC2 0xDF b0 then
    match r0 with
    | b1 :: r1 =>
        if Codec.is_cont b1 then
          option_map (cons (N.lor (N.shiftl (N.land b0 0x1F) 6) (Codec.cont_bits b1)))
                     (Codec.utf8_decode r1)
        else None
    | _ => None
    end
  else if Codec.in_range 0xE0 0xEF b0 then
    match r0 with
    | b1 :: b2 :: r2 =>
        if Codec.in_range (if b0 =? 0xE0 then 0xA0 else 0x80)
                          (if b0 =? 0xED then 0x9F else 0xBF) b1
           && Codec.is_cont b2 then
          option_map
            (cons (N.lor (N.shiftl (N.land b0 0x0F) 12)
                         (N.lor (N.shiftl (Codec.cont_bits b1) 6) (Codec.cont_bits b2))))
            (Codec.utf8_decode r2)
        else None
    | _ => None
    end
  else if Codec.in_range 0xF0 0xF4 b0 then
    match r0 with
    | b1 :: b2 :: b3 :: r3 =>
        if Codec.in_range (if b0 =? 0xF0 then 0x90 else 0x80)
                          (if b0 =? 0xF4 then 0x8F else 0xBF) b1
           && Codec.is_cont b2 && Codec.is_cont b3 then
          option_map
            (cons (N.lor (N.shiftl (N.land b0 0x07) 18)
                         (N.lor (N.shiftl (Codec.cont_bits b1) 12)
                                (N.lor (N.shiftl (Codec.cont_bits b2) 6)
                                       (Codec.cont_bits b3)))))
            (Codec.utf8_decode r3)
        else None
    | _ => None
    end
  else None.
Proof. reflexivity. Qed.

Ltac decide_test :=
  match goal with
  | |- context [?a <? ?b] =>
      first [ replace (a <? b) with true by (symmetry; apply N.ltb_lt; div_lia)
            | replace (a <? b) with false by (symmetry; apply N.ltb_ge; div_lia) ]
  | |- context [?a <=? ?b] =>
      first [ replace (a <=? b) with true by (symmetry; apply N.leb_le; div_lia)
            | replace (a <=? b) with false by (symmetry; apply N.leb_gt; div_lia) ]
  | |- context [?a =? ?b] =>
      first [ replace (a =? b) with true by (symmetry; apply N.eqb_eq; div_lia)
            | replace (a =? b) with false by (symmetry; apply N.eqb_neq; div_lia) ]
  end.

(** The value a lead byte and its continuation bytes stand for. *)
Lemma lead_bits (k n x : N) : x < 2 ^ n -> N.land (k * 2 ^ n + x) (N.ones n) = x.
Proof.
  intros Hx. rewrite N.land_ones. rewrite N.add_comm, N.Div0.mod_add.
  now apply N.mod_small.
Qed.

Lemma surrogate_range (c : N) :
  Codec.is_surrogate c = false -> c < 0xD800 \/ 0xDFFF < c.
Proof.
  unfold Codec.is_surrogate. intros H. apply andb_false_iff in H.
  destruct H as [H | H]; [apply N.leb_gt in H | apply N.leb_gt in H]; lia.
Qed.

(** Decoding undoes the encoding of one code point. *)
Lemma some_inj {A : Type} (a b : A) : Some a = Some b -> a = b.
Proof. congruence. Qed.

Lemma utf8_decode_encode_char (c : N) (bs r : bytes) :
  Codec.utf8_encode_char c = Some bs ->
  Codec.utf8_decode (bs ++ r) = option_map (cons c) (Codec.utf8_decode r).
Proof.
  rewrite utf8_encode_char_arith.
  destruct (c <? 0x80) eqn:E1.
  { intros H; apply some_inj in H; subst bs. cbn [app]. rewrite utf8_decode_cons, E1. reflexivity. }
  apply N.ltb_ge in E1.
  destruct (c <? 0x800) eqn:E2.
  { apply N.ltb_lt in E2. intros H; apply some_inj in H; subst bs. cbn [app]. rewrite utf8_decode_cons.
    unfold Codec.in_range, Codec.is_cont. rewrite cont_bits_mod.
    repeat decide_test. cbn [andb].
    f_equal. f_equal.
    change 0x1F with (N.ones 5). change 192 with (6 * 2 ^ 5).
    rewrite lead_bits by (change (2 ^ 5) with 32; div_lia).
    rewrite N.shiftl_mul_pow2, lor_pow2 by (change (2 ^ 6) with 64; div_lia).
    change (2 ^ 6) with 64. div_lia. }
  apply N.ltb_ge in E2.
  destruct (c <? 0x10000) eqn:E3.
  { apply N.ltb_lt in E3. destruct (Codec.is_surrogate c) eqn:Es; [discriminate |].
    apply surrogate_range in Es.
    intros H; apply some_inj in H; subst bs. cbn [app]. rewrite utf8_decode_cons.
    unfold Codec.in_range, Codec.is_cont. rewrite !cont_bits_mod.
    assert (Hb1 : (if 224 + c / 4096 =? 224 then 160 else 128) <= 128 + c / 64 mod 64
                  /\ 128 + c / 64 mod 64 <= (if 224 + c / 4096 =? 237 then 159 else 191)).
    { destruct (224 + c / 4096 =? 224) eqn:Ea; [apply N.eqb_eq in Ea | apply N.eqb_neq in Ea];
        (destruct (224 + c / 4096 =? 237) eqn:Eb;
         [apply N.eqb_eq in Eb | apply N.eqb_neq in Eb]); div_lia. }
    destruct Hb1 as [Hlo Hhi]. apply N.leb_le in Hlo, Hhi. rewrite Hlo, Hhi.
    repeat decide_test. cbn [andb].
    f_equal. f_equal.
    change 0x0F with (N.ones 4). change 224 with (14 * 2 ^ 4).
    rewrite lead_bits by (change (2 ^ 4) with 16; div_lia).
    rewrite !N.shiftl_mul_pow2.
    rewrite (lor_pow2 _ _ 6) by (change (2 ^ 6) with 64; div_lia).
    rewrite lor_pow2 by (change (2 ^ 6) with 64; change (2 ^ 12) with 4096; div_lia).
    change (2 ^ 6) with 64. change (2 ^ 12) with 4096. div_lia. }
  apply N.ltb_ge in E3.
  destruct (c <? 0x110000) eqn:E4; [| discriminate].
  apply N.ltb_lt in E4.
  intros H; apply some_inj in H; subst bs. cbn [app]. rewrite utf8_decode_cons.
  unfold Codec.in_range, Codec.is_cont. rewrite !cont_bits_mod.
  assert (Hb1 : (if 240 + c / 262144 =? 240 then 144 else 128) <= 128 + c / 4096 mod 64
                /\ 128 + c / 4096 mod 64 <= (if 240 + c / 262144 =? 244 then 143 else 191)).
  { destruct (240 + c / 262144 =? 240) eqn:Ea; [apply N.eqb_eq in Ea | apply N.eqb_neq in Ea];
      (destruct (240 + c / 262144 =? 244) eqn:Eb;
       [apply N.eqb_eq in Eb | apply N.eqb_neq in Eb]); div_lia. }
  destruct Hb1 as [Hlo Hhi]. apply N.leb_le in Hlo, Hhi. rewrite Hlo, Hhi.
  repeat decide_test. cbn [andb].
  f_equal. f_equal.
  change 0x07 with (N.ones 3). change 240 with (30 * 2 ^ 3).
  rewrite lead_bits by (change (2 ^ 3) with 8; div_lia).
  rewrite !N.shiftl_mul_pow2.
  rewrite (lor_pow2 _ _ 6) by (change (2 ^ 6) with 64; div_lia).
  rewrite (lor_pow2 _ _ 12)
    by (change (2 ^ 6) with 64; change (2 ^ 12) with 4096; div_lia).
  rewrite lor_pow2
    by (change (2 ^ 6) with 64; change (2 ^ 12) with 4096; change (2 ^ 18) with 262144;
        div_lia).
  change (2 ^ 6) with 64. change (2 ^ 12) with 4096. change (2 ^ 18) with 262144.
  div_lia.
Qed.

(** Decoding undoes the encoding. *)
Lemma utf8_decode_encode (s : str) (bs : bytes) :
  Codec.utf8_encode s = Some bs -> Codec.utf8_decode bs = Some s.
Proof.
  revert bs. induction s as [| c s IH]; simpl; intros bs.
  - intros H. apply some_inj in H. subst bs. reflexivity.
  - destruct (Codec.utf8_encode_char c) as [b |] eqn:Hc; [| discriminate].
    destruct (Codec.utf8_encode s) as [bs' |]; [| discriminate].
    intros H. apply some_inj in H. subst bs.
    rewrite (utf8_decode_encode_char c b bs' Hc), (IH bs' eq_refl). reflexivity.
Qed.

Lemma utf8_encode_injective (a b : str) (bs : bytes) :
  Codec.utf8_encode a = Some bs -> Codec.utf8_encode b = Some bs -> a = b.
Proof.
  intros Ha Hb. apply utf8_decode_encode in Ha, Hb. congruence.
Qed.

Lemma utf8_encode_char_octets (c : N) (bs : bytes) :
  Codec.utf8_encode_char c = Some bs -> Forall (fun b => b < 256) bs.
Proof.
  rewrite utf8_encode_char_arith.
  destruct (c <? 0x80) eqn:E1.
  { apply N.ltb_lt in E1. intros H. apply some_inj in H. subst bs.
    repeat constructor. lia. }
  destruct (c <? 0x800) eqn:E2.
  { apply N.ltb_lt in E2. intros H. apply some_inj in H. subst bs.
    repeat constructor; div_lia. }
  destruct (c <? 0x10000) eqn:E3.
  { apply N.ltb_lt in E3. destruct (Codec.is_surrogate c); [discriminate |].
    intros H. apply some_inj in H. subst bs. repeat constructor; div_lia. }
  destruct (c <? 0x110000) eqn:E4; [| discriminate].
  apply N.ltb_lt in E4. intros H. apply some_inj in H. subst bs.
  repeat constructor; div_lia.
Qed.

Lemma utf8_encode_octets (s : str) (bs : bytes) :
  Codec.utf8_encode s = Some bs -> Forall (fun b => b < 256) bs.
Proof.
  revert bs. induction s as [| c s IH]; simpl; intros bs.
  - intros H. apply some_inj in H. subst bs. constructor.
  - destruct (Codec.utf8_encode_char c) as [b |] eqn:Hc; [| discriminate].
    destruct (Codec.utf8_encode s) as [bs' |]; [| discriminate].
    intros H. apply some_inj in H. subst bs. apply Forall_app. split.
    + now apply (utf8_encode_char_octets c).
    + now apply IH.
Qed.

Lemma hex_value_hexdigit (n : N) : n < 16 -> hex_value (hexdigit n) = n.
Proof.
  intros Hn. rewrite <- (N2Nat.id n).
  assert (Hm : (N.to_nat n < 16)%nat) by lia.
  revert Hm. generalize (N.to_nat n). intros m Hm.
  do 16 (destruct m as [| m]; [reflexivity |]). lia.
Qed.

Lemma unquote_plain (c : N) (r : str) :
  c <> 37 -> unquote_to_bytes (c :: r) = c :: unquote_to_bytes r.
Proof.
  intros Hc. apply N.eqb_neq in Hc. cbn [unquote_to_bytes].
  destruct r as [| h1 [| h2 r']]; try reflexivity. now rewrite Hc.
Qed.

Lemma unquote_escape (h1 h2 : N) (r : str) :
  unquote_to_bytes (37 :: h1 :: h2 :: r)
  = (16 * hex_value h1 + hex_value h2) :: unquote_to_bytes r.
Proof. reflexivity. Qed.

Lemma unquote_quoter (safe : bytes) (b : N) (r : str) :
  mem 37 (ALWAYS_SAFE ++ safe) = false -> b < 256 ->
  unquote_to_bytes (quoter safe b ++ r) = b :: unquote_to_bytes r.
Proof.
  intros H37 Hb. unfold quoter. destruct (mem b (ALWAYS_SAFE ++ safe)) eqn:Hm.
  - cbn [app]. apply unquote_plain. intros ->. congruence.
  - cbn [app]. rewrite unquote_escape. f_equal.
    rewrite !hex_value_hexdigit; div_lia.
Qed.

Lemma unquote_quote_from_bytes (bs : bytes) (safe : str) :
  mem 37 safe = false -> Forall (fun b => b < 256) bs ->
  unquote_to_bytes (quote_from_bytes bs safe) = bs.
Proof.
  intros H37 Hbs. unfold quote_from_bytes.
  assert (H : mem 37 (ALWAYS_SAFE ++ filter (fun c => c <? 128) safe) = false).
  { rewrite mem_app. apply orb_false_iff. split; [reflexivity |].
    apply mem_false_not_In. intros Hin. apply filter_In in Hin.
    apply mem_false_not_In in H37. tauto. }
  induction Hbs as [| b bs Hb _ IH]; [reflexivity |].
  cbn [flat_map]. rewrite unquote_quoter by assumption. now rewrite IH.
Qed.

(** [quote] never gives the same text for two different texts. *)
Lemma quote_injective (a b safe e : str) :
  mem 37 safe = false -> quote a safe = Ok e -> quote b safe = Ok e -> a = b.
Proof.
  intros H37 Ha Hb. apply quote_spec in Ha, Hb.
  destruct Ha as [xa [Ha Ea]], Hb as [xb [Hb Eb]].
  assert (xa = xb).
  { rewrite <- (unquote_quote_from_bytes xa safe H37 (utf8_encode_octets _ _ Ha)).
    rewrite <- (unquote_quote_from_bytes xb safe H37 (utf8_encode_octets _ _ Hb)).
    congruence. }
  subst xb. exact (utf8_encode_injective a b xa Ha Hb).
Qed.

Lemma replace_space_injective (x y : str) :
  ~ In 43 x -> ~ In 43 y ->
  replace_char 32 43 x = replace_char 32 43 y -> x = y.
Proof.
  unfold replace_char. revert y. induction x as [| c x IH]; intros [| d y]; simpl;
    try discriminate; [reflexivity |].
  intros Hx Hy H. injection H as Hc Hr. f_equal.
  - destruct (c =? 32) eqn:Ec, (d =? 32) eqn:Ed;
      try apply N.eqb_eq in Ec; try apply N.eqb_eq in Ed; subst; try reflexivity; tauto.
  - apply IH; tauto.
Qed.

Lemma space_survives_quoting (s q : str) :
  In 32 s -> quote s ([] ++ [32]) = Ok q -> In 43 (replace_char 32 43 q).
Proof.
  intros Hin Hq. apply quote_spec in Hq. destruct Hq as [bs [Hbs ->]].
  assert (Hb : In 32 bs).
  { revert bs Hbs. induction s as [| c s IH]; [contradiction |]. simpl. intros bs.
    destruct (Codec.utf8_encode_char c) as [b |] eqn:Hc; [| discriminate].
    destruct (Codec.utf8_encode s) as [bs' |]; [| discriminate].
    intros H. apply some_inj in H. subst bs. apply in_or_app.
    destruct Hin as [-> | Hin].
    - left. apply some_inj in Hc. subst b. now left.
    - right. now apply IH. }
  unfold replace_char. apply in_map_iff. exists 32. split; [reflexivity |].
  unfold quote_from_bytes. apply in_flat_map. exists 32. split; [assumption |].
  now left.
Qed.

(** Nor does [quote_plus]. *)
Lemma quote_plus_injective (a b e : str) :
  quote_plus a [] = Ok e -> quote_plus b [] = Ok e -> a = b.
Proof.
  unfold quote_plus. intros Ha Hb.
  assert (Hplus : forall s q, quote s ([] ++ [32]) = Ok q -> ~ In 43 q).
  { intros s q Hq. now apply (quote_avoids 43 _ _ _ Hq). }
  assert (Hnone : forall s q, quote s [] = Ok q -> ~ In 43 q).
  { intros s q Hq. now apply (quote_avoids 43 _ _ _ Hq). }
  destruct (mem 32 a) eqn:Ma, (mem 32 b) eqn:Mb.
  - destruct (quote a ([] ++ [32])) as [qa |] eqn:Qa; cbn [rbind] in Ha; [| discriminate].
    destruct (quote b ([] ++ [32])) as [qb |] eqn:Qb; cbn [rbind] in Hb; [| discriminate].
    apply (quote_injective a b ([] ++ [32]) qa); [reflexivity | assumption |].
    rewrite Qb. f_equal. symmetry.
    apply replace_space_injective; [now apply (Hplus a) | now apply (Hplus b) | congruence].
  - destruct (quote a ([] ++ [32])) as [qa |] eqn:Qa; cbn [rbind] in Ha; [| discriminate].
    exfalso. apply (Hnone b e Hb).
    apply mem_In in Ma. pose proof (space_survives_quoting a qa Ma Qa). congruence.
  - destruct (quote b ([] ++ [32])) as [qb |] eqn:Qb; cbn [rbind] in Hb; [| discriminate].
    exfalso. apply (Hnone a e Ha).
    apply mem_In in Mb. pose proof (space_survives_quoting b qb Mb Qb). congruence.
  - now apply (quote_injective a b [] e).
Qed.

(** X10. What [str.encode] gives are octets, and [bytes.decode] gives the
    text back from them. *)
Theorem utf8_round_trip (s : str) (bs : bytes) :
  Codec.utf8_encode s = Some bs ->
  Codec.utf8_decode bs = Some s /\ Forall (fun b => b < 256) bs.
Proof.
  intros H. split; [now apply utf8_decode_encode | now apply (utf8_encode_octets s)].
Qed.

(* ===================================================================== *)
(** ** What a path tells *)
(* ===================================================================== *)

Lemma endpoint_path_component (c : call) (p : str) :
  path_of c = Ok p -> endpoint c = Ok (Wire.path_component p).
Proof.
  intros Hp. destruct (path_of_shape c p Hp) as [ep [items [Hep [Hq [-> _]]]]].
  rewrite path_component_render by assumption. exact Hep.
Qed.

Lemma same_items_same_texts (c1 c2 : call) (d1 d2 : dict value)
      (items : list (str * str)) :
  (forall v1 v2 e, encoded c1 v1 = Ok e -> encoded c2 v2 = Ok e -> to_str v1 = to_str v2) ->
  Forall2 (stands_for c1) d1 items -> Forall2 (stands_for c2) d2 items ->
  map key_text d1 = map key_text d2.
Proof.
  intros Hinj H1. revert d2. induction H1 as [| kv1 it d1 items [Hf1 He1] _ IH];
    intros d2 H2; inversion H2 as [| kv2 ? d2' ? [Hf2 He2] H2']; subst; [reflexivity |].
  simpl. f_equal; [| now apply IH].
  unfold key_text. f_equal; [congruence | exact (Hinj _ _ _ He1 He2)].
Qed.

Lemma chunk_id_of_path (a b : str) (r1 r2 : option str) (p : str) :
  get_chunk_path a r1 = Ok p -> get_chunk_path b r2 = Ok p -> a = b.
Proof.
  intros Ha Hb.
  pose proof (endpoint_path_component (GetChunk a r1) p Ha) as Ea.
  pose proof (endpoint_path_component (GetChunk b r2) p Hb) as Eb.
  simpl in Ea, Eb.
  destruct (quote a (lit "/")) as [qa |] eqn:Qa; cbn [rbind] in Ea; [| discriminate].
  destruct (quote b (lit "/")) as [qb |] eqn:Qb; cbn [rbind] in Eb; [| discriminate].
  rewrite <- Eb in Ea. apply (quote_injective a b (lit "/") qa); [reflexivity | assumption |].
  rewrite Qb. injection Ea as Ea. congruence.
Qed.

(** X11. Two different chunk ids never lead to the same path, whatever
    the refs. *)
Theorem chunk_ids_never_collide (a b : str) (r1 r2 : option str) (pa pb : str) :
  get_chunk_path a r1 = Ok pa -> get_chunk_path b r2 = Ok pb -> a <> b -> pa <> pb.
Proof.
  intros Ha Hb Hne Heq. subst pb. apply Hne. exact (chunk_id_of_path a b r1 r2 pa Ha Hb).
Qed.

(** X12. The path tells the endpoint and the parameters sent, names and
    values: two calls with the same path have both in common. *)
Theorem path_determines_parameters (c1 c2 : call) (p : str) :
  path_of c1 = Ok p -> path_of c2 = Ok p ->
  endpoint c1 = endpoint c2 /\ map key_text (sent c1) = map key_text (sent c2).
Proof.
  intros H1 H2.
  assert (He : endpoint c1 = endpoint c2).
  { rewrite (endpoint_path_component c1 p H1), (endpoint_path_component c2 p H2).
    reflexivity. }
  split; [exact He |].
  apply (same_items_same_texts c1 c2 _ _ (Wire.query_items p));
    [| now apply query_items_path_of | now apply query_items_path_of].
  intros v1 v2 e E1 E2.
  destruct c1, c2; simpl in E1, E2;
    try exact (quote_plus_injective _ _ _ E1 E2);
    try (apply (quote_injective _ _ (lit "/") e); [reflexivity | assumption | assumption]);
    exfalso; simpl in He;
    match type of He with
    | context [quote ?x ?s] => destruct (quote x s); cbn [rbind] in He
    end; discriminate He.
Qed.

(* ===================================================================== *)
(** ** The byte-order mark *)
(* ===================================================================== *)

Lemma utf8_decode_bom (rest : bytes) :
  Codec.utf8_decode (BOM ++ rest) = option_map (cons 0xFEFF) (Codec.utf8_decode rest).
Proof.
  unfold BOM. cbn [app]. rewrite utf8_decode_cons. reflexivity.
Qed.

Lemma loads_bom (depth : nat) (s : str) :
  Json.loads depth (0xFEFF :: s) = Raise JSONDecodeError.
Proof. reflexivity. Qed.

Section Marks.

Variable NetState : Type.
Variable rt : Runtime NetState.

Let World : Type := Client.World NetState.

(** X5. A body that starts with the UTF-8 byte-order mark never gives a
    value, under a status below 400: the mark is decoded as a character and
    [json.loads] rejects it, unless the rest of the body is not UTF-8 in the
    first place. *)
Theorem bom_body_raises (c : call) (p : str) (w : World) (req : Request)
        (resp : Response) (code : Z) (rest : bytes) (n : NetState) :
  path_of c = Ok p ->
  make_request rt (self w) p = Ok req ->
  urlopen rt req (net w) = (Ok resp, n) ->
  status resp = Some code ->
  (code < 400)%Z ->
  content resp = Done (BOM ++ rest) ->
  fst (invoke rt c w)
  = match Codec.utf8_decode rest with
    | Some _ => Raise JSONDecodeError
    | None => Raise UnicodeDecodeError
    end.
Proof.
  intros Hp Hreq Hopen Hst Hs Hc.
  rewrite invoke_run, Hp, request_run, Hreq, Hopen, Hst.
  apply Z.leb_gt in Hs. rewrite Hs. unfold decoded, Codec.decode. rewrite Hc.
  cbn [of_outcome rbind fst]. rewrite utf8_decode_bom.
  destruct (Codec.utf8_decode rest) as [d |]; cbn [option_map rbind]; [| reflexivity].
  apply loads_bom.
Qed.

End Marks.

(* ===================================================================== *)
(** ** What a server on localhost is asked for *)
(* ===================================================================== *)

Section Localhost.

Variable NetState : Type.
Variable rt : Runtime NetState.

Let World : Type := Client.World NetState.

(** X13. With the base URL [http://localhost:8080], the one request of a
    call whose URL [Request] accepts has for URL the base URL followed by
    the path, no fragment, and for selector the path itself. *)
Theorem localhost_requests_the_path (c : call) (p : str) (w : World) (req : Request) :
  path_of c = Ok p ->
  base_url (self w) = lit "http://localhost:8080" ->
  make_request rt (self w) p = Ok req ->
  requests (added (invoke rt c) w) = [req]
  /\ _full_url req = lit "http://localhost:8080" ++ p
  /\ fragment req = None
  /\ selector req = p.
Proof.
  intros Hp Hb Hreq.
  pose proof (localhost_as_written p (path_url_text c p Hp)) as Hw.
  pose proof (made_request_selector NetState rt _ _ _ Hreq) as Hsel.
  destruct (made_request NetState rt _ _ _ Hreq) as [Hsplit _].
  rewrite Hb in Hsel, Hsplit.
  unfold as_written in Hw. apply andb_true_iff in Hw. destruct Hw as [Hu Hf].
  apply str_eqb_eq in Hu. apply negb_true_iff in Hf.
  rewrite Hu, (splittag_none _ Hf) in Hsplit. rewrite Hu, (splittag_none _ Hf) in Hsel.
  injection Hsplit as H1 H2.
  split; [exact (invoke_request NetState rt c p w req Hp Hreq) |].
  split; [exact H1 | split; [exact H2 |]].
  rewrite Hsel. destruct (path_of_slash c p Hp) as [r ->]. reflexivity.
Qed.

End Localhost.

(* ===================================================================== *)
(** ** Where the claims on the response and on the URL fail as stated *)
(* ===================================================================== *)


(** C6, as stated, fails: the URL is validated and normalized by [Request].
    With an empty base URL there is no scheme, and [list_files()] raises
    [ValueError] without a request, whatever the runtime; with a base URL
    that starts with a space, the URL of the request is the concatenation
    without that space. *)
Lemma base_url_is_validated :
  invoke (canned ok_response) (ListFiles None None None) rootless
  = (Raise ValueError, rootless)
  /\ requests (added (invoke (canned ok_response) (ListFiles None None None)) rootless) = []
  /\ base_url (self spaced) ++ lit "/files" = lit " http://localhost:8080/files"
  /\ map full_url
         (requests (added (invoke (canned ok_response) (ListFiles None None None)) spaced))
     = [lit "http://localhost:8080/files"]
  /\ ~ (forall (w : World unit) (c : call) (p : str),
          path_of c = Ok p ->
          map full_url (requests (added (invoke (canned ok_response) c) w))
          = [base_url (self w) ++ p]).
Proof.
  split; [reflexivity | split; [reflexivity | split; [reflexivity | split; [reflexivity |]]]].
  intros H. specialize (H rootless (ListFiles None None None) (lit "/files") eq_refl).
  discriminate H.
Qed.

(* ===================================================================== *)
(** ** The properties at concrete inputs *)
(* ===================================================================== *)

Lemma http_error_preempts_status_test_witness :
  (_request (canned not_found) (lit "/files") start
   = (Raise (HTTPError 404 (Done (lit "no such file"))),
      opened start (bare_request (lit "http://localhost:8080/files")) tt)
   /\ reads (added (_request (canned not_found) (lit "/files")) start) = [])
  /\ (RecursionError = RecursionError
      /\ exists req resp n code,
           served nested_response req (net start) = (Done resp, n)
           /\ status resp = Some code /\ (200 <= code < 300)%Z).
Proof.
  split.
  - refine (proj1 (http_error_preempts_status_test unit python (served not_found) start
                     (lit "/files"))
                  (bare_request (lit "http://localhost:8080/files")) not_found tt 404%Z
                  eq_refl eq_refl eq_refl _).
    lia.
  - exact (proj2 (http_error_preempts_status_test unit (shallow python)
                    (served nested_response) start (lit "/files"))
                 RecursionError eq_refl eq_refl).
Defined.


Lemma get_chunk_path_quoted_witness :
  (requests (added (get_chunk (canned ok_response) (lit "a b") (Some (lit "main"))) start)
   = [bare_request (lit "http://localhost:8080/chunks/a%20b?ref=main")]
   /\ selector (bare_request (lit "http://localhost:8080/chunks/a%20b?ref=main"))
      = lit "/chunks/a%20b?ref=main")
  /\ get_chunk_path (lit "src/a b.py#1") (Some (lit "feature/x y"))
     = Ok (lit "/chunks/src/a%20b.py%231?ref=feature/x%20y").
Proof.
  split.
  - destruct (proj1 (proj2 (get_chunk_path_quoted unit (canned ok_response))) start
                    (bare_request (lit "http://localhost:8080/chunks/a%20b?ref=main"))
                    eq_refl) as [H1 [_ H3]].
    split; [exact H1 | exact (proj2 (H3 eq_refl))].
  - refine (proj2 (proj2 (get_chunk_path_quoted unit (canned ok_response)))
                  (lit "src/a b.py#1") (lit "feature/x y")
                  (lit "src/a%20b.py%231") (lit "feature/x%20y") _ eq_refl eq_refl).
    discriminate.
Defined.

Lemma request_url_verbatim_witness :
  requests (added (invoke (canned ok_response) (ListFiles None None None)) slashed)
  = [bare_request (lit "http://localhost:8080//files")]
  /\ invoke (canned ok_response) (ListFiles None None None) rootless
     = (Raise ValueError, rootless).
Proof.
  split.
  - exact (proj1 (proj1 (request_url_verbatim unit (canned ok_response)
                           (ListFiles None None None) (lit "/files") slashed eq_refl)
                        (bare_request (lit "http://localhost:8080//files")) eq_refl)).
  - exact (proj2 (proj2 (proj2 (request_url_verbatim unit (canned ok_response)
                                  (ListFiles None None None) (lit "/files") rootless
                                  eq_refl)))
                 eq_refl).
Defined.

Lemma empty_mapping_no_query_witness :
  (exists p, path_of (GetChunk (lit "a b") (Some [])) = Ok p)
  /\ endpoint (GetChunk (lit "a b") (Some [])) = Ok (lit "/chunks/a%20b")
  /\ Wire.query_string (lit "/chunks/a%20b") = None
  /\ requests (added (invoke (canned ok_response) (GetChunk (lit "a b") (Some []))) start)
     = [bare_request (lit "http://localhost:8080/chunks/a%20b")]
  /\ endpoint (SearchSymbols (Some []) None) = Ok (lit "/search/symbols")
  /\ requests (added (invoke (canned ok_response) (SearchSymbols (Some []) None)) start)
     = [bare_request (lit "http://localhost:8080/search/symbols")].
Proof.
  destruct (empty_mapping_no_query unit (canned ok_response)
              (GetChunk (lit "a b") (Some [])) start eq_refl) as [H1 H2].
  destruct (H2 (lit "/chunks/a%20b") eq_refl) as [Hep [_ [Hq Hreq]]].
  destruct (proj2 (empty_mapping_no_query unit (canned ok_response)
                     (SearchSymbols (Some []) None) start eq_refl)
                  (lit "/search/symbols") eq_refl) as [Hep' [_ [_ Hreq']]].
  split; [| split; [exact Hep | split; [exact Hq | split; [| split; [exact Hep' |]]]]].
  - apply H1. constructor; [discriminate | constructor].
  - exact (proj1 (Hreq (bare_request (lit "http://localhost:8080/chunks/a%20b")) eq_refl)).
  - exact (proj1 (Hreq' (bare_request (lit "http://localhost:8080/search/symbols"))
                        eq_refl)).
Defined.

Lemma optional_parameters_gated_witness :
  (Wire.occurrences (lit "include") (lit "/files?include=%2A.py") = 1%nat
   /\ exists e, quote_plus (lit "*.py") [] = Ok e
                /\ In (lit "include", e) (Wire.query_items (lit "/files?include=%2A.py")))
  /\ Wire.occurrences (lit "exclude") (lit "/files?include=%2A.py") = 0%nat.
Proof.
  split.
  - exact (proj2 (proj2 (optional_parameters_gated
                           (ListFiles (Some (lit "*.py")) (Some []) None)
                           (lit "/files?include=%2A.py") (lit "include")
                           (PyStr (lit "*.py")) eq_refl (or_introl eq_refl)))
                 eq_refl).
  - exact (proj1 (proj2 (optional_parameters_gated
                           (ListFiles (Some (lit "*.py")) (Some []) None)
                           (lit "/files?include=%2A.py") (lit "exclude")
                           (PyStr []) eq_refl (or_intror (or_introl eq_refl))))
                 eq_refl).
Defined.

Lemma list_chunks_max_tokens_witness :
  Wire.occurrences (lit "maxTokens") (lit "/chunks?ref=main&maxTokens=0") = 1%nat
  /\ In (lit "maxTokens", lit "0") (Wire.query_items (lit "/chunks?ref=main&maxTokens=0")).
Proof.
  exact (list_chunks_max_tokens None None (Some (lit "main")) (Some 0%Z)
           (lit "/chunks?ref=main&maxTokens=0") eq_refl).
Defined.

Lemma required_parameters_kept_witness :
  (requests (added (get_file (canned ok_response) [] None) start)
   = [bare_request (lit "http://localhost:8080/file?path=")]
   /\ selector (bare_request (lit "http://localhost:8080/file?path=")) = lit "/file?path=")
  /\ (requests (added (search (canned ok_response) [] None None) start)
      = [bare_request (lit "http://localhost:8080/search?q=")]
      /\ selector (bare_request (lit "http://localhost:8080/search?q=")) = lit "/search?q=")
  /\ Wire.occurrences (lit "q") (lit "/search?q=&ref=main") = 1%nat
  /\ In (lit "q", []) (Wire.query_items (lit "/search?q=&ref=main"))
  /\ requests (added (invoke (canned ok_response) (Search [] None (Some (lit "main"))))
                     start)
     = [bare_request (lit "http://localhost:8080/search?q=&ref=main")].
Proof.
  destruct (required_parameters_kept unit (canned ok_response)) as [_ [_ [Hf [Hs Hg]]]].
  destruct (Hf start (bare_request (lit "http://localhost:8080/file?path=")) eq_refl)
    as [Hf1 Hf2].
  destruct (Hs start (bare_request (lit "http://localhost:8080/search?q=")) eq_refl)
    as [Hs1 Hs2].
  destruct (Hg (Search [] None (Some (lit "main"))) (lit "/search?q=&ref=main")
               (lit "q") (PyStr []) eq_refl (or_introl eq_refl))
    as [Hocc [_ [Hempty Hreq]]].
  split; [split; [exact Hf1 | exact (proj2 (Hf2 eq_refl))] |].
  split; [split; [exact Hs1 | exact (proj2 (Hs2 eq_refl))] |].
  split; [exact Hocc | split; [exact (Hempty eq_refl) |]].
  exact (proj1 (Hreq start (bare_request (lit "http://localhost:8080/search?q=&ref=main"))
                     eq_refl)).
Defined.

Lemma chunk_id_slash_kept_witness :
  (requests (added (get_chunk (canned ok_response) (lit "a/b") None) start)
   = [bare_request (lit "http://localhost:8080/chunks/a/b")]
   /\ selector (bare_request (lit "http://localhost:8080/chunks/a/b")) = lit "/chunks/a/b")
  /\ (exists ea eb,
        quote (lit "src") (lit "/") = Ok ea /\ quote (lit "a b") (lit "/") = Ok eb
        /\ Wire.path_component (lit "/chunks/src/a%20b?ref=v1")
           = lit "/chunks/" ++ ea ++ 47 :: eb)
  /\ (4 <= List.length (Wire.split 47 (Wire.path_component (lit "/chunks/src/a%20b?ref=v1"))))%nat
  /\ requests (added (get_chunk (canned ok_response) (lit "src" ++ 47 :: lit "a b")
                                (Some (lit "v1"))) start)
     = [bare_request (lit "http://localhost:8080/chunks/src/a%20b?ref=v1")].
Proof.
  destruct (chunk_id_slash_kept unit (canned ok_response)) as [_ [Hc Hg]].
  destruct (Hc start (bare_request (lit "http://localhost:8080/chunks/a/b")) eq_refl)
    as [Hc1 Hc2].
  destruct (Hg (lit "src") (lit "a b") (Some (lit "v1")) (lit "/chunks/src/a%20b?ref=v1")
               eq_refl) as [Hcomp [Hseg Hreq]].
  split; [split; [exact Hc1 | exact (proj2 (Hc2 eq_refl))] |].
  split; [exact Hcomp | split; [exact Hseg |]].
  exact (proj1 (Hreq start
                     (bare_request (lit "http://localhost:8080/chunks/src/a%20b?ref=v1"))
                     eq_refl)).
Defined.

(* ===================================================================== *)
(** ** The further properties at concrete inputs *)
(* ===================================================================== *)

Lemma transport_failure_propagates_witness :
  invoke (unreachable 111) (GetFile (lit "README.md") None) start
  = (Raise (TransportError 111),
     opened start (bare_request (lit "http://localhost:8080/file?path=README.md")) tt)
  /\ reads (added (invoke (unreachable 111) (GetFile (lit "README.md") None)) start) = [].
Proof.
  exact (transport_failure_propagates unit (unreachable 111)
           (GetFile (lit "README.md") None) (lit "/file?path=README.md") start
           (bare_request (lit "http://localhost:8080/file?path=README.md"))
           (TransportError 111) tt eq_refl eq_refl eq_refl).
Defined.

Lemma read_failure_propagates_witness :
  invoke (canned broken_read) (ListFiles None None None) start
  = (Raise (TransportError 104),
     consumed start (bare_request (lit "http://localhost:8080/files")) tt broken_read).
Proof.
  refine (read_failure_propagates unit (canned broken_read) (ListFiles None None None)
            (lit "/files") start (bare_request (lit "http://localhost:8080/files"))
            broken_read 200%Z 104 tt eq_refl eq_refl eq_refl eq_refl _ eq_refl).
  lia.
Defined.

Lemma undecodable_body_raises_witness :
  fst (invoke (canned latin1_response) (ListFiles None None None) start)
  = Raise UnicodeDecodeError.
Proof.
  refine (undecodable_body_raises unit (canned latin1_response) (ListFiles None None None)
            (lit "/files") start (bare_request (lit "http://localhost:8080/files"))
            latin1_response 200%Z [0xE9] tt eq_refl eq_refl eq_refl eq_refl _ eq_refl
            eq_refl).
  lia.
Defined.

Lemma whitespace_body_raises_witness :
  fst (invoke (canned newline_response) (ListFiles None None None) start)
  = Raise JSONDecodeError.
Proof.
  refine (whitespace_body_raises unit (canned newline_response) (ListFiles None None None)
            (lit "/files") start (bare_request (lit "http://localhost:8080/files"))
            newline_response 200%Z [10] [10] tt eq_refl eq_refl eq_refl eq_refl _ eq_refl
            eq_refl _ _).
  - lia.
  - discriminate.
  - repeat constructor.
Defined.

Lemma bom_body_raises_witness :
  fst (invoke (canned bom_response) (ListFiles None None None) start)
  = Raise JSONDecodeError.
Proof.
  refine (bom_body_raises unit (canned bom_response) (ListFiles None None None)
            (lit "/files") start (bare_request (lit "http://localhost:8080/files"))
            bom_response 200%Z ok_body tt eq_refl eq_refl eq_refl eq_refl _ eq_refl).
  lia.
Defined.

Lemma one_request_with_stored_headers_witness :
  requests (added (invoke (canned ok_response) (SearchSymbols (Some (lit "main")) None))
                  with_token)
  = [ {| _full_url := lit "http://localhost:8080/search/symbols?q=main";
         fragment := None;
         request_headers := [(lit "X-api-key", lit "k2");
                             (lit "Authorization", lit "Bearer t0k3n")] |} ]
  /\ (List.length (reads (added (invoke (canned ok_response)
                                        (SearchSymbols (Some (lit "main")) None))
                                with_token)) <= 1)%nat
  /\ added (invoke (canned ok_response) (SearchSymbols (Some (lit "main")) None)) rootless
     = [].
Proof.
  destruct (one_request_with_stored_headers unit (canned ok_response)
              (SearchSymbols (Some (lit "main")) None) (lit "/search/symbols?q=main")
              with_token eq_refl) as [_ [Hreads [Hreq _]]].
  split; [| split; [exact Hreads |]].
  - exact (proj1 (Hreq {| _full_url := lit "http://localhost:8080/search/symbols?q=main";
                          fragment := None;
                          request_headers := [(lit "X-api-key", lit "k2");
                                              (lit "Authorization", lit "Bearer t0k3n")] |}
                       eq_refl)).
  - exact (proj1 (proj1 (proj2 (proj2 (proj2
             (one_request_with_stored_headers unit (canned ok_response)
                (SearchSymbols (Some (lit "main")) None) (lit "/search/symbols?q=main")
                rootless eq_refl))))
             ValueError eq_refl)).
Defined.

Lemma unencodable_argument_raises_witness :
  (exists p, path_of (Search (lit "tokenize") None None) = Ok p)
  /\ invoke (canned ok_response) (Search [0xD800] None None) start
     = (Raise UnicodeEncodeError, start)
  /\ invoke (canned ok_response) (ListChunks None None None (Some (10 ^ 4300)%Z)) start
     = (Raise ValueError, start).
Proof.
  split; [| split].
  - refine (proj1 (unencodable_argument_raises unit (canned ok_response)
                     (Search (lit "tokenize") None None) start) _ _).
    + repeat constructor. discriminate.
    + repeat constructor.
  - refine (proj1 (proj2 (unencodable_argument_raises unit (canned ok_response)
                            (Search [0xD800] None None) start)) _).
    constructor. reflexivity.
  - refine (proj2 (proj2 (unencodable_argument_raises unit (canned ok_response)
                            (ListChunks None None None (Some (10 ^ 4300)%Z)) start))
                  None None None (10 ^ 4300)%Z eq_refl _ _).
    + vm_compute. reflexivity.
    + apply Forall_cons; [| apply Forall_nil]. apply str_of_int_encodable.
Defined.

Lemma query_keys_in_order_witness :
  map fst (Wire.query_items (lit "/chunks/a%3Fref%3Dx%26y?ref=main")) = [lit "ref"]
  /\ endpoint (GetChunk (lit "a?ref=x&y") (Some (lit "main")))
     = Ok (Wire.path_component (lit "/chunks/a%3Fref%3Dx%26y?ref=main")).
Proof.
  exact (query_keys_in_order (GetChunk (lit "a?ref=x&y") (Some (lit "main")))
           (lit "/chunks/a%3Fref%3Dx%26y?ref=main") eq_refl).
Defined.

Lemma path_is_url_text_witness :
  url_text (lit "/search?q=a+b%2Fc&ref=main")
  /\ Forall (fun ch => ch < 128) (lit "/search?q=a+b%2Fc&ref=main").
Proof.
  exact (path_is_url_text (Search (lit "a b/c") None (Some (lit "main")))
           (lit "/search?q=a+b%2Fc&ref=main") eq_refl).
Defined.

Lemma utf8_round_trip_witness :
  Codec.utf8_decode [0xC3; 0xA9; 0xE2; 0x82; 0xAC; 0xF0; 0x9F; 0x98; 0x80]
  = Some [0xE9; 0x20AC; 0x1F600]
  /\ Forall (fun b => b < 256) [0xC3; 0xA9; 0xE2; 0x82; 0xAC; 0xF0; 0x9F; 0x98; 0x80].
Proof.
  exact (utf8_round_trip [0xE9; 0x20AC; 0x1F600]
           [0xC3; 0xA9; 0xE2; 0x82; 0xAC; 0xF0; 0x9F; 0x98; 0x80] eq_refl).
Defined.

Lemma chunk_ids_never_collide_witness :
  lit "/chunks/a/b?ref=main" <> lit "/chunks/a%252Fb".
Proof.
  refine (chunk_ids_never_collide (lit "a/b") (lit "a%2Fb") (Some (lit "main")) None
            (lit "/chunks/a/b?ref=main") (lit "/chunks/a%252Fb") eq_refl eq_refl _).
  discriminate.
Defined.

Lemma path_determines_parameters_witness :
  endpoint (ListFiles (Some []) None (Some (lit "main")))
  = endpoint (ListFiles None (Some []) (Some (lit "main")))
  /\ map key_text (sent (ListFiles (Some []) None (Some (lit "main"))))
     = map key_text (sent (ListFiles None (Some []) (Some (lit "main")))).
Proof.
  exact (path_determines_parameters (ListFiles (Some []) None (Some (lit "main")))
           (ListFiles None (Some []) (Some (lit "main"))) (lit "/files?ref=main")
           eq_refl eq_refl).
Defined.

Lemma localhost_requests_the_path_witness :
  requests (added (invoke (canned ok_response) (Search (lit "a b/c") None (Some (lit "main"))))
                  start)
  = [bare_request (lit "http://localhost:8080/search?q=a+b%2Fc&ref=main")]
  /\ _full_url (bare_request (lit "http://localhost:8080/search?q=a+b%2Fc&ref=main"))
     = lit "http://localhost:8080" ++ lit "/search?q=a+b%2Fc&ref=main"
  /\ fragment (bare_request (lit "http://localhost:8080/search?q=a+b%2Fc&ref=main")) = None
  /\ selector (bare_request (lit "http://localhost:8080/search?q=a+b%2Fc&ref=main"))
     = lit "/search?q=a+b%2Fc&ref=main".
Proof.
  exact (localhost_requests_the_path unit (canned ok_response)
           (Search (lit "a b/c") None (Some (lit "main")))
           (lit "/search?q=a+b%2Fc&ref=main") start
           (bare_request (lit "http://localhost:8080/search?q=a+b%2Fc&ref=main"))
           eq_refl eq_refl eq_refl).
Defined.
